(** * organize_imports.py: import organizer for Java/Kotlin sources

    A shallow embedding of [src/python/organize_imports.py] and the
    properties of its grouping, sorting and splicing of import lines.

    Text.  Python's [str] is a sequence of code points.  The model uses
    Rocq's [string], whose characters are the code points U+0000..U+00FF;
    every [str] operation the script uses ([strip], [startswith],
    [endswith], [split], [in], comparison, the two regular expressions)
    works code point by code point, and the character classes below are
    Python's own on that range.

    Files.  Reading is in text mode: the decoded characters of a file are
    read with CR LF and CR translated to LF ([universal_newlines]), so
    lines end at the newline character only; writing is modelled where
    [os.linesep] is that character.  Two models of the file system are
    used.  The plain one is a finite map from paths to the texts read: every
    path names a file of its own that can be read and written.  [Disk] has
    paths that lead to numbered files, so that links share a file, files
    that cannot be read (no permission, not UTF-8) or written, and the
    characters of a file with their line endings.  Console output is not
    modelled.

    The first part embeds the script, function by function and under its
    own names; the second part names what the loops compute; the third part
    proves the properties of the specification, and the last part further
    properties of the code. *)

From Stdlib Require Import ZArith Ascii String.
From stdpp Require Import base option list sorting gmap strings.

Local Open Scope list_scope.

(** ** Characters *)

Module Char.

Definition code (c : ascii) : N := N_of_ascii c.

Definition between (lo hi n : N) : bool := (lo <=? n)%N && (n <=? hi)%N.

(** [str.isspace] and the class [\s] of [re] agree; on U+0000..U+00FF
    they hold of TAB..CR, FS..US, SPACE, NEL and NBSP. *)
Definition isspace (c : ascii) : bool :=
  let n := code c in
  between 9 13 n || between 28 32 n || (n =? 133)%N || (n =? 160)%N.

(** The class [\w] of [re] for [str] patterns: alphanumerics and [_]. *)
Definition isword (c : ascii) : bool :=
  let n := code c in
  between 48 57 n || between 65 90 n || (n =? 95)%N || between 97 122 n
  || (n =? 170)%N || between 178 179 n || (n =? 181)%N || between 185 186 n
  || between 188 190 n || between 192 214 n || between 216 246 n
  || between 248 255 n.

(** [[\w\.]] *)
Definition isword_dot (c : ascii) : bool := isword c || (c =? ".")%char.

(** [[\w\.\*]] *)
Definition isword_dot_star (c : ascii) : bool :=
  isword c || (c =? ".")%char || (c =? "*")%char.

Definition newline : ascii := "010"%char.

Definition cr : ascii := "013"%char.

End Char.

(** ** Strings: the [str] methods the script calls *)

Module Str.

Definition NL : string := String Char.newline EmptyString.

Definition nonempty (s : string) : bool :=
  match s with EmptyString => false | String _ _ => true end.

Fixpoint lstrip (s : string) : string :=
  match s with
  | EmptyString => EmptyString
  | String c s' => if Char.isspace c then lstrip s' else s
  end.

Fixpoint rstrip (s : string) : string :=
  match s with
  | EmptyString => EmptyString
  | String c s' =>
      match rstrip s' with
      | EmptyString => if Char.isspace c then EmptyString else String c EmptyString
      | r => String c r
      end
  end.

(** [s.strip()] *)
Definition strip (s : string) : string := lstrip (rstrip s).

(** [s.rstrip("\n")] *)
Fixpoint rstrip_nl (s : string) : string :=
  match s with
  | EmptyString => EmptyString
  | String c s' =>
      match rstrip_nl s' with
      | EmptyString =>
          if (c =? Char.newline)%char then EmptyString else String c EmptyString
      | r => String c r
      end
  end.

(** [s.startswith(p)] *)
Definition startswith (p s : string) : bool := String.prefix p s.

(** [s.endswith(p)] *)
Fixpoint endswith (p s : string) : bool :=
  String.eqb s p ||
  match s with
  | EmptyString => false
  | String _ s' => endswith p s'
  end.

(** [p in s] *)
Fixpoint contains (p s : string) : bool :=
  String.prefix p s ||
  match s with
  | EmptyString => false
  | String _ s' => contains p s'
  end.

(** [s.count(p)] for a non-empty [p]: occurrences counted left to right
    without overlap; [skip] characters of a counted occurrence remain. *)
Fixpoint count_from (p : string) (skip : nat) (s : string) : nat :=
  match s with
  | EmptyString => 0
  | String _ s' =>
      match skip with
      | S k => count_from p k s'
      | O =>
          if String.prefix p s
          then S (count_from p (String.length p - 1) s')
          else count_from p 0 s'
      end
  end.
Definition count (p s : string) : nat := count_from p 0 s.

(** [s.split(".")[0]] *)
Fixpoint split_dot_head (s : string) : string :=
  match s with
  | EmptyString => EmptyString
  | String c s' => if (c =? ".")%char then EmptyString else String c (split_dot_head s')
  end.

(** [s] without the prefix [p], when it starts with it. *)
Fixpoint drop_prefix (p s : string) : option string :=
  match p, s with
  | EmptyString, _ => Some s
  | String a p', String b s' => if (a =? b)%char then drop_prefix p' s' else None
  | String _ _, EmptyString => None
  end.

(** The first [length s - length rest] characters of [s]: the text a
    matcher consumed when it went from [s] to [rest]. *)
Definition consumed (s rest : string) : string :=
  String.substring 0 (String.length s - String.length rest) s.

End Str.

(** ** Regular expressions

    The fragment of [re] syntax that [PACKAGE_RE] and [IMPORT_RE] use, with
    the backtracking semantics of [re]: alternatives are tried left to
    right, repetitions and options are greedy, and the first way to match
    the whole pattern wins.  [Pattern.match] anchors at index 0, where [^]
    holds with or without [re.MULTILINE], so [^] has no constructor. *)

Module Re.

Inductive regex : Type :=
| Lit (t : string)                 (* literal text *)
| Plus (cls : ascii → bool)        (* [cls]+ *)
| Star (cls : ascii → bool)        (* [cls]* *)
| Opt (r : regex)                  (* r? *)
| Alt (r1 r2 : regex)              (* r1|r2 *)
| Cat (r1 r2 : regex)              (* r1 r2 *)
| Group (n : nat) (r : regex)      (* (r), the n-th capturing group *)
| Eol.                             (* $ *)

Abbreviation captures := (gmap nat string).

(** Greedy [cls]*: the longest run first, then shorter ones. *)
Fixpoint star {T} (cls : ascii → bool) (s : string) (k : string → option T) : option T :=
  match s with
  | String c s' =>
      if cls c
      then match star cls s' k with Some m => Some m | None => k s end
      else k s
  | EmptyString => k s
  end.

Definition plus {T} (cls : ascii → bool) (s : string) (k : string → option T) : option T :=
  match s with
  | String c s' => if cls c then star cls s' k else None
  | EmptyString => None
  end.

(** [run r s g k]: match [r] at the front of [s] with captures [g], then
    continue with [k] on the rest; [None] makes the caller backtrack. *)
Fixpoint run (r : regex) (s : string) (g : captures)
    (k : string → captures → option captures) : option captures :=
  match r with
  | Lit t => match Str.drop_prefix t s with Some s' => k s' g | None => None end
  | Plus cls => plus cls s (λ s', k s' g)
  | Star cls => star cls s (λ s', k s' g)
  | Opt r1 => match run r1 s g k with Some m => Some m | None => k s g end
  | Alt r1 r2 => match run r1 s g k with Some m => Some m | None => run r2 s g k end
  | Cat r1 r2 => run r1 s g (λ s' g', run r2 s' g' k)
  | Group n r1 => run r1 s g (λ s' g', k s' (<[n := Str.consumed s s']> g'))
  | Eol => if String.eqb s EmptyString || String.eqb s Str.NL then k s g else None
  end.

(** [pattern.match(s)]: the captures of the match, if there is one. *)
Definition re_match (r : regex) (s : string) : option captures :=
  run r s ∅ (λ _ g, Some g).

(** [m.group(n)] of a group that took part in the match. *)
Definition group (m : captures) (n : nat) : string := default EmptyString (m !! n).

End Re.

Import Re.

Declare Scope regex_scope.
Delimit Scope regex_scope with re.
Infix "⋅" := Cat (at level 41, right associativity) : regex_scope.
Infix "∣" := Alt (at level 42, right associativity) : regex_scope.

(** ** Module constants *)

(** [PACKAGE_RE = re.compile(r"^package\s+[\w\.]+;?\s*$")] *)
Definition PACKAGE_RE : regex :=
  (Lit "package" ⋅ Plus Char.isspace ⋅ Plus Char.isword_dot ⋅ Opt (Lit ";")
     ⋅ Star Char.isspace ⋅ Eol)%re.

(** [IMPORT_RE = re.compile(r"^(import\s+static|import)\s+([\w\.\*]+)(;)?", re.MULTILINE)] *)
Definition IMPORT_RE : regex :=
  (Group 1 ((Lit "import" ⋅ Plus Char.isspace ⋅ Lit "static") ∣ Lit "import")
     ⋅ Plus Char.isspace ⋅ Group 2 (Plus Char.isword_dot_star)
     ⋅ Opt (Group 3 (Lit ";")))%re.

Definition SUPPORTED_EXTENSIONS : list string := [".java"; ".kt"].

Definition IMPORT_ORDER : list string :=
  ["static"; "android"; "androidx"; "com"; "net"; "org"; "kotlin"; "kotlinx";
   "java"; "javax"].

(** ** [get_import_group] *)

Definition get_import_group (import_path : string) (is_static : bool) : string :=
  if is_static then "static"
  else
    let top_level := Str.split_dot_head import_path in
    if bool_decide (top_level ∈ IMPORT_ORDER) then top_level
    else "zzz_other." +:+ import_path.

(** ** [sort_imports] *)

(** An import as [process_file] records it: [(is_static, path, line)]. *)
Abbreviation import := (bool * string * string)%type.

(** [groups[key].append(item)] on a [defaultdict(list)]. *)
Definition groups_append (key : string) (item : string * string)
    (groups : gmap string (list (string * string))) : gmap string (list (string * string)) :=
  <[key := default [] (groups !! key) ++ [item]]> groups.

(** The [for order_group in IMPORT_ORDER: ... break ... else: ...] loop:
    the first entry equal to [top], or the catch-all key. *)
Fixpoint find_order_group (top : string) (order : list string) : string :=
  match order with
  | [] => "zzz_other"
  | order_group :: rest =>
      if String.eqb top order_group then order_group else find_order_group top rest
  end.

(** One round of the grouping loop. *)
Definition group_step (groups : gmap string (list (string * string))) (imp : import)
    : gmap string (list (string * string)) :=
  let '(is_static, path, line) := imp in
  if is_static then groups_append "static" (path, line) groups
  else
    let top := Str.split_dot_head path in
    groups_append (find_order_group top IMPORT_ORDER) (path, line) groups.

(** Order of Python tuples [(path, line)]: by [path], then by [line], each
    by code points. *)
Definition tuple_leb (a b : string * string) : bool :=
  match (a.1 ?= b.1)%string with
  | Lt => true
  | Eq => (a.2 <=? b.2)%string
  | Gt => false
  end.
Definition tuple_le : relation (string * string) := λ a b, tuple_leb a b = true.

Global Instance tuple_le_dec : RelDecision tuple_le.
Proof. intros a b. unfold tuple_le. apply _. Defined.

(** [sorted(l)] on tuples.  [tuple_le] is a total order in which only equal
    tuples tie, so every sorting algorithm returns the list Python's does
    (see [sorted_unique]). *)
Definition sorted (l : list (string * string)) : list (string * string) :=
  merge_sort tuple_le l.

(** [if group in groups and groups[group]: ordered.extend(...); ordered.append("")] *)
Definition emit_group (groups : gmap string (list (string * string)))
    (ordered : list string) (group : string) : list string :=
  match groups !! group with
  | Some (item :: items) => ordered ++ (snd <$> sorted (item :: items)) ++ [EmptyString]
  | _ => ordered
  end.

(** [while ordered and ordered[-1] == "": ordered.pop()] *)
Fixpoint pop_blanks (ordered : list string) : list string :=
  match ordered with
  | [] => []
  | x :: rest =>
      match pop_blanks rest with
      | [] => if String.eqb x EmptyString then [] else [x]
      | kept => x :: kept
      end
  end.

Definition sort_imports (imports : list import) : list string :=
  let groups := foldl group_step ∅ imports in
  let ordered := foldl (emit_group groups) [] IMPORT_ORDER in
  let ordered := emit_group groups ordered "zzz_other" in
  pop_blanks ordered.

(** ** [process_file] *)

Record scan_state : Type := ScanState {
  imports : list import;
  import_lines : list nat;
  star_imports : list (string * nat);
  package_idx : Z;
}.

Definition scan_init : scan_state :=
  {| imports := []; import_lines := []; star_imports := []; package_idx := (-1)%Z |}.

(** The body of [for idx, line in enumerate(lines)]. *)
Definition scan_step (filepath : string) (st : scan_state) (idx : nat) (line : string)
    : scan_state :=
  let line := Str.strip line in
  if negb (Str.nonempty line) || Str.startswith "//" line then st
  else if bool_decide (is_Some (re_match PACKAGE_RE line)) then
    {| imports := imports st; import_lines := import_lines st;
       star_imports := star_imports st; package_idx := Z.of_nat idx |}
  else
    match re_match IMPORT_RE line with
    | Some import_match =>
        let is_static := String.eqb (group import_match 1) "import static" in
        let path := group import_match 2 in
        let stars :=
          if Str.contains "*" path then star_imports st ++ [(line, idx + 1)]
          else star_imports st in
        let line :=
          if Str.endswith ".java" filepath && negb (Str.endswith ";" line)
          then line +:+ ";" else line in
        {| imports := imports st ++ [(is_static, path, line)];
           import_lines := import_lines st ++ [idx];
           star_imports := stars; package_idx := package_idx st |}
    | None => st
    end.

Fixpoint scan_lines (filepath : string) (st : scan_state) (idx : nat) (lines : list string)
    : scan_state :=
  match lines with
  | [] => st
  | line :: rest => scan_lines filepath (scan_step filepath st idx line) (S idx) rest
  end.

(** The [while next_content_idx < len(lines)] loop; [rest] is
    [lines[next_content_idx:]]. *)
Fixpoint skip_trailing (rest : list string) (next_content_idx : nat)
    (preserved_lines : list string) : nat * list string :=
  match rest with
  | [] => (next_content_idx, preserved_lines)
  | line :: rest' =>
      let current_line := Str.rstrip_nl line in
      if Str.nonempty (Str.strip current_line)
         && negb (Str.startswith "//" (Str.strip current_line))
      then (next_content_idx, preserved_lines)
      else
        skip_trailing rest' (S next_content_idx)
          (if Str.nonempty (Str.strip current_line)
           then preserved_lines ++ [line] else preserved_lines)
  end.

(** [process_file] on the lines read from the file: [None] when it returns
    before writing, [Some new_lines] when it writes [new_lines]. *)
Definition process_file (filepath : string) (lines : list string) : option (list string) :=
  let st := scan_lines filepath scan_init 0 lines in
  if bool_decide (imports st = []) then None
  else
    let first := default 0 (head (import_lines st)) in
    let last := default 0 (last (import_lines st)) in
    let sorted_imports := sort_imports (imports st) in
    let '(next_content_idx, preserved_lines) :=
      skip_trailing (drop (last + 1) lines) (last + 1) [] in
    let preserved_lines := preserved_lines ++ [Str.NL] in
    let new_lines :=
      if bool_decide (package_idx st ≠ (-1)%Z) then
        take (Z.to_nat (package_idx st + 1)) lines
          ++ [Str.NL]
          ++ ((λ s, s +:+ Str.NL) <$> sorted_imports)
          ++ preserved_lines
          ++ drop next_content_idx lines
      else
        take first lines
          ++ ((λ s, s +:+ Str.NL) <$> sorted_imports)
          ++ preserved_lines
          ++ drop next_content_idx lines in
    Some new_lines.

(** ** Files *)

(** [f.readlines()]: the text cut after each newline. *)
Fixpoint readlines (content : string) : list string :=
  match content with
  | EmptyString => []
  | String c rest =>
      if (c =? Char.newline)%char then Str.NL :: readlines rest
      else
        match readlines rest with
        | [] => [String c EmptyString]
        | line :: lines => String c line :: lines
        end
  end.

(** [f.writelines(lines)] into an empty file. *)
Definition writelines (lines : list string) : string :=
  foldr String.append EmptyString lines.

(** Text mode.  [open] is called without [newline], so reading translates
    the line endings: of the decoded characters [raw] of a file, CR LF and
    a lone CR are read as LF.  Writing translates LF to [os.linesep], which
    is taken to be LF, so what is written holds the characters as they
    are. *)
Fixpoint universal_newlines (raw : string) : string :=
  match raw with
  | EmptyString => EmptyString
  | String c rest =>
      if (c =? Char.cr)%char then
        String Char.newline
          match rest with
          | String c' rest' =>
              if (c' =? Char.newline)%char then universal_newlines rest'
              else universal_newlines rest
          | EmptyString => EmptyString
          end
      else String c (universal_newlines rest)
  end.

(** [process_file] on a file system in which every path names a file of its
    own and every file can be read and written: a map from paths to the
    texts that reading gives ([Disk] below has links, files that cannot be
    read or written, and line endings).  [None] when [open] raises because
    there is no such file, otherwise the file system it leaves. *)
Definition process_file_fs (filepath : string) (fs : gmap string string)
    : option (gmap string string) :=
  content ← fs !! filepath;
  Some match process_file filepath (readlines content) with
       | Some new_lines => <[filepath := writelines new_lines]> fs
       | None => fs
       end.

(** What [process_file] leaves in a file, as text: [content] is the text
    that reading the file gives, after newline translation, and the result
    is the text that reading it afterwards gives ([Disk.transform] is the
    same on the characters of the file). *)
Definition transform (filepath : string) (content : string) : string :=
  match process_file filepath (readlines content) with
  | Some new_lines => writelines new_lines
  | None => content
  end.

(** ** [scan_and_process] *)

(** The counters of [scan_and_process]; [unique_dirs], which only feeds the
    printed summary, is left out. *)
Record summary : Type := Summary {
  found_imports : bool;
  star_import_files : list string;
  processed_files : nat;
  processed_imports : nat;
}.

Definition summary_init : summary :=
  {| found_imports := false; star_import_files := [];
     processed_files := 0; processed_imports := 0 |}.

(** [os.path.join(root, file)] for a file name. *)
Definition path_join (root file : string) : string :=
  if negb (Str.nonempty root) || Str.endswith "/" root then root +:+ file
  else root +:+ "/" +:+ file.

(** The body of [for file in files], for a file of the directory [root],
    on a file system as for [process_file_fs]: [None] when [open] raises. *)
Definition visit_file (root : string) (st : gmap string string * summary) (file : string)
    : option (gmap string string * summary) :=
  let '(fs, sm) := st in
  if existsb (λ ext, Str.endswith ext file) SUPPORTED_EXTENSIONS then
    let filepath := path_join root file in
    content ← fs !! filepath;
    let import_count := Str.count "import " content in
    let sm :=
      if (0 <? import_count)%nat then
        {| found_imports := true;
           star_import_files :=
             if Str.contains "*" content then star_import_files sm ++ [filepath]
             else star_import_files sm;
           processed_files := processed_files sm + 1;
           processed_imports := processed_imports sm + import_count |}
      else sm in
    fs ← process_file_fs filepath fs;
    Some (fs, sm)
  else Some st.

Fixpoint visit_files (root : string) (st : gmap string string * summary)
    (files : list string) : option (gmap string string * summary) :=
  match files with
  | [] => Some st
  | file :: rest => st ← visit_file root st file; visit_files root st rest
  end.

(** [scan_and_process] over what [os.walk(APP_DIR)] yields, the pairs
    [(root, files)]: the file system and the counters after the walk.  The
    star-import warning lists [star_import_files]. *)
Fixpoint scan_and_process (walk : list (string * list string))
    (st : gmap string string * summary) : option (gmap string string * summary) :=
  match walk with
  | [] => Some st
  | (root, files) :: rest => st ← visit_files root st files; scan_and_process rest st
  end.

(** ** The same on a disk

    Files as the operating system has them: several paths can lead to one
    file, a file can refuse to be read or written, and its text can have
    line endings other than LF. *)

Module Disk.

(** What a path leads to: a regular file that can be read, with its decoded
    characters and whether it can be written, or something that [open] or
    [read] raises on (no permission to read, bytes that are not UTF-8, a
    directory). *)
Inductive file : Type :=
| Text (raw : string) (writable : bool)
| Unreadable.

(** Paths lead to numbered files: paths that are links to one file lead to
    the same number, and a dangling link leads to a number without file. *)
Record disk : Type := Disk {
  names : gmap string nat;
  files : gmap nat file;
}.

(** [open(filepath, "r", encoding="utf-8")] followed by [read] or
    [readlines]: the text in text mode, [None] when one of them raises. *)
Definition read (d : disk) (filepath : string) : option string :=
  n ← names d !! filepath;
  f ← files d !! n;
  match f with
  | Text raw _ => Some (universal_newlines raw)
  | Unreadable => None
  end.

(** [open(filepath, "w", encoding="utf-8")] followed by [writelines], for
    a path that leads to a file: the text replaces what the file held,
    whatever path is used for it later; [None] when [open] raises. *)
Definition write (d : disk) (filepath : string) (text : string) : option disk :=
  n ← names d !! filepath;
  f ← files d !! n;
  match f with
  | Text _ true => Some {| names := names d; files := <[n := Text text true]> (files d) |}
  | _ => None
  end.

(** [process_file]: [None] when it raises, otherwise the disk it leaves. *)
Definition process_file_fs (filepath : string) (d : disk) : option disk :=
  text ← read d filepath;
  match process_file filepath (readlines text) with
  | Some new_lines => write d filepath (writelines new_lines)
  | None => Some d
  end.

(** The characters [process_file] leaves in a file that holds [raw]. *)
Definition transform (filepath : string) (raw : string) : string :=
  match process_file filepath (readlines (universal_newlines raw)) with
  | Some new_lines => writelines new_lines
  | None => raw
  end.

(** The body of [for file in files]. *)
Definition visit_file (root : string) (st : disk * summary) (file : string)
    : option (disk * summary) :=
  let '(d, sm) := st in
  if existsb (λ ext, Str.endswith ext file) SUPPORTED_EXTENSIONS then
    let filepath := path_join root file in
    content ← read d filepath;
    let import_count := Str.count "import " content in
    let sm :=
      if (0 <? import_count)%nat then
        {| found_imports := true;
           star_import_files :=
             if Str.contains "*" content then star_import_files sm ++ [filepath]
             else star_import_files sm;
           processed_files := processed_files sm + 1;
           processed_imports := processed_imports sm + import_count |}
      else sm in
    d ← process_file_fs filepath d;
    Some (d, sm)
  else Some st.

Fixpoint visit_files (root : string) (st : disk * summary) (files : list string)
    : option (disk * summary) :=
  match files with
  | [] => Some st
  | file :: rest => st ← visit_file root st file; visit_files root st rest
  end.

(** [scan_and_process] over what [os.walk(APP_DIR)] yields. *)
Fixpoint scan_and_process (walk : list (string * list string)) (st : disk * summary)
    : option (disk * summary) :=
  match walk with
  | [] => Some st
  | (root, files) :: rest => st ← visit_files root st files; scan_and_process rest st
  end.

End Disk.

(** ** The main block *)

(** What [parse_args] returns: [--app] with its default ["./app"] and
    [--src], [None] when it is not given. *)
Record args : Type := Args {
  arg_app : string;
  arg_src : option string;
}.

(** The value of [APP_DIR] when [scan_and_process] is called: a string is
    true when it is not empty. *)
Definition main_app_dir (a : args) : string :=
  let APP_DIR := if Str.nonempty (arg_app a) then arg_app a else "./app" in
  match arg_src a with
  | Some dir => if Str.nonempty dir then dir else APP_DIR
  | None => APP_DIR
  end.

(** * Vocabulary of the properties

    Definitions that the statements and proofs below use to speak about
    the program: they name what the loops of the script compute. *)

(** ** Groups *)

(** The key of the bucket that [group_step] appends an import to. *)
Definition bucket_key (imp : import) : string :=
  if imp.1.1 then "static"
  else find_order_group (Str.split_dot_head imp.1.2) IMPORT_ORDER.

(** The [(path, line)] tuple stored for an import. *)
Definition item_of (imp : import) : string * string := (imp.1.2, imp.2).

(** The keys in the order [sort_imports] visits them. *)
Definition group_order : list string := IMPORT_ORDER ++ ["zzz_other"].

(** The top-level package names among the keys: [IMPORT_ORDER] without its
    first entry, the key of the static imports. *)
Definition known_prefixes : list string :=
  ["android"; "androidx"; "com"; "net"; "org"; "kotlin"; "kotlinx"; "java"; "javax"].

(** Position of a key in a list of keys. *)
Fixpoint index_of (key : string) (keys : list string) : nat :=
  match keys with
  | [] => 0
  | k :: rest => if String.eqb key k then 0 else S (index_of key rest)
  end.

(** The priority index of a group: its position in [group_order]. *)
Definition priority (key : string) : nat := index_of key group_order.

(** The tuples of the imports with a given key, in input order. *)
Definition members (key : string) (imports : list import) : list (string * string) :=
  item_of <$> filter (λ imp, bucket_key imp = key) imports.

(** What one round of the emitting loop adds for a bucket. *)
Definition emitted_for (bucket : list (string * string)) : list string :=
  match bucket with
  | [] => []
  | _ :: _ => (snd <$> sorted bucket) ++ [EmptyString]
  end.

(** No import has an empty line text; this holds of the imports that
    [process_file] records, which come from non-blank lines. *)
Definition nonblank (imports : list import) : Prop :=
  Forall (λ imp : import, imp.2 ≠ EmptyString) imports.

(** The tuples [sort_imports] emits, in order, each with its bucket key. *)
Definition emitted (imports : list import) : list (string * (string * string)) :=
  mjoin ((λ g, (λ item, (g, item)) <$> sorted (members g imports)) <$> group_order).

(** ** Groups, as the specification names them *)

(** The groups in the priority order of the specification: [static], the
    known prefixes in their declared order, and the catch-all group. *)
Definition spec_order : list string :=
  ["static"; "android"; "androidx"; "com"; "net"; "org"; "kotlin"; "kotlinx";
   "java"; "javax"; "other"].

(** The priority index of a group of the specification. *)
Definition spec_priority (group : string) : nat := index_of group spec_order.

(** The group of an import in the words of the specification: [static] for
    a static import, the first segment of the path when it is a known
    prefix, and the catch-all group otherwise. *)
Definition spec_group (imp : import) : string :=
  if imp.1.1 then "static"
  else
    let top := Str.split_dot_head imp.1.2 in
    if bool_decide (top ∈ known_prefixes) then top else "other".

(** The same with one more case: an import that is not static and whose
    first segment is the word [static] belongs to the group [static]. *)
Definition group_of (imp : import) : string :=
  let top := Str.split_dot_head imp.1.2 in
  if imp.1.1 || String.eqb top "static" then "static"
  else if bool_decide (top ∈ known_prefixes) then top else "other".

(** ** Blank lines *)

(** Blocks of lines with exactly one blank line between neighbours. *)
Fixpoint join_blocks (blocks : list (list string)) : list string :=
  match blocks with
  | [] => []
  | b :: rest =>
      match rest with
      | [] => b
      | _ :: _ => b ++ EmptyString :: join_blocks rest
      end
  end.

(** No blank line is followed by a blank line. *)
Fixpoint no_double_blank (l : list string) : Prop :=
  match l with
  | x :: rest =>
      match rest with
      | y :: _ => (x = EmptyString → y ≠ EmptyString) ∧ no_double_blank rest
      | [] => True
      end
  | [] => True
  end.

(** A block with at least one line and no blank line. *)
Definition solid (b : list string) : Prop := b ≠ [] ∧ Forall (λ s, s ≠ EmptyString) b.

(** ** Lines of a file *)

(** The test that makes the scanning loop skip a stripped line: it is
    blank or a line comment. *)
Definition skipped (line : string) : bool :=
  negb (Str.nonempty line) || Str.startswith "//" line.

(** The line sets [package_idx]. *)
Definition is_package_line (line : string) : bool :=
  let line := Str.strip line in
  negb (skipped line) && bool_decide (is_Some (re_match PACKAGE_RE line)).

(** The line is taken as an import, with this [is_static] and [path]. *)
Definition recognise (line : string) : option (bool * string) :=
  let line := Str.strip line in
  if skipped line then None
  else if bool_decide (is_Some (re_match PACKAGE_RE line)) then None
  else (λ m, (String.eqb (group m 1) "import static", group m 2))
         <$> re_match IMPORT_RE line.

(** The text recorded for an import line of the file [filepath]. *)
Definition render (filepath line : string) : string :=
  let line := Str.strip line in
  if Str.endswith ".java" filepath && negb (Str.endswith ";" line)
  then line +:+ ";" else line.

(** The import that the scanning loop records for a line, if any. *)
Definition parse_import (filepath line : string) : option import :=
  (λ sp, (sp.1, sp.2, render filepath line)) <$> recognise line.

(** The indices the loop appends to [import_lines], counting from [idx]. *)
Fixpoint import_indices (idx : nat) (lines : list string) : list nat :=
  match lines with
  | [] => []
  | line :: rest =>
      match recognise line with Some _ => [idx] | None => [] end ++ import_indices (S idx) rest
  end.

(** The value of [package_idx] after the loop, started at [found]. *)
Fixpoint last_package (idx : nat) (found : Z) (lines : list string) : Z :=
  match lines with
  | [] => found
  | line :: rest =>
      last_package (S idx) (if is_package_line line then Z.of_nat idx else found) rest
  end.

(** A line that ends the run of blank and comment lines after the imports. *)
Definition substantive (line : string) : bool :=
  Str.nonempty (Str.strip line) && negb (Str.startswith "//" (Str.strip line)).

(** The blank and comment lines at the front of [rest]. *)
Fixpoint leading_skippable (rest : list string) : list string :=
  match rest with
  | [] => []
  | line :: rest' => if substantive line then [] else line :: leading_skippable rest'
  end.

(** The comment lines kept from a run of blank and comment lines. *)
Definition kept_comments (skip : list string) : list string :=
  filter (λ l, Str.nonempty (Str.strip l) = true) skip.

(** The lines written in place of the import region. *)
Definition import_block (filepath : string) (lines : list string) : list string :=
  (λ s, s +:+ Str.NL) <$> sort_imports (omap (parse_import filepath) lines).

(** ** Text *)

Fixpoint last_char (s : string) : option ascii :=
  match s with
  | EmptyString => None
  | String c s' => match s' with EmptyString => Some c | String _ _ => last_char s' end
  end.

Fixpoint all_chars (P : ascii → bool) (s : string) : bool :=
  match s with
  | EmptyString => true
  | String c s' => P c && all_chars P s'
  end.

Definition not_semicolon (c : ascii) : bool := negb (c =? ";")%char.

(** The text holds no carriage return. *)
Definition no_cr (s : string) : bool := all_chars (λ c, negb (c =? Char.cr)%char) s.

(** The text does not start, respectively end, with white space. *)
Definition head_tight (s : string) : Prop :=
  match s with EmptyString => True | String c _ => Char.isspace c = false end.

Definition last_tight (s : string) : Prop :=
  match last_char s with None => True | Some c => Char.isspace c = false end.

(** The rest after, and the text of, the longest run of a class at the
    front of [s]. *)
Fixpoint skip_while (cls : ascii → bool) (s : string) : string :=
  match s with
  | String c s' => if cls c then skip_while cls s' else s
  | EmptyString => EmptyString
  end.

Fixpoint take_while (cls : ascii → bool) (s : string) : string :=
  match s with
  | String c s' => if cls c then String c (take_while cls s') else EmptyString
  | EmptyString => EmptyString
  end.

Definition starts_with (cls : ascii → bool) (s : string) : bool :=
  match s with String c _ => cls c | EmptyString => false end.

(** A line with its newline: no other newline inside. *)
Fixpoint full_line (l : string) : bool :=
  match l with
  | EmptyString => false
  | String c s =>
      if (c =? Char.newline)%char then negb (Str.nonempty s) else full_line s
  end.

Definition no_newline (s : string) : bool :=
  all_chars (λ c, negb (c =? Char.newline)%char) s.

(** The last line of a text that does not end in a newline. *)
Definition partial_line (l : string) : bool := Str.nonempty l && no_newline l.

(** The lists of lines that [readlines] returns. *)
Inductive lines_wf : list string → Prop :=
| lines_wf_nil : lines_wf []
| lines_wf_last l : partial_line l = true → lines_wf [l]
| lines_wf_cons l ls : full_line l = true → lines_wf ls → lines_wf (l :: ls).

(** ** [IMPORT_RE], read off the pattern *)

(** What follows the first group of [IMPORT_RE]: white space, then the path. *)
Definition import_tail (r : string) : option string :=
  if starts_with Char.isspace r then
    let r' := skip_while Char.isspace r in
    if starts_with Char.isword_dot_star r'
    then Some (take_while Char.isword_dot_star r') else None
  else None.

(** [IMPORT_RE.match(s)] as a function of [s]: the texts of groups 1 and 2.
    The alternative [import\s+static] is tried first and given up when the
    rest of the pattern does not follow it ([import_re_spec] proves that
    this is what the matcher returns). *)
Definition import_spec (s : string) : option (string * string) :=
  r1 ← Str.drop_prefix "import" s;
  match (if starts_with Char.isspace r1 then
           r3 ← Str.drop_prefix "static" (skip_while Char.isspace r1);
           path ← import_tail r3;
           Some ("import" +:+ take_while Char.isspace r1 +:+ "static", path)
         else None) with
  | Some x => Some x
  | None => path ← import_tail r1; Some ("import", path)
  end.

(** The pattern after its first group. *)
Definition tail_re : regex :=
  (Plus Char.isspace ⋅ Group 2 (Plus Char.isword_dot_star) ⋅ Opt (Group 3 (Lit ";")))%re.

(** ** [PACKAGE_RE], read off the pattern *)

(** [PACKAGE_RE.match(s)] succeeds: the word, white space, a dotted name,
    an optional [;], and nothing but white space up to the end. *)
Definition package_spec (s : string) : bool :=
  match Str.drop_prefix "package" s with
  | Some r1 =>
      starts_with Char.isspace r1 &&
      let r2 := skip_while Char.isspace r1 in
      starts_with Char.isword_dot r2 &&
      let r3 := skip_while Char.isword_dot r2 in
      (match Str.drop_prefix ";" r3 with
       | Some r4 => all_chars Char.isspace r4
       | None => false
       end || all_chars Char.isspace r3)
  | None => false
  end.

(** ** Wildcard imports and the walk *)

(** What the scanning loop appends to [star_imports], counting lines from
    [idx]. *)
Fixpoint star_lines (idx : nat) (lines : list string) : list (string * nat) :=
  match lines with
  | [] => []
  | line :: rest =>
      match recognise line with
      | Some sp => if Str.contains "*" sp.2 then [(Str.strip line, idx + 1)] else []
      | None => []
      end ++ star_lines (S idx) rest
  end.

(** The file name has one of the supported extensions. *)
Definition supported (file : string) : bool :=
  existsb (λ ext, Str.endswith ext file) SUPPORTED_EXTENSIONS.

(** The paths of the files that [scan_and_process] opens, in order. *)
Definition visited (walk : list (string * list string)) : list string :=
  mjoin ((λ '(root, files), path_join root <$> filter (λ f, supported f = true) files)
           <$> walk).

(** What the counters of [scan_and_process] satisfy at every moment. *)
Definition summary_ok (sm : summary) : Prop :=
  (found_imports sm = true ↔ 0 < processed_files sm) ∧
  processed_files sm ≤ processed_imports sm ∧
  length (star_import_files sm) ≤ processed_files sm.

(** What a walk that opened the paths [paths], in this order, has made of
    a disk: no path leads elsewhere, no file has appeared, gone, or become
    readable or unreadable; every path could be read; a file that none of
    the paths leads to is as it was; and when the paths lead to different
    files, each of these holds what [process_file] makes of what it
    held. *)
Definition walked (paths : list string) (d d' : Disk.disk) : Prop :=
  Disk.names d' = Disk.names d ∧
  (∀ n, is_Some (Disk.files d' !! n) ↔ is_Some (Disk.files d !! n)) ∧
  (∀ p, is_Some (Disk.read d' p) ↔ is_Some (Disk.read d p)) ∧
  Forall (λ p, is_Some (Disk.read d p)) paths ∧
  (∀ n, (∀ p, p ∈ paths → Disk.names d !! p ≠ Some n) →
        Disk.files d' !! n = Disk.files d !! n) ∧
  (NoDup ((λ p, Disk.names d !! p) <$> paths) →
   ∀ p n raw w, p ∈ paths → Disk.names d !! p = Some n →
                Disk.files d !! n = Some (Disk.Text raw w) →
                Disk.files d' !! n = Some (Disk.Text (Disk.transform p raw) w)).

(** ** Example inputs *)

(** The file of scenario 1 of the specification, and its imports. *)
Definition scenario1 : list string :=
  ["import org.foo.Bar;" +:+ Str.NL; "import android.view.View;" +:+ Str.NL;
   "import static java.util.Map.entry;" +:+ Str.NL].

Definition scenario1_imports : list import :=
  [(false, "org.foo.Bar", "import org.foo.Bar;");
   (false, "android.view.View", "import android.view.View;");
   (true, "java.util.Map.entry", "import static java.util.Map.entry;")].

(** A file in which the only text that looks like an import is a comment. *)
Definition no_imports_file : string :=
  "package a;" +:+ Str.NL +:+ "// import x.Y;" +:+ Str.NL +:+ "class A {}" +:+ Str.NL.

(** A file with an import, no wildcard import, and a block comment. *)
Definition commented_file : string :=
  "import java.util.List;" +:+ Str.NL +:+ "/* a note */" +:+ Str.NL
    +:+ "class A {}" +:+ Str.NL.

(** A file whose only import is a wildcard import written with a TAB. *)
Definition tab_wildcard_file : string :=
  "import" +:+ String "009" "foo.bar.*" +:+ Str.NL.

(** A file with a comment between its package line and its first import. *)
Definition package_comment_file : list string :=
  ["package a;" +:+ Str.NL; "// note" +:+ Str.NL; "import x.Y;" +:+ Str.NL;
   "class A" +:+ Str.NL].

(** A file that ends in a comment without a newline, right after its
    imports. *)
Definition trailing_comment_file : string :=
  "import a.B;" +:+ Str.NL +:+ "// c".

(** A file whose package line comes after an import. *)
Definition late_package_file : string :=
  "import a.B;" +:+ Str.NL +:+ "package x;" +:+ Str.NL.

(** A file with a package line, two imports out of order, a comment after
    them, and a body without final newline. *)
Definition organised_file : string :=
  "package a;" +:+ Str.NL +:+ Str.NL +:+ "import org.foo.Bar;" +:+ Str.NL
    +:+ "import android.view.View;" +:+ Str.NL +:+ "// c" +:+ Str.NL
    +:+ "class A {}".

(** A Kotlin file with an import from a package named [static]. *)
Definition static_package_file : list string :=
  ["import android.A" +:+ Str.NL; "import static.Foo" +:+ Str.NL].

(** Imports whose order by group differs from their order by path. *)
Definition mixed_imports : list import :=
  [(false, "java.util.List", "import java.util.List;");
   (false, "org.foo.Bar", "import org.foo.Bar;");
   (false, "static.Foo", "import static.Foo;");
   (false, "foo.Baz", "import foo.Baz;");
   (true, "android.R.id", "import static android.R.id;")].

(** A file with two blank lines between its package line and its import. *)
Definition package_blanks_file : string :=
  "package a;" +:+ Str.NL +:+ Str.NL +:+ Str.NL +:+ "import x.Y;" +:+ Str.NL
    +:+ "class A" +:+ Str.NL.

(** The characters of a file with CR LF line endings. *)
Definition crlf_file : string :=
  "import a.B;" +:+ String Char.cr Str.NL +:+ "class A {}" +:+ String Char.cr Str.NL.

(** A disk on which [app/A.kt] is a link to [app/notes.txt]. *)
Definition linked_disk : Disk.disk :=
  {| Disk.names := {[ "app/A.kt" := 0; "app/notes.txt" := 0; "app/todo.txt" := 1 ]};
     Disk.files := {[ 0 := Disk.Text ("import b.B" +:+ Str.NL +:+ "import a.A" +:+ Str.NL) true;
                      1 := Disk.Text ("import b.B" +:+ Str.NL +:+ "import a.A" +:+ Str.NL) true ]} |}.

(** A disk with a file that is not valid UTF-8 and, after it in the walk, a
    file with imports out of order. *)
Definition undecodable_disk : Disk.disk :=
  {| Disk.names := {[ "app/A.java" := 0; "app/B.java" := 1 ]};
     Disk.files := {[ 0 := Disk.Unreadable;
                      1 := Disk.Text ("import b.B;" +:+ Str.NL +:+ "import a.A;" +:+ Str.NL) true ]} |}.

(** A disk with a file with CR LF line endings and a file without import. *)
Definition crlf_disk : Disk.disk :=
  {| Disk.names := {[ "app/A.kt" := 0; "app/b/B.java" := 1 ]};
     Disk.files := {[ 0 := Disk.Text crlf_file true;
                      1 := Disk.Text ("class B {}" +:+ String Char.cr Str.NL) false ]} |}.

(** * Properties *)

(** ** The model on small inputs *)

(** [IMPORT_RE.match("import a.b.C;").groups()] is
    [("import", "a.b.C", ";")]. *)
Example import_re_plain :
  re_match IMPORT_RE "import a.b.C;" = Some {[ 1 := "import"; 2 := "a.b.C"; 3 := ";" ]}.
Proof. vm_compute. reflexivity. Qed.

(** [IMPORT_RE.match("import static").groups()] is
    [("import", "static", None)]: the first alternative is given up. *)
Example import_re_backtrack :
  re_match IMPORT_RE "import static" = Some {[ 1 := "import"; 2 := "static" ]}.
Proof. vm_compute. reflexivity. Qed.

(** Scenario 1 of the specification. *)
Example scenario1_out :
  process_file "A.java" scenario1 =
  Some ["import static java.util.Map.entry;" +:+ Str.NL; Str.NL;
        "import android.view.View;" +:+ Str.NL; Str.NL;
        "import org.foo.Bar;" +:+ Str.NL; Str.NL].
Proof. vm_compute. reflexivity. Qed.

(** Upper case sorts before lower case: the order is by code points. *)
Example sorted_by_code_points :
  sort_imports [(false, "com.alpha", "import com.alpha;");
                (false, "com.Zeta", "import com.Zeta;")] =
  ["import com.Zeta;"; "import com.alpha;"].
Proof. vm_compute. reflexivity. Qed.

(** ** The order on tuples and [sorted] *)


Lemma string_compare_lt_trans (s t u : string) :
  (s ?= t)%string = Lt → (t ?= u)%string = Lt → (s ?= u)%string = Lt.
Proof.
  revert t u. induction s as [|a s IH]; intros [|b t] [|c u] H1 H2;
    simplify_eq/=; [done|].
  destruct (Ascii.compare a b) eqn:Hab; simplify_eq/=.
  - apply Ascii.compare_eq_iff in Hab as ->.
    destruct (Ascii.compare b c); simplify_eq/=; eauto.
  - destruct (Ascii.compare b c) eqn:Hbc; simplify_eq/=.
    + apply Ascii.compare_eq_iff in Hbc as ->. by rewrite Hab.
    + assert (Ascii.compare a c = Lt) as ->; [|done].
      apply N.compare_lt_iff. etrans; by apply N.compare_lt_iff.
Qed.

Global Instance tuple_le_total : Total tuple_le.
Proof.
  intros [p1 l1] [p2 l2]. unfold tuple_le, tuple_leb; simpl.
  rewrite (String.compare_antisym p1 p2).
  destruct (p2 ?= p1)%string; simpl; auto using String.leb_total.
Qed.

Global Instance tuple_le_trans : Transitive tuple_le.
Proof.
  intros [p1 l1] [p2 l2] [p3 l3]. unfold tuple_le, tuple_leb; simpl.
  destruct (p1 ?= p2)%string eqn:H12; [|..|done].
  - apply String.compare_eq_iff in H12 as ->.
    destruct (p2 ?= p3)%string; [|done..].
    intros Ha Hb. apply Is_true_true. apply Is_true_true in Ha, Hb.
    by etrans.
  - destruct (p2 ?= p3)%string eqn:H23; [|..|done].
    + apply String.compare_eq_iff in H23 as ->. by rewrite H12.
    + by rewrite (string_compare_lt_trans _ _ _ H12 H23).
Qed.

Global Instance tuple_le_antisym : AntiSymm (=) tuple_le.
Proof.
  intros [p1 l1] [p2 l2]. unfold tuple_le, tuple_leb; simpl.
  rewrite (String.compare_antisym p2 p1).
  destruct (p1 ?= p2)%string eqn:H12; simpl; try done.
  apply String.compare_eq_iff in H12 as ->.
  intros Ha Hb. f_equal. by apply String.leb_antisym.
Qed.

Lemma sorted_Permutation (l : list (string * string)) : sorted l ≡ₚ l.
Proof. apply merge_sort_Permutation. Qed.

Lemma sorted_Sorted (l : list (string * string)) : Sorted tuple_le (sorted l).
Proof. apply (Sorted_merge_sort tuple_le). Qed.

(** Any sorted rearrangement of [l] is the list [sorted l] returns. *)
Lemma sorted_unique (l l' : list (string * string)) :
  l' ≡ₚ l → Sorted tuple_le l' → l' = sorted l.
Proof.
  intros Hp Hs. apply (Sorted_unique tuple_le); [done|apply sorted_Sorted|].
  by rewrite sorted_Permutation.
Qed.

Lemma sorted_perm (l l' : list (string * string)) : l ≡ₚ l' → sorted l = sorted l'.
Proof.
  intros Hp. apply sorted_unique; [|apply sorted_Sorted].
  by rewrite sorted_Permutation.
Qed.

Lemma sorted_nil_inv (l : list (string * string)) : sorted l = [] → l = [].
Proof.
  intros H. apply Permutation_nil_r. rewrite <- H. symmetry. apply sorted_Permutation.
Qed.


(** ** Grouping *)

Lemma group_step_key groups imp :
  group_step groups imp = groups_append (bucket_key imp) (item_of imp) groups.
Proof. destruct imp as [[[] path] line]; reflexivity. Qed.

Lemma find_order_group_in top order :
  find_order_group top order ∈ order ++ ["zzz_other"].
Proof.
  induction order as [|g order IH]; simpl; [apply list_elem_of_here|].
  destruct (String.eqb_spec top g);
    [apply list_elem_of_here|by apply list_elem_of_further].
Qed.

Lemma find_order_group_hit top order :
  top ∈ order → find_order_group top order = top.
Proof.
  induction order as [|g order IH]; simpl; [by intros ?%elem_of_nil|].
  destruct (String.eqb_spec top g) as [->|Hne]; [done|].
  intros [?|?]%elem_of_cons; [done|auto].
Qed.

Lemma find_order_group_miss top order :
  top ∉ order → find_order_group top order = "zzz_other".
Proof.
  induction order as [|g order IH]; simpl; [done|].
  destruct (String.eqb_spec top g) as [->|Hne].
  - intros []. apply list_elem_of_here.
  - intros Hn. apply IH. intros ?. apply Hn. by apply list_elem_of_further.
Qed.

Lemma bucket_key_in_order imp : bucket_key imp ∈ group_order.
Proof.
  unfold bucket_key. destruct imp.1.1; [|apply find_order_group_in].
  apply list_elem_of_here.
Qed.

Lemma groups_append_lookup key item groups g :
  default [] (groups_append key item groups !! g) =
  default [] (groups !! g) ++ (if decide (key = g) then [item] else []).
Proof.
  unfold groups_append. case_decide as Hk.
  - subst. by rewrite lookup_insert_eq.
  - rewrite lookup_insert_ne by done. by rewrite app_nil_r.
Qed.

Lemma members_cons key imports imp :
  members key (imp :: imports) =
  (if decide (bucket_key imp = key) then [item_of imp] else []) ++ members key imports.
Proof. unfold members. rewrite filter_cons. by case_decide. Qed.

(** After the grouping loop, [groups[key]] holds the imports with that key
    in input order, and keys without imports are absent or empty. *)
Lemma groups_lookup imports groups g :
  default [] (foldl group_step groups imports !! g) =
  default [] (groups !! g) ++ members g imports.
Proof.
  revert groups. induction imports as [|imp imports IH]; intros groups; simpl.
  - unfold members. by rewrite filter_nil, app_nil_r.
  - rewrite IH, group_step_key, groups_append_lookup, members_cons.
    by rewrite <- app_assoc.
Qed.

(** ** The emitted block *)

Lemma emit_group_eq groups ordered g :
  emit_group groups ordered g = ordered ++ emitted_for (default [] (groups !! g)).
Proof.
  unfold emit_group, emitted_for.
  destruct (groups !! g) as [[|item items]|]; simpl; by rewrite ?app_nil_r.
Qed.

Lemma foldl_emit_group groups ordered keys :
  foldl (emit_group groups) ordered keys =
  ordered ++ mjoin ((λ g, emitted_for (default [] (groups !! g))) <$> keys).
Proof.
  revert ordered. induction keys as [|g keys IH]; intros ordered; simpl.
  - by rewrite app_nil_r.
  - by rewrite IH, emit_group_eq, <- app_assoc.
Qed.

Lemma sort_imports_unfold imports :
  sort_imports imports =
  pop_blanks (mjoin ((λ g, emitted_for (members g imports)) <$> group_order)).
Proof.
  assert (Hg : ∀ g, default [] (foldl group_step ∅ imports !! g) = members g imports).
  { intros g. rewrite groups_lookup. by rewrite lookup_empty. }
  unfold sort_imports. rewrite emit_group_eq, foldl_emit_group, app_nil_l, Hg.
  unfold group_order. rewrite fmap_app, join_app. f_equal. f_equal; [f_equal|].
  - apply list_fmap_ext. intros. by rewrite Hg.
  - simpl. by rewrite app_nil_r.
Qed.

(** ** Blank lines *)

Lemma pop_blanks_app (l1 l2 : list string) :
  pop_blanks (l1 ++ l2) =
  match pop_blanks l2 with [] => pop_blanks l1 | kept => l1 ++ kept end.
Proof.
  induction l1 as [|x l1 IH]; simpl; [by destruct (pop_blanks l2)|].
  rewrite IH. destruct (pop_blanks l2) eqn:E2; [done|].
  by destruct l1.
Qed.

Lemma pop_blanks_snoc (l : list string) (x : string) :
  x ≠ EmptyString → pop_blanks (l ++ [x]) = l ++ [x].
Proof.
  intros Hx. rewrite pop_blanks_app. simpl.
  by destruct (String.eqb_spec x EmptyString).
Qed.

Lemma filter_pop_blanks (l : list string) :
  filter (λ s, s ≠ EmptyString) (pop_blanks l) = filter (λ s, s ≠ EmptyString) l.
Proof.
  induction l as [|x l IH]; simpl; [done|].
  destruct (pop_blanks l) as [|y kept] eqn:E.
  - rewrite filter_cons, <- IH, filter_nil.
    destruct (String.eqb_spec x EmptyString) as [->|Hne].
    + by rewrite decide_False by naive_solver.
    + rewrite decide_True by done. by rewrite filter_cons, decide_True.
  - rewrite (filter_cons _ x (y :: kept)), (filter_cons _ x l). by rewrite IH.
Qed.

Lemma filter_nonblank_id (l : list string) :
  Forall (λ s, s ≠ EmptyString) l → filter (λ s, s ≠ EmptyString) l = l.
Proof.
  induction 1 as [|x l Hx _ IH]; [done|].
  by rewrite filter_cons, decide_True, IH.
Qed.

(** ** The emitted imports, tagged with their keys *)

Lemma members_lines_nonblank g imports :
  nonblank imports → Forall (λ s, s ≠ EmptyString) (snd <$> sorted (members g imports)).
Proof.
  intros Hnb. apply Forall_fmap. rewrite sorted_Permutation.
  unfold members. apply Forall_fmap. apply Forall_forall.
  intros imp [_ Hin]%list_elem_of_filter.
  by apply (proj1 (Forall_forall _ _) Hnb).
Qed.

Lemma filter_emitted_for g imports :
  nonblank imports →
  filter (λ s, s ≠ EmptyString) (emitted_for (members g imports)) =
  snd <$> sorted (members g imports).
Proof.
  intros Hnb. unfold emitted_for. destruct (members g imports) as [|it its] eqn:E.
  - done.
  - rewrite filter_app, filter_cons, decide_False, filter_nil, app_nil_r by naive_solver.
    rewrite <- E. apply filter_nonblank_id. by apply members_lines_nonblank.
Qed.

Lemma filter_join {A} (P : A → Prop) `{∀ x, Decision (P x)} (ls : list (list A)) :
  filter P (mjoin ls) = mjoin (filter P <$> ls).
Proof.
  induction ls as [|l ls IH]; [done|]. simpl. by rewrite filter_app, IH.
Qed.

Lemma fmap_join {A B} (f : A → B) (ls : list (list A)) :
  f <$> mjoin ls = mjoin (fmap f <$> ls).
Proof.
  induction ls as [|l ls IH]; [done|]. simpl. by rewrite fmap_app, IH.
Qed.

(** The non-blank lines of the output are the lines of [emitted]. *)
Lemma emitted_lines imports :
  nonblank imports →
  (λ e, e.2.2) <$> emitted imports =
  filter (λ s, s ≠ EmptyString) (sort_imports imports).
Proof.
  intros Hnb. rewrite sort_imports_unfold, filter_pop_blanks, filter_join.
  unfold emitted. rewrite fmap_join, <- !list_fmap_compose. f_equal.
  apply list_fmap_ext. intros _ g _. simpl.
  rewrite filter_emitted_for by done. by rewrite <- list_fmap_compose.
Qed.

(** Cutting a list by a key that ranges over [keys] rearranges it. *)
Lemma partition_by_key {A} (key : A → string) (keys : list string) (l : list A) :
  NoDup keys → Forall (λ x, key x ∈ keys) l →
  mjoin ((λ k, filter (λ x, key x = k) l) <$> keys) ≡ₚ l.
Proof.
  intros Hnd. induction 1 as [|x l Hx _ IH].
  - induction keys as [|k keys IHk]; [done|]. simpl.
    apply IHk. by apply NoDup_cons in Hnd as [_ ?].
  - trans (x :: mjoin ((λ k, filter (λ y, key y = k) l) <$> keys)); [|by f_equiv].
    clear IH.
    induction Hnd as [|k keys Hk Hnd IHk]; [by apply elem_of_nil in Hx|].
    csimpl. rewrite filter_cons. case_decide as Hkx.
    + csimpl. f_equiv. f_equiv.
      assert ((λ k', filter (λ y, key y = k') (x :: l)) <$> keys =
              (λ k', filter (λ y, key y = k') l) <$> keys) as ->; [|done].
      apply list_fmap_ext. intros _ k' Hk'%list_elem_of_lookup_2.
      rewrite filter_cons, decide_False; [done|]. congruence.
    + apply elem_of_cons in Hx as [?|Hx]; [done|].
      rewrite (IHk Hx). by rewrite Permutation_middle.
Qed.

Lemma group_order_NoDup : NoDup group_order.
Proof. apply (bool_decide_unpack _). by vm_compute. Qed.

Lemma tag_members g imports :
  (λ item, (g, item)) <$> members g imports =
  (λ imp, (bucket_key imp, item_of imp)) <$> filter (λ imp, bucket_key imp = g) imports.
Proof.
  unfold members. rewrite <- list_fmap_compose. apply list_fmap_ext.
  intros i imp Hin%list_elem_of_lookup_2.
  apply list_elem_of_filter in Hin as [<- _]. done.
Qed.

(** [emitted] holds every import once, under its own key. *)
Lemma emitted_Permutation imports :
  emitted imports ≡ₚ (λ imp, (bucket_key imp, item_of imp)) <$> imports.
Proof.
  rewrite <- (partition_by_key bucket_key group_order imports) at 2;
    [|apply group_order_NoDup|apply Forall_forall; intros; apply bucket_key_in_order].
  unfold emitted. rewrite fmap_join, <- list_fmap_compose.
  induction group_order as [|g gs IH]; [done|]. csimpl. rewrite IH. f_equiv.
  rewrite sorted_Permutation. by rewrite tag_members.
Qed.

(** ** Order of the emitted imports *)

Lemma StronglySorted_lookup_lt {A} (R : relation A) (l : list A) i j x y :
  StronglySorted R l → i < j → l !! i = Some x → l !! j = Some y → R x y.
Proof.
  intros Hs. revert i j. induction Hs as [|z l Hs IH Hz]; intros i j Hij Hi Hj.
  - by rewrite lookup_nil in Hi.
  - destruct j as [|j]; [lia|]. destruct i as [|i]; simplify_eq/=.
    + apply (proj1 (Forall_forall _ _) Hz). by apply list_elem_of_lookup_2 in Hj.
    + apply (IH i j); [lia|done..].
Qed.

Lemma index_of_lookup (keys : list string) i k :
  NoDup keys → keys !! i = Some k → index_of k keys = i.
Proof.
  intros Hnd. revert i. induction Hnd as [|k' keys Hk' Hnd IH]; intros i Hi.
  - by rewrite lookup_nil in Hi.
  - destruct i as [|i]; simplify_eq/=.
    + by rewrite String.eqb_refl.
    + destruct (String.eqb_spec k k') as [->|Hne].
      * destruct Hk'. by apply list_elem_of_lookup_2 in Hi.
      * f_equal. by apply IH.
Qed.

(** Blocks that are sorted, laid out under keys that are in order, form a
    sorted list. *)
Lemma tagged_join_sorted (R : relation (string * (string * string)))
    (keys : list string) (f : string → list (string * string)) :
  (∀ k, StronglySorted R ((λ item, (k, item)) <$> f k)) →
  (∀ i j k1 k2 x y, i < j → keys !! i = Some k1 → keys !! j = Some k2 →
                    R (k1, x) (k2, y)) →
  StronglySorted R (mjoin ((λ k, (λ item, (k, item)) <$> f k) <$> keys)).
Proof.
  intros Hblock. induction keys as [|k keys IH]; intros Hkeys; csimpl; [constructor|].
  apply StronglySorted_app_2.
  - intros e1 e2 (a & -> & _)%list_elem_of_fmap (b & Hb & Hbs)%list_elem_of_join.
    apply list_elem_of_fmap in Hbs as (k2 & -> & Hk2).
    apply list_elem_of_fmap in Hb as (c & -> & _).
    apply list_elem_of_lookup_1 in Hk2 as [j Hj].
    by apply (Hkeys 0 (S j)); [lia|..].
  - apply Hblock.
  - apply IH. intros i j k1 k2 x y Hij Hi Hj. apply (Hkeys (S i) (S j)); [lia|done..].
Qed.

Lemma emitted_by_priority imports :
  StronglySorted (λ e1 e2, priority e1.1 ≤ priority e2.1) (emitted imports).
Proof.
  apply (tagged_join_sorted _ group_order (λ g, sorted (members g imports))).
  - intros k. induction (sorted (members k imports)) as [|a l IH]; csimpl; constructor; [done|].
    apply Forall_fmap, Forall_forall. intros; simpl. done.
  - intros i j k1 k2 x y Hij Hi Hj. simpl. unfold priority.
    rewrite (index_of_lookup _ _ _ group_order_NoDup Hi).
    rewrite (index_of_lookup _ _ _ group_order_NoDup Hj). lia.
Qed.

Lemma emitted_by_path imports :
  StronglySorted (λ e1 e2, e1.1 = e2.1 → tuple_le e1.2 e2.2) (emitted imports).
Proof.
  apply (tagged_join_sorted _ group_order (λ g, sorted (members g imports))).
  - intros k. apply (StronglySorted_fmap _ tuple_le).
    + intros a b Hab _. exact Hab.
    + apply Sorted_StronglySorted; [apply _|apply sorted_Sorted].
  - intros i j k1 k2 x y Hij Hi Hj Heq. simpl in Heq. subst k2.
    pose proof (NoDup_lookup _ _ _ _ group_order_NoDup Hi Hj). lia.
Qed.

Lemma fmap_Permutation_inv {A B} (f : A → B) (l : list A) (k : list B) :
  k ≡ₚ f <$> l → ∃ l', k = f <$> l' ∧ l' ≡ₚ l.
Proof.
  intros Hk. change (f <$> l) with (map f l) in Hk.
  apply Permutation_map_inv in Hk as (l' & -> & Hl). exists l'. split; [done|].
  by symmetry.
Qed.

(** The position of a bucket of the code in [group_order] is the priority
    of the group of its imports. *)
Lemma priority_group_of (imp : import) :
  priority (bucket_key imp) = spec_priority (group_of imp).
Proof.
  destruct imp as [[is_static path] line]. unfold bucket_key, group_of. cbn [fst snd].
  destruct is_static; [done|]. cbn [orb].
  set (top := Str.split_dot_head path).
  destruct (decide (top ∈ IMPORT_ORDER)) as [Hin|Hin].
  - rewrite (find_order_group_hit _ _ Hin). unfold IMPORT_ORDER in Hin.
    repeat (apply elem_of_cons in Hin as [->|Hin]; [done|]). by apply elem_of_nil in Hin.
  - rewrite (find_order_group_miss _ _ Hin).
    destruct (String.eqb_spec top "static") as [E|_].
    { destruct Hin. rewrite E. apply list_elem_of_here. }
    rewrite bool_decide_false; [done|].
    intros Hk. apply Hin. by apply list_elem_of_further.
Qed.

(** C3, as stated, fails: in a Kotlin file the import [import static.Foo]
    is not static and its first segment is no known prefix, so it belongs
    to the catch-all group of the specification; its line comes out before
    the line of [import android.A], whose group has a smaller priority
    index. *)
Lemma group_order_static_package :
  imports (scan_lines "A.kt" scan_init 0 static_package_file) =
    [(false, "android.A", "import android.A");
     (false, "static.Foo", "import static.Foo")] ∧
  sort_imports [(false, "android.A", "import android.A");
                (false, "static.Foo", "import static.Foo")] =
    ["import static.Foo"; EmptyString; "import android.A"] ∧
  spec_group (false, "static.Foo", "import static.Foo") = "other" ∧
  spec_group (false, "android.A", "import android.A") = "android" ∧
  ¬ spec_priority "other" ≤ spec_priority "android".
Proof.
  split; [by vm_compute|]. split; [by vm_compute|].
  split; [by vm_compute|]. split; [by vm_compute|].
  vm_compute. lia.
Qed.

(** C3, amended.  In every output of [sort_imports] the groups come in the
    fixed priority order: [static], then [android], [androidx], [com],
    [net], [org], [kotlin], [kotlinx], [java], [javax], then the catch-all
    group, where the group [static] holds the static imports and the
    imports whose first segment is the word [static].  The non-blank output
    lines are the lines of a rearrangement of the imports, and whenever one
    import precedes another in it, the priority index of its group is at
    most that of the other's. *)
Theorem sort_imports_group_order (imports : list import) :
  nonblank imports →
  ∃ order : list import,
    (λ imp : import, imp.2) <$> order
      = filter (λ s, s ≠ EmptyString) (sort_imports imports) ∧
    order ≡ₚ imports ∧
    ∀ i j imp1 imp2, i < j → order !! i = Some imp1 → order !! j = Some imp2 →
                     spec_priority (group_of imp1) ≤ spec_priority (group_of imp2).
Proof.
  intros Hnb.
  destruct (fmap_Permutation_inv _ _ _ (emitted_Permutation imports)) as (order & He & Hp).
  exists order. split; [|split; [done|]].
  - rewrite <- (emitted_lines imports Hnb), He, <- list_fmap_compose.
    apply list_fmap_ext. by intros _ [[??]?] _.
  - intros i j imp1 imp2 Hij Hi Hj. rewrite <- !priority_group_of.
    apply (StronglySorted_lookup_lt _ _ i j
             (bucket_key imp1, item_of imp1) (bucket_key imp2, item_of imp2)
             (emitted_by_priority imports) Hij); rewrite He, list_lookup_fmap.
    + by rewrite Hi.
    + by rewrite Hj.
Qed.

Lemma scenario1_nonblank : nonblank scenario1_imports.
Proof. repeat constructor; discriminate. Defined.

Lemma mixed_nonblank : nonblank mixed_imports.
Proof. repeat constructor; discriminate. Defined.

Lemma sort_imports_group_order_witness :
  nonblank mixed_imports ∧
  sort_imports mixed_imports =
    ["import static android.R.id;"; "import static.Foo;"; EmptyString;
     "import org.foo.Bar;"; EmptyString; "import java.util.List;"; EmptyString;
     "import foo.Baz;"] ∧
  ∃ order : list import,
    (λ imp : import, imp.2) <$> order
      = filter (λ s, s ≠ EmptyString) (sort_imports mixed_imports) ∧
    order ≡ₚ mixed_imports ∧
    ∀ i j imp1 imp2, i < j → order !! i = Some imp1 → order !! j = Some imp2 →
                     spec_priority (group_of imp1) ≤ spec_priority (group_of imp2).
Proof.
  split; [exact mixed_nonblank|]. split; [by vm_compute|].
  exact (sort_imports_group_order mixed_imports mixed_nonblank).
Defined.



(** ** Separators *)

Lemma no_double_blank_lookup (l : list string) i :
  no_double_blank l → l !! i = Some EmptyString → l !! S i ≠ Some EmptyString.
Proof.
  revert i. induction l as [|x [|y l] IH]; intros i Hnd Hi; [done| |].
  - by destruct i.
  - destruct Hnd as [Hxy Hnd]. destruct i as [|i]; simplify_eq/=.
    + intros [=->]. by apply Hxy.
    + by apply IH.
Qed.

Lemma no_double_blank_app (b l : list string) :
  Forall (λ s, s ≠ EmptyString) b → no_double_blank l → no_double_blank (b ++ l).
Proof.
  induction 1 as [|x b Hx Hb IH]; intros Hl; [done|].
  specialize (IH Hl). simpl. destruct (b ++ l); [done|]. by split.
Qed.

Lemma solid_head (b : list string) : solid b → head b ≠ Some EmptyString.
Proof. intros [Hne Hb]. destruct Hb as [|x b Hx _]; [done|]. simpl. congruence. Qed.

Lemma solid_last (b : list string) : solid b → ∃ b' x, b = b' ++ [x] ∧ x ≠ EmptyString.
Proof.
  intros [Hne Hb]. destruct (last b) as [x|] eqn:E.
  - apply last_Some in E as [b' ->]. exists b', x. split; [done|].
    apply Forall_app in Hb as [_ Hx]. by inversion Hx.
  - by apply last_None in E.
Qed.

Lemma join_blocks_head b rest :
  solid b → head (join_blocks (b :: rest)) = head b.
Proof.
  intros [Hne _]. simpl. destruct rest; [done|]. by destruct b.
Qed.

Lemma join_blocks_nil_inv blocks :
  Forall solid blocks → join_blocks blocks = [] → blocks = [].
Proof.
  intros Hs. destruct Hs as [|b rest [Hb _] _]; [done|]. simpl.
  destruct rest; [done|]. by destruct b.
Qed.

Lemma join_blocks_no_double_blank blocks :
  Forall solid blocks → no_double_blank (join_blocks blocks).
Proof.
  induction 1 as [|b rest Hb Hrest IH]; [done|].
  destruct rest as [|r rest].
  - simpl. rewrite <- (app_nil_r b). apply no_double_blank_app; [apply Hb|done].
  - change (no_double_blank (b ++ EmptyString :: join_blocks (r :: rest))).
    apply no_double_blank_app; [apply Hb|].
    apply Forall_cons in Hrest as [Hr _].
    pose proof (solid_head _ Hr) as Hh. rewrite <- (join_blocks_head r rest Hr) in Hh.
    simpl in *. destruct (match rest with [] => r | _ :: _ => _ end) eqn:E; [done|].
    split; [|done]. intros _ ->. by apply Hh.
Qed.

Lemma join_blocks_last blocks :
  Forall solid blocks → last (join_blocks blocks) ≠ Some EmptyString.
Proof.
  induction 1 as [|b rest Hb Hrest IH]; [done|].
  destruct rest as [|r rest].
  - simpl. destruct (solid_last _ Hb) as (b' & x & -> & Hx).
    rewrite last_snoc. congruence.
  - change (last (b ++ EmptyString :: join_blocks (r :: rest)) ≠ Some EmptyString).
    rewrite last_app. rewrite last_cons.
    destruct (last (join_blocks (r :: rest))) eqn:E; [done|].
    apply last_None, join_blocks_nil_inv in E; done.
Qed.

Lemma pop_blanks_join blocks :
  Forall solid blocks →
  pop_blanks (mjoin ((λ b, b ++ [EmptyString]) <$> blocks)) = join_blocks blocks.
Proof.
  induction 1 as [|b rest Hb Hrest IH]; [done|].
  csimpl. rewrite pop_blanks_app, IH.
  destruct rest as [|r rest].
  - simpl. rewrite pop_blanks_app. simpl.
    destruct (solid_last _ Hb) as (b' & x & -> & Hx). by apply pop_blanks_snoc.
  - destruct (join_blocks (r :: rest)) eqn:E.
    + by apply join_blocks_nil_inv in E.
    + rewrite <- E. simpl. by rewrite <- app_assoc.
Qed.

Lemma emitted_for_blocks imports keys :
  mjoin ((λ g, emitted_for (members g imports)) <$> keys) =
  mjoin ((λ b, b ++ [EmptyString]) <$>
         ((λ g, snd <$> sorted (members g imports)) <$>
          filter (λ g, members g imports ≠ []) keys)).
Proof.
  induction keys as [|g keys IH]; [done|].
  csimpl. rewrite filter_cons, IH. case_decide as Hg.
  - csimpl. f_equal. unfold emitted_for. by destruct (members g imports).
  - by rewrite Hg.
Qed.

Lemma block_solid g imports :
  nonblank imports → members g imports ≠ [] →
  solid (snd <$> sorted (members g imports)).
Proof.
  intros Hnb Hne. split; [|by apply members_lines_nonblank].
  intros [=H%fmap_nil_inv%sorted_nil_inv]. done.
Qed.

(** The output is the blocks of the non-empty groups, in key order, with
    one blank line between neighbours. *)
Lemma sort_imports_blocks imports :
  nonblank imports →
  sort_imports imports =
  join_blocks ((λ g, snd <$> sorted (members g imports)) <$>
               filter (λ g, members g imports ≠ []) group_order).
Proof.
  intros Hnb. rewrite sort_imports_unfold, emitted_for_blocks.
  apply pop_blanks_join. apply Forall_fmap, Forall_forall.
  intros g [Hg _]%list_elem_of_filter. by apply block_solid.
Qed.

(** C6. In the block [sort_imports] returns, the lines of the non-empty
    groups are laid out group after group with exactly one blank line
    between neighbouring groups; an empty group contributes neither lines
    nor a separator; no two consecutive lines are blank, and the last line
    is not blank. *)
Theorem sort_imports_blank_lines (imports : list import) :
  nonblank imports →
  ∃ blocks : list (string * list string),
    sort_imports imports = join_blocks (snd <$> blocks) ∧
    fst <$> blocks = filter (λ g, members g imports ≠ []) group_order ∧
    (∀ g b, (g, b) ∈ blocks →
            b ≠ [] ∧ (EmptyString ∉ b) ∧ b ≡ₚ (snd <$> members g imports)) ∧
    (∀ i, sort_imports imports !! i = Some EmptyString →
          sort_imports imports !! S i ≠ Some EmptyString) ∧
    last (sort_imports imports) ≠ Some EmptyString.
Proof.
  intros Hnb.
  set (keys := filter (λ g, members g imports ≠ []) group_order).
  assert (Hsolid : Forall solid ((λ g, snd <$> sorted (members g imports)) <$> keys)).
  { apply Forall_fmap, Forall_forall.
    intros g [Hg _]%list_elem_of_filter. by apply block_solid. }
  exists ((λ g, (g, snd <$> sorted (members g imports))) <$> keys).
  rewrite <- !list_fmap_compose.
  split; [by apply sort_imports_blocks|].
  split; [apply list_fmap_id|].
  split; [|split].
  - intros g b (g' & [= -> ->] & Hg)%list_elem_of_fmap.
    apply list_elem_of_filter in Hg as [Hg _].
    destruct (block_solid g' imports Hnb Hg) as [Hne Hall].
    split; [done|]. split.
    + intros Hin. by apply (proj1 (Forall_forall _ _) Hall) in Hin.
    + by rewrite sorted_Permutation.
  - intros i. rewrite sort_imports_blocks by done.
    apply no_double_blank_lookup. by apply join_blocks_no_double_blank.
  - rewrite sort_imports_blocks by done. by apply join_blocks_last.
Qed.

Lemma sort_imports_blank_lines_witness :
  nonblank scenario1_imports ∧
  sort_imports scenario1_imports =
    ["import static java.util.Map.entry;"; EmptyString;
     "import android.view.View;"; EmptyString; "import org.foo.Bar;"] ∧
  ∃ blocks : list (string * list string),
    sort_imports scenario1_imports = join_blocks (snd <$> blocks) ∧
    fst <$> blocks = filter (λ g, members g scenario1_imports ≠ []) group_order ∧
    (∀ g b, (g, b) ∈ blocks →
            b ≠ [] ∧ (EmptyString ∉ b) ∧ b ≡ₚ (snd <$> members g scenario1_imports)) ∧
    (∀ i, sort_imports scenario1_imports !! i = Some EmptyString →
          sort_imports scenario1_imports !! S i ≠ Some EmptyString) ∧
    last (sort_imports scenario1_imports) ≠ Some EmptyString.
Proof.
  split; [exact scenario1_nonblank|]. split; [by vm_compute|].
  exact (sort_imports_blank_lines scenario1_imports scenario1_nonblank).
Defined.

(** ** Group assignment *)

(** C5, as stated, fails: the import [import static.Foo] of a Kotlin file is
    not static and its first segment [static] is no known prefix, yet both
    the grouping loop and [get_import_group] put it in the group [static],
    not in the catch-all group. *)
Lemma group_assignment_static_package :
  imports (scan_lines "A.kt" scan_init 0 ["import static.Foo" +:+ Str.NL]) =
    [(false, "static.Foo", "import static.Foo")] ∧
  (Str.split_dot_head "static.Foo" ∉ known_prefixes) ∧
  group_step ∅ (false, "static.Foo", "import static.Foo") =
    {[ "static" := [("static.Foo", "import static.Foo")] ]} ∧
  get_import_group "static.Foo" false = "static".
Proof.
  split; [by vm_compute|]. split; [|split; by vm_compute].
  apply (bool_decide_unpack _). by vm_compute.
Qed.

(** C5, amended.  The group of an import is a function of [(is_static,
    path)]: a static import goes to [static]; any other import whose first
    dot-separated segment is an entry of [IMPORT_ORDER] (a known prefix, or
    the word [static] itself) goes to the group named by that segment; every
    other import goes to the catch-all group.  The key is one of [static],
    the known prefixes and [zzz_other], and [get_import_group] names the same
    group, with the path appended in the catch-all case. *)
Theorem group_assignment (groups : gmap string (list (string * string)))
    (is_static : bool) (path line : string) :
  let top := Str.split_dot_head path in
  let key :=
    if is_static then "static"
    else if bool_decide (top ∈ "static" :: known_prefixes) then top
    else "zzz_other" in
  group_step groups (is_static, path, line) = groups_append key (path, line) groups ∧
  key ∈ "static" :: known_prefixes ++ ["zzz_other"] ∧
  get_import_group path is_static =
    (if String.eqb key "zzz_other" then "zzz_other." +:+ path else key).
Proof.
  intros top key. change ("static" :: known_prefixes) with IMPORT_ORDER in *.
  assert (Hkey : key = bucket_key (is_static, path, line)).
  { unfold key, bucket_key, top. cbn [fst snd]. destruct is_static; [done|].
    case_bool_decide as Hin.
    - by rewrite find_order_group_hit.
    - by rewrite find_order_group_miss. }
  split; [by rewrite group_step_key, Hkey|].
  split; [rewrite Hkey; apply bucket_key_in_order|].
  unfold get_import_group, key. fold top. destruct is_static; [done|].
  case_bool_decide as Hin.
  - destruct (String.eqb_spec top "zzz_other") as [E|_]; [|done].
    rewrite E in Hin. apply (bool_decide_pack _) in Hin. by vm_compute in Hin.
  - done.
Qed.

(** ** Strings *)

Lemma str_app_cons (c : ascii) (s t : string) : String c s +:+ t = String c (s +:+ t).
Proof. reflexivity. Qed.

Lemma str_app_nil_l (t : string) : EmptyString +:+ t = t.
Proof. reflexivity. Qed.

Lemma str_app_nil_r (s : string) : s +:+ EmptyString = s.
Proof. induction s as [|c s IH]; [done|]. by rewrite str_app_cons, IH. Qed.

Lemma str_app_assoc (s t u : string) : (s +:+ t) +:+ u = s +:+ (t +:+ u).
Proof. induction s as [|c s IH]; [done|]. by rewrite !str_app_cons, IH. Qed.

Lemma str_app_nil_inv (s t : string) : s +:+ t = EmptyString → s = EmptyString ∧ t = EmptyString.
Proof. destruct s; [done|]. by rewrite str_app_cons. Qed.

Lemma last_char_app (s t : string) :
  t ≠ EmptyString → last_char (s +:+ t) = last_char t.
Proof.
  intros Ht. induction s as [|c s IH]; [done|].
  rewrite str_app_cons. simpl. destruct (s +:+ t) eqn:E; [|done].
  by apply str_app_nil_inv in E as [_ ?].
Qed.

Lemma endswith_app (p b : string) : Str.endswith p (b +:+ p) = true.
Proof.
  induction b as [|c b IH].
  - rewrite str_app_nil_l. destruct p; cbn [Str.endswith]; by rewrite String.eqb_refl.
  - rewrite str_app_cons. cbn [Str.endswith]. rewrite IH. by rewrite orb_true_r.
Qed.

Lemma endswith_inv (p s : string) :
  Str.endswith p s = true → ∃ b, s = b +:+ p.
Proof.
  induction s as [|c s IH]; cbn [Str.endswith].
  - rewrite orb_false_r. intros ->%String.eqb_eq. by exists EmptyString.
  - intros [->%String.eqb_eq|H]%orb_true_iff; [by exists EmptyString|].
    destruct (IH H) as [b ->]. by exists (String c b).
Qed.

Lemma endswith_last_char (p s : string) :
  p ≠ EmptyString → Str.endswith p s = true → last_char s = last_char p.
Proof. intros Hp [b ->]%endswith_inv. by apply last_char_app. Qed.

Lemma endswith_java_java (base : string) : Str.endswith ".java" (base +:+ ".java") = true.
Proof. apply endswith_app. Qed.

Lemma endswith_java_kt (base : string) : Str.endswith ".java" (base +:+ ".kt") = false.
Proof.
  apply not_true_is_false. intros H%endswith_last_char; [|done].
  by rewrite last_char_app in H.
Qed.

(** ** The scanning loop, line by line *)

Lemma scan_step_imports filepath st idx line :
  imports (scan_step filepath st idx line) =
  imports st ++ option_list (parse_import filepath line).
Proof.
  unfold scan_step, parse_import, recognise, render, skipped.
  destruct (negb _ || _); [by rewrite app_nil_r|].
  case_bool_decide; [by rewrite app_nil_r|].
  destruct (re_match IMPORT_RE _); simpl; [done|by rewrite app_nil_r].
Qed.

Lemma scan_step_import_lines filepath st idx line :
  import_lines (scan_step filepath st idx line) =
  import_lines st ++ match recognise line with Some _ => [idx] | None => [] end.
Proof.
  unfold scan_step, recognise, skipped.
  destruct (negb _ || _); [by rewrite app_nil_r|].
  case_bool_decide; [by rewrite app_nil_r|].
  destruct (re_match IMPORT_RE _); simpl; [done|by rewrite app_nil_r].
Qed.

Lemma scan_step_package_idx filepath st idx line :
  package_idx (scan_step filepath st idx line) =
  if is_package_line line then Z.of_nat idx else package_idx st.
Proof.
  unfold scan_step, is_package_line, skipped.
  destruct (negb _ || _); [done|].
  case_bool_decide; [done|].
  by destruct (re_match IMPORT_RE _).
Qed.

Lemma scan_imports filepath st idx lines :
  imports (scan_lines filepath st idx lines) =
  imports st ++ omap (parse_import filepath) lines.
Proof.
  revert st idx. induction lines as [|line lines IH]; intros st idx; simpl.
  - by rewrite app_nil_r.
  - rewrite IH, scan_step_imports, <- app_assoc. f_equal.
    by destruct (parse_import filepath line).
Qed.

Lemma scan_import_lines filepath st idx lines :
  import_lines (scan_lines filepath st idx lines) =
  import_lines st ++ import_indices idx lines.
Proof.
  revert st idx. induction lines as [|line lines IH]; intros st idx; simpl.
  - by rewrite app_nil_r.
  - by rewrite IH, scan_step_import_lines, <- app_assoc.
Qed.

Lemma scan_package_idx filepath st idx lines :
  package_idx (scan_lines filepath st idx lines) =
  last_package idx (package_idx st) lines.
Proof.
  revert st idx. induction lines as [|line lines IH]; intros st idx; simpl; [done|].
  by rewrite IH, scan_step_package_idx.
Qed.

(** ** Statement terminators *)

Lemma recorded_lines (filepath : string) (lines : list string) :
  (λ imp : import, imp.2) <$> omap (parse_import filepath) lines =
  render filepath <$> filter (λ l, is_Some (recognise l)) lines.
Proof.
  induction lines as [|l lines IH]; [done|].
  rewrite filter_cons. cbn [omap list_omap]. unfold parse_import at 1.
  fold (omap (parse_import filepath) lines).
  case_decide as Hrec.
  - destruct Hrec as [sp ->]. csimpl. by rewrite IH.
  - destruct (recognise l) as [sp|]; [by destruct Hrec|]. done.
Qed.

(** C8. In a file whose name ends in [.java], every recognised import line
    that does not end in [;] is recorded with [;] appended, and the others
    as they are (stripped); in a file whose name ends in [.kt] every
    recognised import line is recorded as it is (stripped).  These
    recorded lines are what [sort_imports] groups and sorts. *)
Theorem terminator_rule (base : string) (lines : list string) :
  let recognised := filter (λ l, is_Some (recognise l)) lines in
  (λ imp : import, imp.2) <$> imports (scan_lines (base +:+ ".java") scan_init 0 lines) =
    (λ l, if Str.endswith ";" (Str.strip l) then Str.strip l else Str.strip l +:+ ";")
      <$> recognised ∧
  (λ imp : import, imp.2) <$> imports (scan_lines (base +:+ ".kt") scan_init 0 lines) =
    Str.strip <$> recognised.
Proof.
  intros recognised. rewrite !scan_imports. cbn [imports scan_init app].
  rewrite !recorded_lines. fold recognised. split.
  - apply list_fmap_ext. intros _ l _. unfold render.
    rewrite endswith_java_java. by destruct (Str.endswith ";" (Str.strip l)).
  - apply list_fmap_ext. intros _ l _. unfold render.
    by rewrite endswith_java_kt.
Qed.

(** Scenario 2 of the specification. *)
Example scenario2 :
  process_file "A.java" ["import com.b.X" +:+ Str.NL; "import com.a.Y"] =
  Some ["import com.a.Y;" +:+ Str.NL; "import com.b.X;" +:+ Str.NL; Str.NL].
Proof. by vm_compute. Qed.

(** ** Files without imports *)

Lemma recognise_no_match (l : string) :
  re_match IMPORT_RE (Str.strip l) = None → recognise l = None.
Proof.
  intros H. unfold recognise. destruct (skipped _); [done|].
  case_bool_decide; [done|]. by rewrite H.
Qed.

Lemma omap_parse_import_nil (filepath : string) (lines : list string) :
  Forall (λ l, recognise l = None) lines → omap (parse_import filepath) lines = [].
Proof.
  induction 1 as [|l lines Hl _ IH]; [done|].
  cbn [omap list_omap]. unfold parse_import at 1. by rewrite Hl.
Qed.

(** C7. When no line of a file is an import statement, [process_file]
    returns before writing: the transformation gives back the content it was
    given and the file system is left as it was. *)
Theorem no_imports_no_write (filepath content : string) (fs : gmap string string) :
  Forall (λ l, re_match IMPORT_RE (Str.strip l) = None) (readlines content) →
  fs !! filepath = Some content →
  process_file filepath (readlines content) = None ∧
  transform filepath content = content ∧
  process_file_fs filepath fs = Some fs.
Proof.
  intros Hno Hfs.
  assert (Hp : process_file filepath (readlines content) = None).
  { unfold process_file. rewrite scan_imports. cbn [imports scan_init app].
    rewrite omap_parse_import_nil; [done|].
    eapply Forall_impl; [exact Hno|]. intros l. apply recognise_no_match. }
  split; [done|]. split.
  - unfold transform. by rewrite Hp.
  - unfold process_file_fs. rewrite Hfs. simpl. by rewrite Hp.
Qed.

Lemma no_imports_no_write_witness :
  Forall (λ l, re_match IMPORT_RE (Str.strip l) = None) (readlines no_imports_file) ∧
  ({[ "app/A.java" := no_imports_file ]} : gmap string string) !! "app/A.java"
    = Some no_imports_file ∧
  process_file "app/A.java" (readlines no_imports_file) = None ∧
  transform "app/A.java" no_imports_file = no_imports_file ∧
  process_file_fs "app/A.java" {[ "app/A.java" := no_imports_file ]} =
    Some {[ "app/A.java" := no_imports_file ]}.
Proof.
  assert (H1 : Forall (λ l, re_match IMPORT_RE (Str.strip l) = None)
                 (readlines no_imports_file)).
  { repeat constructor. }
  assert (H2 : ({[ "app/A.java" := no_imports_file ]} : gmap string string)
                 !! "app/A.java" = Some no_imports_file).
  { apply lookup_singleton_eq. }
  split; [exact H1|]. split; [exact H2|].
  exact (no_imports_no_write "app/A.java" no_imports_file _ H1 H2).
Defined.

(** ** Wildcard imports *)

(** Scenario 3 of the specification: a wildcard import is grouped by its
    first segment like any other import. *)
Example scenario3 :
  imports (scan_lines "A.java" scan_init 0 ["import foo.bar.*;" +:+ Str.NL]) =
    [(false, "foo.bar.*", "import foo.bar.*;")] ∧
  star_imports (scan_lines "A.java" scan_init 0 ["import foo.bar.*;" +:+ Str.NL]) =
    [("import foo.bar.*;", 1)] ∧
  bucket_key (false, "foo.bar.*", "import foo.bar.*;") = "zzz_other".
Proof. by vm_compute. Qed.

(** C10.  The list behind the star-import warning is not the list of files
    with a wildcard import: [scan_and_process] lists a file when its text
    contains ["import "] and a [*] anywhere.  A file with a block comment
    and no wildcard import is listed, and a file whose wildcard import has
    a TAB after [import] is not, although [process_file] finds exactly the
    wildcard imports and then drops what it found. *)
Theorem star_warning_mismatch :
  star_imports (scan_lines "app/A.java" scan_init 0 (readlines commented_file)) = [] ∧
  (λ st, star_import_files st.2)
    <$> scan_and_process [("app", ["A.java"])]
          ({[ "app/A.java" := commented_file ]}, summary_init) = Some ["app/A.java"] ∧
  star_imports (scan_lines "app/B.kt" scan_init 0 (readlines tab_wildcard_file)) =
    [("import" +:+ String "009" "foo.bar.*", 1)] ∧
  (λ st, star_import_files st.2)
    <$> scan_and_process [("app", ["B.kt"])]
          ({[ "app/B.kt" := tab_wildcard_file ]}, summary_init) = Some [].
Proof. by vm_compute. Qed.

(** ** No import lost *)

Lemma nonempty_app_l (s t : string) : Str.nonempty s = true → Str.nonempty (s +:+ t) = true.
Proof. by destruct s. Qed.

Lemma recognise_strip_nonempty (l : string) :
  is_Some (recognise l) → Str.nonempty (Str.strip l) = true.
Proof.
  unfold recognise, skipped. destruct (Str.nonempty (Str.strip l)); [done|].
  simpl. by intros [? [=]].
Qed.

Lemma render_cases (filepath l : string) :
  render filepath l = Str.strip l ∨ render filepath l = Str.strip l +:+ ";".
Proof. unfold render. destruct (_ && _); auto. Qed.

Lemma render_nonempty (filepath l : string) :
  is_Some (recognise l) → render filepath l ≠ EmptyString.
Proof.
  intros H%recognise_strip_nonempty.
  destruct (render_cases filepath l) as [-> | ->].
  - by destruct (Str.strip l).
  - by destruct (Str.strip l).
Qed.

Lemma parse_import_nonblank (filepath : string) (lines : list string) :
  nonblank (omap (parse_import filepath) lines).
Proof.
  apply Forall_forall. intros imp (l & _ & Hl)%list_elem_of_omap.
  unfold parse_import in Hl. destruct (recognise l) as [sp|] eqn:E; simplify_eq/=.
  apply render_nonempty. by rewrite E.
Qed.

Lemma scan_nonblank (filepath : string) (lines : list string) :
  nonblank (imports (scan_lines filepath scan_init 0 lines)).
Proof. rewrite scan_imports. apply parse_import_nonblank. Qed.

(** The non-blank lines of the sorted block are the recorded lines. *)
Lemma sort_imports_lines (imports : list import) :
  nonblank imports →
  filter (λ s, s ≠ EmptyString) (sort_imports imports) ≡ₚ (λ imp : import, imp.2) <$> imports.
Proof.
  intros Hnb. rewrite <- emitted_lines by done.
  rewrite emitted_Permutation, <- list_fmap_compose. done.
Qed.

(** C1, as stated, fails: an indented import line is emitted without its
    indentation, so the emitted line is neither the text of an input line
    nor that text with a terminator appended. *)
Lemma rendered_line_not_exact :
  sort_imports (imports (scan_lines "A.kt" scan_init 0 ["  import a.B;" +:+ Str.NL])) =
    ["import a.B;"] ∧
  ¬ ∀ r, r ∈ sort_imports (imports (scan_lines "A.kt" scan_init 0
                                       ["  import a.B;" +:+ Str.NL])) →
         ∃ l, l ∈ ["  import a.B;" +:+ Str.NL] ∧
              (r = Str.rstrip_nl l ∨ r = Str.rstrip_nl l +:+ ";").
Proof.
  assert (Hout : sort_imports (imports (scan_lines "A.kt" scan_init 0
                   ["  import a.B;" +:+ Str.NL])) = ["import a.B;"]) by (by vm_compute).
  split; [exact Hout|]. rewrite Hout. intros H.
  destruct (H "import a.B;") as (l & Hl & Hr); [apply list_elem_of_here|].
  apply list_elem_of_singleton in Hl as ->.
  vm_compute in Hr. by destruct Hr.
Qed.

(** C1, amended.  The non-blank lines of the sorted block are, as a
    multiset, the lines recorded for the recognised import lines of the
    input; each recorded line is the input line with leading and trailing
    whitespace stripped, or that text with [;] appended; and when the file
    is rewritten the sorted block is part of what is written. *)
Theorem imports_preserved (filepath : string) (lines : list string) :
  let found := filter (λ l, is_Some (recognise l)) lines in
  let block := sort_imports (imports (scan_lines filepath scan_init 0 lines)) in
  filter (λ s, s ≠ EmptyString) block ≡ₚ render filepath <$> found ∧
  (∀ l, render filepath l = Str.strip l ∨ render filepath l = Str.strip l +:+ ";") ∧
  (process_file filepath lines = None ∨
   ∃ before after,
     process_file filepath lines =
       Some (before ++ ((λ s, s +:+ Str.NL) <$> block) ++ after)).
Proof.
  intros found block. split; [|split].
  - unfold block. rewrite sort_imports_lines by apply scan_nonblank.
    rewrite scan_imports. cbn [imports scan_init app]. by rewrite recorded_lines.
  - intros l. apply render_cases.
  - unfold process_file. fold block. case_bool_decide; [by left|right].
    destruct (skip_trailing _ _ _) as [next preserved].
    case_bool_decide.
    + exists (take (Z.to_nat (package_idx (scan_lines filepath scan_init 0 lines) + 1))
                lines ++ [Str.NL]), ((preserved ++ [Str.NL]) ++ drop next lines).
      by rewrite <- !app_assoc.
    + by eexists _, _.
Qed.

(** ** Positions found by the scan *)

Lemma rstrip_rstrip_nl (s : string) : Str.rstrip (Str.rstrip_nl s) = Str.rstrip s.
Proof.
  induction s as [|c s IH]; [done|].
  cbn [Str.rstrip_nl Str.rstrip].
  destruct (Str.rstrip_nl s) as [|c' r] eqn:E.
  - simpl in IH. rewrite <- IH.
    destruct (Ascii.eqb_spec c Char.newline) as [->|Hc]; [done|].
    done.
  - cbn [Str.rstrip] in *. by rewrite IH.
Qed.

Lemma strip_rstrip_nl (s : string) : Str.strip (Str.rstrip_nl s) = Str.strip s.
Proof. unfold Str.strip. by rewrite rstrip_rstrip_nl. Qed.

Lemma skip_trailing_spec (rest : list string) (n : nat) (acc : list string) :
  skip_trailing rest n acc =
  (n + length (leading_skippable rest),
   acc ++ filter (λ l, Str.nonempty (Str.strip l) = true) (leading_skippable rest)).
Proof.
  revert n acc. induction rest as [|line rest IH]; intros n acc.
  - simpl. by rewrite Nat.add_0_r, app_nil_r.
  - cbn [skip_trailing leading_skippable]. rewrite strip_rstrip_nl.
    fold (substantive line). destruct (substantive line) eqn:Hs.
    + simpl. by rewrite Nat.add_0_r, app_nil_r.
    + rewrite IH. cbn [length]. rewrite filter_cons. f_equal; [lia|].
      destruct (Str.nonempty (Str.strip line)).
      * rewrite decide_True by done. by rewrite <- app_assoc.
      * by rewrite decide_False by done.
Qed.

Lemma leading_skippable_split (rest : list string) :
  rest = leading_skippable rest ++ drop (length (leading_skippable rest)) rest.
Proof.
  induction rest as [|line rest IH]; [done|]. simpl.
  destruct (substantive line); [done|]. simpl. by rewrite <- IH.
Qed.

Lemma leading_skippable_Forall (rest : list string) :
  Forall (λ l, substantive l = false) (leading_skippable rest).
Proof.
  induction rest as [|line rest IH]; [constructor|]. simpl.
  destruct (substantive line) eqn:E; by constructor.
Qed.

Lemma leading_skippable_next (rest : list string) (l : string) :
  head (drop (length (leading_skippable rest)) rest) = Some l → substantive l = true.
Proof.
  induction rest as [|line rest IH]; [done|]. simpl.
  destruct (substantive line) eqn:E; simpl; [by intros [= <-]|done].
Qed.

Lemma leading_skippable_app (skip body : list string) :
  Forall (λ l, substantive l = false) skip →
  (∀ l, head body = Some l → substantive l = true) →
  leading_skippable (skip ++ body) = skip.
Proof.
  intros Hskip Hbody. induction Hskip as [|l skip Hl _ IH]; simpl.
  - destruct body as [|b body]; [done|]. simpl. by rewrite (Hbody b).
  - by rewrite Hl, IH.
Qed.

Lemma import_indices_app (idx : nat) (l1 l2 : list string) :
  import_indices idx (l1 ++ l2) =
  import_indices idx l1 ++ import_indices (idx + length l1) l2.
Proof.
  revert idx. induction l1 as [|x l1 IH]; intros idx; simpl.
  - by rewrite Nat.add_0_r.
  - rewrite IH, <- app_assoc. do 3 f_equal. lia.
Qed.

Lemma import_indices_none (idx : nat) (lines : list string) :
  Forall (λ l, recognise l = None) lines → import_indices idx lines = [].
Proof.
  intros H. revert idx. induction H as [|l lines Hl _ IH]; intros idx; [done|].
  simpl. by rewrite Hl, IH.
Qed.

Lemma import_indices_nil_inv (idx : nat) (lines : list string) :
  import_indices idx lines = [] → Forall (λ l, recognise l = None) lines.
Proof.
  revert idx. induction lines as [|l lines IH]; intros idx; [constructor|].
  simpl. destruct (recognise l) eqn:E; [done|]. simpl. intros H. constructor; eauto.
Qed.

(** The first recorded index is that of the first recognised line. *)
Lemma first_import_spec (idx : nat) (lines : list string) (first : nat) :
  head (import_indices idx lines) = Some first →
  ∃ j l, first = idx + j ∧ lines !! j = Some l ∧ is_Some (recognise l) ∧
         Forall (λ l', recognise l' = None) (take j lines).
Proof.
  revert idx. induction lines as [|x lines IH]; intros idx; [done|]. simpl.
  destruct (recognise x) as [sp|] eqn:E; simpl.
  - intros [= <-]. exists 0, x. rewrite E. split; [lia|]. split; [done|].
    split; [done|constructor].
  - intros (j & l & -> & Hl & Hr & Hbefore)%IH.
    exists (S j), l. split; [lia|]. split; [done|]. split; [done|].
    simpl. by constructor.
Qed.

(** The last recorded index is that of the last recognised line. *)
Lemma last_import_spec (idx : nat) (lines : list string) (final : nat) :
  last (import_indices idx lines) = Some final →
  ∃ j l, final = idx + j ∧ lines !! j = Some l ∧ is_Some (recognise l) ∧
         Forall (λ l', recognise l' = None) (drop (S j) lines).
Proof.
  revert idx. induction lines as [|x lines IH]; intros idx; [done|].
  cbn [import_indices]. rewrite last_app.
  destruct (last (import_indices (S idx) lines)) as [t|] eqn:Et.
  - intros [= <-]. destruct (IH _ Et) as (j & l & -> & Hl & Hr & Hafter).
    exists (S j), l. split; [lia|]. done.
  - apply last_None in Et. destruct (recognise x) as [sp|] eqn:E; [|done].
    simpl. intros [= <-]. exists 0, x. rewrite E. split; [lia|].
    split; [done|]. split; [done|]. simpl. rewrite drop_0.
    by apply import_indices_nil_inv in Et.
Qed.

Lemma last_package_app (idx : nat) (found : Z) (l1 l2 : list string) :
  last_package idx found (l1 ++ l2) =
  last_package (idx + length l1) (last_package idx found l1) l2.
Proof.
  revert idx found. induction l1 as [|x l1 IH]; intros idx found; simpl.
  - by rewrite Nat.add_0_r.
  - rewrite IH. f_equal. lia.
Qed.

Lemma last_package_none (idx : nat) (found : Z) (lines : list string) :
  Forall (λ l, is_package_line l = false) lines → last_package idx found lines = found.
Proof.
  intros H. revert idx found. induction H as [|l lines Hl _ IH]; intros idx found; [done|].
  simpl. by rewrite Hl, IH.
Qed.

(** [package_idx] is the index of the last package line, or the value it
    started with. *)
Lemma last_package_cases (idx : nat) (found : Z) (lines : list string) :
  (Forall (λ l, is_package_line l = false) lines ∧
   last_package idx found lines = found) ∨
  (∃ p l, lines !! p = Some l ∧ is_package_line l = true ∧
          Forall (λ l', is_package_line l' = false) (drop (S p) lines) ∧
          last_package idx found lines = Z.of_nat (idx + p)).
Proof.
  induction lines as [|x lines IH] using rev_ind; [left; by split|].
  rewrite last_package_app. simpl.
  destruct (is_package_line x) eqn:Ex.
  - right. exists (length lines), x. split; [by apply list_lookup_middle|].
    split; [done|]. split; [|done].
    rewrite drop_ge; [constructor|]. rewrite length_app. simpl. lia.
  - destruct IH as [[Hnone ->]|(p & l & Hp & Hl & Hafter & ->)].
    + left. split; [|done]. apply Forall_app. split; [done|]. by constructor.
    + right. exists p, l. split; [by apply lookup_app_l_Some|]. split; [done|].
      split; [|done]. rewrite drop_app_le by (apply lookup_lt_Some in Hp; lia).
      apply Forall_app. split; [done|]. by constructor.
Qed.

(** ** What [process_file] writes *)

Lemma process_file_unfold (filepath : string) (lines : list string) :
  process_file filepath lines =
  if bool_decide (omap (parse_import filepath) lines = []) then None
  else
    let first := default 0 (head (import_indices 0 lines)) in
    let final := default 0 (last (import_indices 0 lines)) in
    let skip := leading_skippable (drop (final + 1) lines) in
    let pkg := last_package 0 (-1) lines in
    Some ((if bool_decide (pkg ≠ (-1)%Z)
           then take (Z.to_nat (pkg + 1)) lines ++ [Str.NL] else take first lines)
          ++ import_block filepath lines
          ++ kept_comments skip ++ [Str.NL]
          ++ drop (final + 1 + length skip) lines).
Proof.
  unfold process_file.
  rewrite scan_imports, scan_import_lines, scan_package_idx, skip_trailing_spec.
  cbn [imports import_lines package_idx scan_init app].
  case_bool_decide; [done|]. cbv zeta. unfold import_block, kept_comments.
  case_bool_decide; by rewrite <- ?app_assoc.
Qed.

Lemma omap_parse_import_nil_inv (filepath : string) (lines : list string) :
  omap (parse_import filepath) lines = [] → Forall (λ l, recognise l = None) lines.
Proof.
  induction lines as [|l lines IH]; [constructor|].
  cbn [omap list_omap]. unfold parse_import at 1.
  destruct (recognise l) eqn:E; [done|]. intros H. constructor; auto.
Qed.

Lemma omap_parse_import_indices (filepath : string) (lines : list string) (idx : nat) :
  omap (parse_import filepath) lines = [] ↔ import_indices idx lines = [].
Proof.
  split.
  - intros H%omap_parse_import_nil_inv. by apply import_indices_none.
  - intros H%import_indices_nil_inv. by apply omap_parse_import_nil.
Qed.

(** ** Text mode *)

Lemma universal_newlines_id (raw : string) :
  no_cr raw = true → universal_newlines raw = raw.
Proof.
  unfold no_cr. induction raw as [|c rest IH]; [done|]. cbn [all_chars universal_newlines].
  intros [Hc Hrest]%andb_true_iff. apply negb_true_iff in Hc. rewrite Hc.
  by rewrite IH.
Qed.

Lemma universal_newlines_no_cr_step (raw : string) :
  no_cr (universal_newlines raw) = true ∧
  ∀ c, no_cr (universal_newlines (String c raw)) = true.
Proof.
  unfold no_cr. induction raw as [|c' rest [IH1 IH2]].
  - split; [done|]. intros c. cbn [universal_newlines].
    destruct (c =? Char.cr)%char eqn:E; [done|]. cbn [all_chars]. by rewrite E.
  - split; [apply IH2|]. intros c.
    change (universal_newlines (String c (String c' rest)))
      with (if (c =? Char.cr)%char
            then String Char.newline
                   (if (c' =? Char.newline)%char then universal_newlines rest
                    else universal_newlines (String c' rest))
            else String c (universal_newlines (String c' rest))).
    destruct (c =? Char.cr)%char eqn:E; cbn [all_chars].
    + destruct (c' =? Char.newline)%char; [apply IH1|apply IH2].
    + rewrite E. apply IH2.
Qed.

Lemma universal_newlines_no_cr (raw : string) : no_cr (universal_newlines raw) = true.
Proof. apply universal_newlines_no_cr_step. Qed.

Lemma readlines_nil_inv (content : string) : readlines content = [] → content = EmptyString.
Proof.
  destruct content as [|c rest]; [done|]. cbn [readlines].
  destruct (c =? Char.newline)%char; [done|]. by destruct (readlines rest).
Qed.

Lemma writelines_readlines (content : string) : writelines (readlines content) = content.
Proof.
  induction content as [|c rest IH]; [done|]. cbn [readlines].
  destruct (Ascii.eqb_spec c Char.newline) as [->|Hc].
  - unfold writelines in *. cbn [foldr]. by rewrite IH.
  - destruct (readlines rest) as [|line lines] eqn:E.
    + by rewrite (readlines_nil_inv rest E).
    + unfold writelines in *. cbn [foldr] in *. by rewrite str_app_cons, IH.
Qed.

(** ** The frame *)

Lemma lookup_head_drop {A} (l : list A) (n : nat) : l !! n = head (drop n l).
Proof. rewrite head_lookup, lookup_drop. f_equal. lia. Qed.

(** With a package line, a comment line between it and the first import is
    missing from what is written, while without a package line everything
    before the first import is kept. *)
Example comment_after_package_dropped :
  process_file "A.kt" package_comment_file =
    Some ["package a;" +:+ Str.NL; Str.NL; "import x.Y;" +:+ Str.NL; Str.NL;
          "class A" +:+ Str.NL] ∧
  import_indices 0 package_comment_file = [2] ∧
  package_comment_file !! 1 = Some ("// note" +:+ Str.NL) ∧
  ("// note" +:+ Str.NL)
    ∉ ["package a;" +:+ Str.NL; Str.NL; "import x.Y;" +:+ Str.NL; Str.NL;
       "class A" +:+ Str.NL].
Proof.
  split; [by vm_compute|]. split; [by vm_compute|]. split; [done|].
  apply (bool_decide_unpack _). by vm_compute.
Qed.

(** The shape of what is written.  With [first] and [final] the indices of
    the first and the last import line and [next] the index of the first
    line after [final] that is neither blank nor a comment, the output
    starts with the lines kept from the top, ends with the lines from
    [next] on, and has between them only a blank line after a package line,
    the sorted import block, the comment lines found between [final] and
    [next], and one blank line. *)
Lemma process_file_frame (filepath : string) (lines : list string) :
  (process_file filepath lines = None ∧ Forall (λ l, recognise l = None) lines) ∨
  ∃ (first final next : nat) (kept sep : list string),
    (∃ l, lines !! first = Some l ∧ is_Some (recognise l)) ∧
    Forall (λ l, recognise l = None) (take first lines) ∧
    (∃ l, lines !! final = Some l ∧ is_Some (recognise l)) ∧
    Forall (λ l, recognise l = None) (drop (S final) lines) ∧
    final < next ≤ length lines ∧
    Forall (λ l, substantive l = false) (take (next - S final) (drop (S final) lines)) ∧
    (∀ l, lines !! next = Some l → substantive l = true) ∧
    process_file filepath lines =
      Some (kept ++ sep ++ import_block filepath lines
              ++ kept_comments (take (next - S final) (drop (S final) lines))
              ++ [Str.NL] ++ drop next lines) ∧
    ((Forall (λ l, is_package_line l = false) lines ∧ kept = take first lines ∧ sep = []) ∨
     (∃ p l, lines !! p = Some l ∧ is_package_line l = true ∧
             Forall (λ l', is_package_line l' = false) (drop (S p) lines) ∧
             kept = take (S p) lines ∧ sep = [Str.NL])).
Proof.
  rewrite process_file_unfold. case_bool_decide as Himp.
  { left. split; [done|]. by apply omap_parse_import_nil_inv in Himp. }
  right. rewrite (omap_parse_import_indices _ _ 0) in Himp.
  destruct (head (import_indices 0 lines)) as [first|] eqn:Hfirst;
    [|by apply head_None in Hfirst].
  destruct (last (import_indices 0 lines)) as [final|] eqn:Hfinal;
    [|by apply last_None in Hfinal].
  apply first_import_spec in Hfirst as (j & l1 & -> & Hl1 & Hr1 & Hbefore).
  apply last_import_spec in Hfinal as (k & l2 & -> & Hl2 & Hr2 & Hafter).
  cbv [default from_option id]. cbn [Nat.add]. replace (k + 1) with (S k) by lia.
  set (skip := leading_skippable (drop (S k) lines)).
  assert (Hsplit : drop (S k) lines = skip ++ drop (S k + length skip) lines).
  { rewrite <- drop_drop. apply leading_skippable_split. }
  assert (Hlen : S k + length skip ≤ length lines).
  { apply lookup_lt_Some in Hl2.
    apply (f_equal length) in Hsplit. rewrite length_app, !length_drop in Hsplit. lia. }
  assert (Htake : take (S k + length skip - S k) (drop (S k) lines) = skip).
  { replace (S k + length skip - S k) with (length skip) by lia.
    rewrite Hsplit at 1. by rewrite take_app_length. }
  exists j, k, (S k + length skip).
  destruct (last_package_cases 0 (-1) lines)
    as [[Hnone Hpkg]|(p & l & Hp & Hl & Hlast & Hpkg)]; rewrite Hpkg.
  - exists (take j lines), []. rewrite Htake.
    split; [eauto|]. split; [done|]. split; [eauto|]. split; [done|].
    split; [lia|]. split; [apply leading_skippable_Forall|].
    split.
    { intros l. rewrite lookup_head_drop, <- drop_drop. apply leading_skippable_next. }
    split; [by rewrite bool_decide_false by (intros []; done)|].
    left. done.
  - exists (take (S p) lines), [Str.NL]. rewrite Htake.
    split; [eauto|]. split; [done|]. split; [eauto|]. split; [done|].
    split; [lia|]. split; [apply leading_skippable_Forall|].
    split.
    { intros l'. rewrite lookup_head_drop, <- drop_drop. apply leading_skippable_next. }
    split.
    { rewrite bool_decide_true by lia.
      replace (Z.to_nat (Z.of_nat (0 + p) + 1)) with (S p) by lia.
      by rewrite <- !app_assoc. }
    right. exists p, l. done.
Qed.

(** C2, as stated, fails.  With a package line, the two blank lines that
    stand before the first import come out as one: what precedes the
    import block of the output is shorter than what preceded the first
    import, so it is not that text with blank lines inserted.  And a file
    with CR LF line endings is written with LF line endings: its body
    line, [class A {}] with CR LF, is not in what is written. *)
Lemma frame_not_preserved :
  (readlines (universal_newlines package_blanks_file) =
     ["package a;" +:+ Str.NL; Str.NL; Str.NL; "import x.Y;" +:+ Str.NL;
      "class A" +:+ Str.NL] ∧
   import_indices 0 (readlines (universal_newlines package_blanks_file)) = [3] ∧
   process_file "A.kt" (readlines (universal_newlines package_blanks_file)) =
     Some ["package a;" +:+ Str.NL; Str.NL; "import x.Y;" +:+ Str.NL; Str.NL;
           "class A" +:+ Str.NL] ∧
   import_indices 0 ["package a;" +:+ Str.NL; Str.NL; "import x.Y;" +:+ Str.NL; Str.NL;
                     "class A" +:+ Str.NL] = [2] ∧
   take 3 (readlines (universal_newlines package_blanks_file)) =
     ["package a;" +:+ Str.NL; Str.NL; Str.NL] ∧
   take 2 ["package a;" +:+ Str.NL; Str.NL; "import x.Y;" +:+ Str.NL; Str.NL;
           "class A" +:+ Str.NL] = ["package a;" +:+ Str.NL; Str.NL]) ∧
  (Str.endswith ("class A {}" +:+ String Char.cr Str.NL) crlf_file = true ∧
   writelines <$> process_file "A.kt" (readlines (universal_newlines crlf_file)) =
     Some ("import a.B;" +:+ Str.NL +:+ Str.NL +:+ "class A {}" +:+ Str.NL) ∧
   Str.contains ("class A {}" +:+ String Char.cr Str.NL)
     ("import a.B;" +:+ Str.NL +:+ Str.NL +:+ "class A {}" +:+ Str.NL) = false).
Proof. by vm_compute. Qed.

(** C2, amended.  The text of a file, as read, is the concatenation of its
    lines, and it is the characters of the file when these hold no CR;
    otherwise each CR LF and each lone CR has become LF.  A file without
    import lines is not written.  Otherwise what is written starts with the
    lines kept from the top, ends with the lines from the first line after
    the last import that is neither blank nor a comment, both unchanged,
    and has between them only a blank line after a package line, the sorted
    import block, the comment lines found after the last import, and one
    blank line.  The lines kept from the top are those before the first
    import when the file has no package line, and those up to and including
    the last package line when it has one. *)
Theorem frame_preserved (filepath raw : string) :
  let lines := readlines (universal_newlines raw) in
  writelines lines = universal_newlines raw ∧
  (no_cr raw = true → universal_newlines raw = raw) ∧
  ((process_file filepath lines = None ∧ Forall (λ l, recognise l = None) lines) ∨
   ∃ (first final next : nat) (kept sep : list string),
     (∃ l, lines !! first = Some l ∧ is_Some (recognise l)) ∧
     Forall (λ l, recognise l = None) (take first lines) ∧
     (∃ l, lines !! final = Some l ∧ is_Some (recognise l)) ∧
     Forall (λ l, recognise l = None) (drop (S final) lines) ∧
     final < next ≤ length lines ∧
     Forall (λ l, substantive l = false) (take (next - S final) (drop (S final) lines)) ∧
     (∀ l, lines !! next = Some l → substantive l = true) ∧
     process_file filepath lines =
       Some (kept ++ sep ++ import_block filepath lines
               ++ kept_comments (take (next - S final) (drop (S final) lines))
               ++ [Str.NL] ++ drop next lines) ∧
     ((Forall (λ l, is_package_line l = false) lines ∧ kept = take first lines ∧ sep = []) ∨
      (∃ p l, lines !! p = Some l ∧ is_package_line l = true ∧
              Forall (λ l', is_package_line l' = false) (drop (S p) lines) ∧
              kept = take (S p) lines ∧ sep = [Str.NL]))).
Proof.
  intros lines. split; [apply writelines_readlines|].
  split; [apply universal_newlines_id|]. apply process_file_frame.
Qed.

(** ** Matching [IMPORT_RE] *)

Lemma take_skip_while (cls : ascii → bool) (s : string) :
  take_while cls s +:+ skip_while cls s = s.
Proof.
  induction s as [|c s IH]; [done|]. simpl. destruct (cls c); [|done].
  by rewrite str_app_cons, IH.
Qed.

(** A greedy repetition whose continuation rejects every text that starts
    with another character of the class takes the longest run. *)
Lemma star_cut {T} (cls : ascii → bool) (s : string) (k : string → option T) :
  (∀ c t, cls c = true → k (String c t) = None) →
  star cls s k = k (skip_while cls s).
Proof.
  intros Hk. induction s as [|c s IH]; [done|]. simpl.
  destruct (cls c) eqn:Hc; [|done]. rewrite IH.
  destruct (k (skip_while cls s)); [done|]. by apply Hk.
Qed.

(** So does one whose continuation accepts the rest after the longest run. *)
Lemma star_total {T} (cls : ascii → bool) (s : string) (k : string → option T) :
  (∀ t, is_Some (k t)) → star cls s k = k (skip_while cls s).
Proof.
  intros Hk. induction s as [|c s IH]; [done|]. simpl.
  destruct (cls c) eqn:Hc; [|done]. rewrite IH.
  by destruct (Hk (skip_while cls s)) as [m ->].
Qed.

Lemma plus_cut {T} (cls : ascii → bool) (s : string) (k : string → option T) :
  (∀ c t, cls c = true → k (String c t) = None) →
  plus cls s k = if starts_with cls s then k (skip_while cls s) else None.
Proof.
  intros Hk. destruct s as [|c s]; [done|]. simpl.
  destruct (cls c); [|done]. by apply star_cut.
Qed.

Lemma plus_total {T} (cls : ascii → bool) (s : string) (k : string → option T) :
  (∀ t, is_Some (k t)) →
  plus cls s k = if starts_with cls s then k (skip_while cls s) else None.
Proof.
  intros Hk. destruct s as [|c s]; [done|]. simpl.
  destruct (cls c); [|done]. by apply star_total.
Qed.

Lemma drop_prefix_Some (p s r : string) : Str.drop_prefix p s = Some r → s = p +:+ r.
Proof.
  revert s. induction p as [|a p IH]; intros s; simpl; [by intros [= ->]|].
  destruct s as [|b s]; [done|].
  destruct (Ascii.eqb_spec a b) as [->|]; [|done].
  intros ->%IH. done.
Qed.

Lemma drop_prefix_app (p r : string) : Str.drop_prefix p (p +:+ r) = Some r.
Proof.
  induction p as [|a p IH]; [done|]. rewrite str_app_cons. simpl.
  by rewrite Ascii.eqb_refl.
Qed.

Lemma length_app_str (s t : string) :
  String.length (s +:+ t) = String.length s + String.length t.
Proof. induction s as [|c s IH]; [done|]. rewrite str_app_cons. simpl. by rewrite IH. Qed.

Lemma substring_prefix (p r : string) :
  String.substring 0 (String.length p) (p +:+ r) = p.
Proof.
  induction p as [|a p IH]; simpl.
  - by destruct r.
  - by rewrite IH.
Qed.

Lemma consumed_app (p r : string) : Str.consumed (p +:+ r) r = p.
Proof.
  unfold Str.consumed. rewrite length_app_str.
  replace (String.length p + String.length r - String.length r)
    with (String.length p) by lia.
  apply substring_prefix.
Qed.

Lemma consumed_skip_while (cls : ascii → bool) (s : string) :
  Str.consumed s (skip_while cls s) = take_while cls s.
Proof. rewrite <- (take_skip_while cls s) at 1. apply consumed_app. Qed.

(** The three classes of [IMPORT_RE] against each other. *)
Lemma space_not_path (c : ascii) :
  Char.isspace c = true → Char.isword_dot_star c = false.
Proof.
  destruct c as [[] [] [] [] [] [] [] []]; vm_compute; congruence.
Qed.

Lemma space_not_s (c : ascii) : Char.isspace c = true → ("s" =? c)%char = false.
Proof.
  destruct c as [[] [] [] [] [] [] [] []]; vm_compute; congruence.
Qed.

Lemma run_tail_re (r : string) (g : captures) :
  (λ m : captures, (m !! 1, m !! 2)) <$> run tail_re r g (λ _ g', Some g') =
  (λ path, (g !! 1, Some path)) <$> import_tail r.
Proof.
  unfold tail_re, import_tail. cbn [run].
  rewrite plus_cut.
  2:{ intros c t Hc. cbn [plus]. by rewrite (space_not_path c Hc). }
  destruct (starts_with Char.isspace r); [|done].
  set (r' := skip_while Char.isspace r).
  rewrite plus_total.
  2:{ intros t. destruct (Str.drop_prefix ";" t); simpl; eauto. }
  destruct (starts_with Char.isword_dot_star r'); [|done].
  rewrite consumed_skip_while.
  destruct (Str.drop_prefix ";" _); simpl.
  - by simplify_map_eq.
  - by simplify_map_eq.
Qed.

Lemma import_re_spec (s : string) :
  (λ m, (group m 1, group m 2)) <$> re_match IMPORT_RE s = import_spec s.
Proof.
  unfold re_match, IMPORT_RE. fold tail_re. unfold import_spec. cbn [run].
  destruct (Str.drop_prefix "import" s) as [r1|] eqn:E1; [|done].
  apply drop_prefix_Some in E1 as ->. cbn [mbind option_bind].
  rewrite plus_cut.
  2:{ intros c t Hc. cbn [Str.drop_prefix]. by rewrite (space_not_s c Hc). }
  assert (Htail : ∀ r g1,
    (λ m, (group m 1, group m 2)) <$>
      run tail_re r (<[1 := g1]> ∅) (λ _ g', Some g') =
    (λ path, (g1, path)) <$> import_tail r).
  { intros r g1. pose proof (run_tail_re r (<[1 := g1]> ∅)) as H.
    rewrite lookup_insert_eq in H.
    destruct (run tail_re r _ _) as [m|], (import_tail r) as [path|];
      simplify_eq/=; [|done]. unfold group. by rewrite H, H0. }
  destruct (starts_with Char.isspace r1).
  - destruct (Str.drop_prefix "static" (skip_while Char.isspace r1)) as [r3|] eqn:E3.
    + pose proof (drop_prefix_Some _ _ _ E3) as E3'.
      assert (Hc : Str.consumed ("import" +:+ r1) r3 =
                   "import" +:+ take_while Char.isspace r1 +:+ "static").
      { rewrite <- (take_skip_while Char.isspace r1) at 1. rewrite E3'.
        rewrite <- !str_app_assoc. apply consumed_app. }
      rewrite Hc. cbn [mbind option_bind].
      pose proof (Htail r3 ("import" +:+ take_while Char.isspace r1 +:+ "static")) as H3.
      destruct (run tail_re r3 _ _) as [m|] eqn:Em.
      * rewrite H3. by destruct (import_tail r3).
      * destruct (import_tail r3); [done|]. cbn [mbind option_bind].
        rewrite consumed_app, Htail. by destruct (import_tail r1).
    + cbn [mbind option_bind]. rewrite consumed_app, Htail.
      by destruct (import_tail r1).
  - rewrite consumed_app, Htail. by destruct (import_tail r1).
Qed.

Lemma drop_prefix_app_r (p s r t : string) :
  Str.drop_prefix p s = Some r → Str.drop_prefix p (s +:+ t) = Some (r +:+ t).
Proof.
  intros ->%drop_prefix_Some. rewrite str_app_assoc. apply drop_prefix_app.
Qed.

Lemma drop_prefix_semicolon_None (p s : string) :
  all_chars not_semicolon p = true →
  Str.drop_prefix p s = None → Str.drop_prefix p (s +:+ ";") = None.
Proof.
  revert s. induction p as [|a p IH]; intros s Hp; [done|].
  cbn [all_chars] in Hp. apply andb_true_iff in Hp as [Ha Hp].
  destruct s as [|b s].
  - intros _. rewrite str_app_nil_l. cbn [Str.drop_prefix].
    unfold not_semicolon in Ha. by destruct (a =? ";")%char.
  - rewrite str_app_cons. cbn [Str.drop_prefix].
    destruct (a =? b)%char; [by apply IH|done].
Qed.

Section semicolon.
Variable cls : ascii → bool.
Hypothesis cls_semicolon : cls ";"%char = false.

Lemma starts_with_semicolon (r : string) :
  starts_with cls (r +:+ ";") = starts_with cls r.
Proof using cls_semicolon. destruct r; [exact cls_semicolon|done]. Qed.

Lemma skip_while_semicolon (r : string) :
  skip_while cls (r +:+ ";") = skip_while cls r +:+ ";".
Proof using cls_semicolon.
  induction r as [|c r IH].
  - rewrite str_app_nil_l. cbn [skip_while]. by rewrite cls_semicolon.
  - rewrite str_app_cons. cbn [skip_while]. destruct (cls c); [done|].
    by rewrite str_app_cons.
Qed.

Lemma take_while_semicolon (r : string) :
  take_while cls (r +:+ ";") = take_while cls r.
Proof using cls_semicolon.
  induction r as [|c r IH].
  - rewrite str_app_nil_l. cbn [take_while]. by rewrite cls_semicolon.
  - rewrite str_app_cons. cbn [take_while]. destruct (cls c); [|done].
    by rewrite IH.
Qed.
End semicolon.

Lemma import_tail_semicolon (r : string) : import_tail (r +:+ ";") = import_tail r.
Proof.
  unfold import_tail.
  rewrite (starts_with_semicolon Char.isspace) by done.
  rewrite (skip_while_semicolon Char.isspace) by done.
  rewrite (starts_with_semicolon Char.isword_dot_star) by done.
  by rewrite (take_while_semicolon Char.isword_dot_star) by done.
Qed.

(** A terminator appended to a line does not change what [IMPORT_RE]
    captures in groups 1 and 2. *)
Lemma import_spec_semicolon (s : string) : import_spec (s +:+ ";") = import_spec s.
Proof.
  unfold import_spec.
  destruct (Str.drop_prefix "import" s) as [r1|] eqn:E1.
  - rewrite (drop_prefix_app_r _ _ _ _ E1). cbn [mbind option_bind].
    rewrite (starts_with_semicolon Char.isspace) by done.
    rewrite (skip_while_semicolon Char.isspace) by done.
    rewrite (take_while_semicolon Char.isspace) by done.
    rewrite import_tail_semicolon.
    destruct (Str.drop_prefix "static" (skip_while Char.isspace r1)) as [r3|] eqn:E3.
    + rewrite (drop_prefix_app_r _ _ _ _ E3). cbn [mbind option_bind].
      by rewrite import_tail_semicolon.
    + by rewrite (drop_prefix_semicolon_None "static" _ eq_refl E3).
  - by rewrite (drop_prefix_semicolon_None "import" _ eq_refl E1).
Qed.

Lemma import_spec_prefix (s : string) (x : string * string) :
  import_spec s = Some x → ∃ r, s = "import" +:+ r.
Proof.
  unfold import_spec. destruct (Str.drop_prefix "import" s) as [r1|] eqn:E1; [|done].
  intros _. exists r1. by apply drop_prefix_Some.
Qed.

(** ** [strip] *)

Lemma lstrip_head_tight (s : string) : head_tight (Str.lstrip s).
Proof.
  induction s as [|c s IH]; [done|]. simpl. by destruct (Char.isspace c) eqn:E.
Qed.

Lemma rstrip_last_tight (s : string) : last_tight (Str.rstrip s).
Proof.
  unfold last_tight. induction s as [|c s IH]; [done|]. cbn [Str.rstrip].
  destruct (Str.rstrip s) as [|c' r] eqn:E.
  - by destruct (Char.isspace c) eqn:Ec.
  - done.
Qed.

Lemma lstrip_last_tight (s : string) : last_tight s → last_tight (Str.lstrip s).
Proof.
  unfold last_tight. induction s as [|c s IH]; [done|]. cbn [Str.lstrip].
  destruct (Char.isspace c) eqn:Ec; [|done].
  intros H. apply IH. simpl in H. destruct s; [done|exact H].
Qed.

Lemma lstrip_id (s : string) : head_tight s → Str.lstrip s = s.
Proof. destruct s as [|c s]; [done|]. simpl. by intros ->. Qed.

Lemma rstrip_id (s : string) : last_tight s → Str.rstrip s = s.
Proof.
  unfold last_tight. induction s as [|c s IH]; [done|]. cbn [Str.rstrip last_char].
  destruct s as [|c' s'].
  - simpl. by intros ->.
  - intros H. rewrite (IH H). done.
Qed.

Lemma rstrip_app_NL (s : string) : Str.rstrip (s +:+ Str.NL) = Str.rstrip s.
Proof.
  induction s as [|c s IH]; [done|].
  rewrite str_app_cons. cbn [Str.rstrip]. by rewrite IH.
Qed.

Lemma strip_tight (s : string) : head_tight (Str.strip s) ∧ last_tight (Str.strip s).
Proof.
  split; [apply lstrip_head_tight|]. apply lstrip_last_tight, rstrip_last_tight.
Qed.

(** A stripped text written as a line reads back as itself. *)
Lemma strip_line (s : string) :
  head_tight s → last_tight s → Str.strip (s +:+ Str.NL) = s.
Proof.
  intros Hh Hl. unfold Str.strip. rewrite rstrip_app_NL, (rstrip_id s Hl).
  by apply lstrip_id.
Qed.

Lemma tight_semicolon (s : string) :
  s ≠ EmptyString → head_tight s → head_tight (s +:+ ";") ∧ last_tight (s +:+ ";").
Proof.
  intros Hne Hh. split.
  - by destruct s.
  - unfold last_tight. by rewrite last_char_app.
Qed.

(** ** Reading a written import line again *)

Lemma recognise_via_spec (l : string) :
  recognise l =
  let line := Str.strip l in
  if skipped line then None
  else if bool_decide (is_Some (re_match PACKAGE_RE line)) then None
  else (λ x, (String.eqb x.1 "import static", x.2)) <$> import_spec line.
Proof.
  unfold recognise. cbv zeta. rewrite <- import_re_spec.
  by destruct (re_match IMPORT_RE (Str.strip l)).
Qed.

Lemma import_prefix_not_skipped (r : string) : skipped ("import" +:+ r) = false.
Proof. reflexivity. Qed.

Lemma import_prefix_not_package (r : string) :
  re_match PACKAGE_RE ("import" +:+ r) = None.
Proof. reflexivity. Qed.

Lemma recognise_import_text (x : string) (sp : bool * string) :
  head_tight x → last_tight x →
  (λ y, (String.eqb y.1 "import static", y.2)) <$> import_spec x = Some sp →
  recognise (x +:+ Str.NL) = Some sp.
Proof.
  intros Hh Hl Hx. rewrite recognise_via_spec. cbv zeta. rewrite (strip_line x Hh Hl).
  destruct (import_spec x) as [y|] eqn:Ey; [|done].
  destruct (import_spec_prefix _ _ Ey) as [r ->].
  rewrite import_prefix_not_skipped, import_prefix_not_package.
  rewrite bool_decide_false by (by intros [? [=]]).
  exact Hx.
Qed.

Lemma recognise_inv (l : string) (sp : bool * string) :
  recognise l = Some sp →
  Str.strip l ≠ EmptyString ∧
  (λ y, (String.eqb y.1 "import static", y.2)) <$> import_spec (Str.strip l) = Some sp.
Proof.
  intros H. split.
  - pose proof (recognise_strip_nonempty l) as Hn. rewrite H in Hn.
    intros E. rewrite E in Hn. by specialize (Hn (mk_is_Some _ _ eq_refl)).
  - rewrite recognise_via_spec in H. cbv zeta in H.
    destruct (skipped _); [done|]. by case_bool_decide.
Qed.

Lemma render_tight (filepath l : string) :
  Str.strip l ≠ EmptyString →
  head_tight (render filepath l) ∧ last_tight (render filepath l).
Proof.
  intros Hne. destruct (strip_tight l) as [Hh Hl]. unfold render.
  destruct (_ && _); [by apply tight_semicolon|done].
Qed.

(** The line written for an import is recognised again, as the same
    import. *)
Lemma recognise_rendered (filepath l : string) (sp : bool * string) :
  recognise l = Some sp → recognise (render filepath l +:+ Str.NL) = Some sp.
Proof.
  intros [Hne Hsp]%recognise_inv.
  destruct (render_tight filepath l Hne) as [Hh Hl].
  apply recognise_import_text; [done..|].
  unfold render. destruct (_ && _); [|done]. by rewrite import_spec_semicolon.
Qed.

(** It is rendered as it stands: in a [.java] file it already ends in [;]. *)
Lemma render_rendered (filepath l : string) :
  Str.strip l ≠ EmptyString →
  render filepath (render filepath l +:+ Str.NL) = render filepath l.
Proof.
  intros Hne. destruct (render_tight filepath l Hne) as [Hh Hl].
  unfold render at 1. rewrite (strip_line _ Hh Hl).
  unfold render. destruct (Str.endswith ".java" filepath); [|done]. simpl.
  destruct (Str.endswith ";" (Str.strip l)) eqn:E; simpl.
  - by rewrite E.
  - by rewrite endswith_app.
Qed.

Lemma parse_import_rendered (filepath l : string) (imp : import) :
  parse_import filepath l = Some imp →
  parse_import filepath (imp.2 +:+ Str.NL) = Some imp.
Proof.
  unfold parse_import. destruct (recognise l) as [sp|] eqn:E; [|done].
  intros [= <-]. cbn [snd].
  rewrite (recognise_rendered filepath l sp E). simpl.
  apply recognise_inv in E as [Hne _]. by rewrite render_rendered.
Qed.

Lemma parse_import_blank (filepath : string) :
  parse_import filepath (EmptyString +:+ Str.NL) = None.
Proof. reflexivity. Qed.

(** ** [sort_imports] on rearranged input *)

Lemma members_Permutation (g : string) (imports1 imports2 : list import) :
  imports1 ≡ₚ imports2 → members g imports1 ≡ₚ members g imports2.
Proof. intros H. unfold members. by rewrite H. Qed.

Lemma emitted_for_Permutation (b1 b2 : list (string * string)) :
  b1 ≡ₚ b2 → emitted_for b1 = emitted_for b2.
Proof.
  intros H. unfold emitted_for. destruct b1 as [|x1 b1], b2 as [|x2 b2].
  - done.
  - by apply Permutation_nil_l in H.
  - by apply Permutation_nil_r in H.
  - by rewrite (sorted_perm _ _ H).
Qed.

(** The sorted block depends on the imports, not on their order. *)
Lemma sort_imports_Permutation (imports1 imports2 : list import) :
  imports1 ≡ₚ imports2 → sort_imports imports1 = sort_imports imports2.
Proof.
  intros H. rewrite !sort_imports_unfold. do 2 f_equal.
  apply list_fmap_ext. intros _ g _.
  by apply emitted_for_Permutation, members_Permutation.
Qed.

Lemma join_blocks_head_nonblank (blocks : list (list string)) :
  Forall solid blocks → head (join_blocks blocks) ≠ Some EmptyString.
Proof.
  intros H. destruct H as [|b rest Hb _]; [done|].
  rewrite join_blocks_head by done. by apply solid_head.
Qed.

Lemma sort_imports_solid_blocks (imports : list import) :
  nonblank imports →
  Forall solid ((λ g, snd <$> sorted (members g imports)) <$>
                filter (λ g, members g imports ≠ []) group_order).
Proof.
  intros Hnb. apply Forall_fmap, Forall_forall.
  intros g [Hg _]%list_elem_of_filter. by apply block_solid.
Qed.

Lemma sort_imports_elem (imports : list import) (x : string) :
  nonblank imports → x ∈ sort_imports imports → x ≠ EmptyString →
  ∃ imp, imp ∈ imports ∧ x = imp.2.
Proof.
  intros Hnb Hin Hx.
  assert (Hf : x ∈ filter (λ s, s ≠ EmptyString) (sort_imports imports)).
  { by apply list_elem_of_filter. }
  rewrite sort_imports_lines in Hf by done.
  apply list_elem_of_fmap in Hf as (imp & -> & Himp). eauto.
Qed.

Lemma sort_imports_nonempty (imports : list import) :
  nonblank imports → imports ≠ [] → sort_imports imports ≠ [].
Proof.
  intros Hnb Hne E. pose proof (sort_imports_lines imports Hnb) as Hp.
  rewrite E, filter_nil in Hp. symmetry in Hp.
  apply Permutation_nil_r, fmap_nil_inv in Hp. done.
Qed.

(** The sorted block starts and ends with the line of an import. *)
Lemma sort_imports_first (imports : list import) :
  nonblank imports → imports ≠ [] →
  ∃ imp rest, sort_imports imports = imp.2 :: rest ∧ imp ∈ imports.
Proof.
  intros Hnb Hne. destruct (sort_imports imports) as [|x rest] eqn:E.
  { by apply sort_imports_nonempty in E. }
  assert (Hx : x ≠ EmptyString).
  { pose proof (join_blocks_head_nonblank _ (sort_imports_solid_blocks imports Hnb)) as Hh.
    rewrite <- sort_imports_blocks, E in Hh by done. simpl in Hh. congruence. }
  destruct (sort_imports_elem imports x Hnb) as (imp & Himp & ->); [|done|].
  { rewrite E. apply list_elem_of_here. }
  by exists imp, rest.
Qed.

Lemma sort_imports_last (imports : list import) :
  nonblank imports → imports ≠ [] →
  ∃ imp rest, sort_imports imports = rest ++ [imp.2] ∧ imp ∈ imports.
Proof.
  intros Hnb Hne. destruct (last (sort_imports imports)) as [x|] eqn:E.
  2:{ apply last_None in E. by apply sort_imports_nonempty in E. }
  assert (Hx : x ≠ EmptyString).
  { pose proof (join_blocks_last _ (sort_imports_solid_blocks imports Hnb)) as Hh.
    rewrite <- sort_imports_blocks, E in Hh by done. congruence. }
  apply last_Some in E as [rest E].
  destruct (sort_imports_elem imports x Hnb) as (imp & Himp & ->); [|done|].
  { rewrite E. apply elem_of_app. right. apply list_elem_of_here. }
  by exists imp, rest.
Qed.

(** Reading the written block again gives the imports back, rearranged. *)
Lemma omap_drop_blank {A} (f : string → option A) (l : list string) :
  f EmptyString = None →
  omap f l = omap f (filter (λ s, s ≠ EmptyString) l).
Proof.
  intros Hf. induction l as [|x l IH]; [done|].
  rewrite filter_cons. case_decide as Hx.
  - cbn [omap list_omap]. fold (omap f l). fold (omap f (filter (λ s, s ≠ EmptyString) l)).
    by rewrite IH.
  - subst x. cbn [omap list_omap]. rewrite Hf.
    exact IH.
Qed.

Lemma omap_fmap_compose {A B C} (f : B → option C) (g : A → B) (l : list A) :
  omap f (g <$> l) = omap (f ∘ g) l.
Proof.
  induction l as [|x l IH]; [done|]. csimpl. rewrite IH. done.
Qed.

Lemma omap_parse_block (filepath : string) (lines : list string) :
  omap (parse_import filepath) (import_block filepath lines) ≡ₚ
  omap (parse_import filepath) lines.
Proof.
  unfold import_block. set (recs := omap (parse_import filepath) lines).
  assert (Hre : ∀ imp, imp ∈ recs → parse_import filepath (imp.2 +:+ Str.NL) = Some imp).
  { intros imp (l & _ & Hl)%list_elem_of_omap. by apply (parse_import_rendered _ l). }
  rewrite omap_fmap_compose.
  rewrite (omap_drop_blank (parse_import filepath ∘ (λ s, s +:+ Str.NL)))
    by apply parse_import_blank.
  rewrite sort_imports_lines by apply parse_import_nonblank.
  fold recs. clearbody recs.
  induction recs as [|imp recs IH]; [done|].
  csimpl. rewrite (Hre imp) by apply list_elem_of_here. csimpl.
  f_equiv. apply IH. intros imp' Hin. apply Hre. by apply list_elem_of_further.
Qed.

(** ** A second run over a written file *)

Lemma not_substantive_skipped (l : string) :
  substantive l = false → skipped (Str.strip l) = true.
Proof.
  unfold substantive, skipped. destruct (Str.nonempty _); [|done]. simpl.
  by destruct (Str.startswith _ _).
Qed.

Lemma skipped_recognise (l : string) : skipped (Str.strip l) = true → recognise l = None.
Proof. intros H. unfold recognise. by rewrite H. Qed.

Lemma skipped_not_package (l : string) :
  skipped (Str.strip l) = true → is_package_line l = false.
Proof. intros H. unfold is_package_line. by rewrite H. Qed.

Lemma recognised_not_package (l : string) :
  is_Some (recognise l) → is_package_line l = false.
Proof.
  unfold recognise, is_package_line. destruct (skipped _); [done|]. simpl.
  case_bool_decide; [by intros [? [=]]|done].
Qed.

Lemma omap_parse_import_app_nil (filepath : string) (l1 l2 l3 : list string) :
  Forall (λ l, recognise l = None) l1 → Forall (λ l, recognise l = None) l3 →
  omap (parse_import filepath) (l1 ++ l2 ++ l3) = omap (parse_import filepath) l2.
Proof.
  intros H1 H3. rewrite !omap_app.
  rewrite (omap_parse_import_nil _ l1 H1), (omap_parse_import_nil _ l3 H3).
  by rewrite app_nil_r.
Qed.

Lemma kept_comments_again (comments : list string) :
  Forall (λ l, substantive l = false ∧ Str.nonempty (Str.strip l) = true) comments →
  kept_comments (comments ++ [Str.NL]) = comments.
Proof.
  intros H. unfold kept_comments. rewrite filter_app. simpl.
  rewrite app_nil_r. induction H as [|l ls [_ Hl] _ IH]; [done|].
  by rewrite filter_cons, decide_True, IH.
Qed.

Lemma tail_none (comments body : list string) :
  Forall (λ l, substantive l = false ∧ Str.nonempty (Str.strip l) = true) comments →
  Forall (λ l, recognise l = None) body →
  Forall (λ l, recognise l = None) (comments ++ [Str.NL] ++ body).
Proof.
  intros Hc Hb. apply Forall_app. split.
  - eapply Forall_impl; [exact Hc|]. intros l [Hl _].
    by apply skipped_recognise, not_substantive_skipped.
  - by apply Forall_cons.
Qed.

Section second_run.
Variable filepath : string.
(** The lines kept from the top, the import block, the comment lines
    kept after it, and the body. *)
Variables K S C B : list string.
Hypothesis K_none : Forall (λ l, recognise l = None) K.
Hypothesis S_first : ∃ s S', S = s :: S' ∧ is_Some (recognise s).
Hypothesis S_last : ∃ S' s, S = S' ++ [s] ∧ is_Some (recognise s).
Hypothesis C_comments :
  Forall (λ l, substantive l = false ∧ Str.nonempty (Str.strip l) = true) C.
Hypothesis B_none : Forall (λ l, recognise l = None) B.
Hypothesis B_head : ∀ l, head B = Some l → substantive l = true.

Let written : list string := K ++ S ++ C ++ [Str.NL] ++ B.

Lemma second_imports :
  omap (parse_import filepath) written = omap (parse_import filepath) S.
Proof using All.
  unfold written. apply omap_parse_import_app_nil; [done|by apply tail_none].
Qed.

Lemma second_indices : import_indices 0 written = import_indices (length K) S.
Proof using All.
  unfold written. rewrite (import_indices_app _ K), (import_indices_app _ S).
  rewrite (import_indices_none _ K K_none).
  rewrite (import_indices_none _ (C ++ [Str.NL] ++ B) (tail_none C B C_comments B_none)).
  by rewrite app_nil_r.
Qed.

Lemma second_first : head (import_indices 0 written) = Some (length K).
Proof using All.
  rewrite second_indices. destruct S_first as (s & S' & -> & [sp Hs]).
  simpl. by rewrite Hs.
Qed.

Lemma second_last :
  last (import_indices 0 written) = Some (length K + length S - 1).
Proof using All.
  rewrite second_indices. destruct S_last as (S' & s & -> & [sp Hs]).
  rewrite import_indices_app. simpl. rewrite Hs. simpl.
  rewrite last_snoc, length_app. simpl. f_equal. lia.
Qed.

Lemma second_skip :
  leading_skippable (drop (length K + length S - 1 + 1) written) = C ++ [Str.NL].
Proof using All.
  assert (length S ≠ 0) by (destruct S_first as (s & S' & -> & _); done).
  replace (length K + length S - 1 + 1) with (length K + length S) by lia.
  unfold written. rewrite (assoc_L (++) K S), drop_app_length'
    by (by rewrite length_app).
  rewrite (assoc_L (++) C). apply leading_skippable_app; [|done].
  apply Forall_app. split; [|by repeat constructor].
  eapply Forall_impl; [exact C_comments|]. by intros l [? _].
Qed.

(** What the second run writes, up to the lines it keeps from the top. *)
Lemma second_written :
  process_file filepath written =
  Some ((if bool_decide (last_package 0 (-1) written ≠ (-1)%Z)
         then take (Z.to_nat (last_package 0 (-1) written + 1)) written ++ [Str.NL]
         else take (length K) written)
        ++ import_block filepath written ++ C ++ [Str.NL] ++ B).
Proof using All.
  rewrite process_file_unfold. cbv zeta.
  rewrite second_first, second_last. cbv [default from_option id].
  rewrite second_skip, (kept_comments_again C C_comments).
  rewrite bool_decide_false.
  2:{ rewrite second_imports. destruct S_first as (s & S' & -> & [sp Hs]).
      cbn [omap list_omap]. unfold parse_import at 1. by rewrite Hs. }
  do 5 f_equal.
  assert (length S ≠ 0) by (destruct S_first as (s & S' & -> & _); done).
  unfold written. rewrite (assoc_L (++) K S), (assoc_L (++) C), (assoc_L (++) (K ++ S)).
  apply drop_app_length'. rewrite !length_app. simpl. lia.
Qed.
End second_run.

(** ** Lines and text *)

Lemma readlines_wf (content : string) : lines_wf (readlines content).
Proof.
  induction content as [|c rest IH]; [constructor|]. cbn [readlines].
  destruct (c =? Char.newline)%char eqn:Ec.
  - apply lines_wf_cons; [done|exact IH].
  - destruct (readlines rest) as [|line lines]; [|inversion IH; subst].
    + apply lines_wf_last. unfold partial_line, no_newline. simpl. by rewrite Ec.
    + apply lines_wf_last. unfold partial_line, no_newline in *. simpl. rewrite Ec.
      simpl. by apply andb_true_iff in H0 as [_ ?].
    + apply lines_wf_cons; [|done]. simpl. by rewrite Ec.
Qed.

Lemma readlines_full_app (l rest : string) :
  full_line l = true → readlines (l +:+ rest) = l :: readlines rest.
Proof.
  induction l as [|c s IH]; [done|]. rewrite str_app_cons. cbn [readlines full_line].
  destruct (Ascii.eqb_spec c Char.newline) as [->|Hc].
  - destruct s; [done|discriminate].
  - intros Hs. by rewrite (IH Hs).
Qed.

Lemma readlines_partial (l : string) : partial_line l = true → readlines l = [l].
Proof.
  unfold partial_line, no_newline. induction l as [|c s IH]; [done|].
  simpl. intros [Hc Hs]%andb_true_iff. destruct (c =? Char.newline)%char; [done|].
  destruct s as [|c' s']; [done|]. by rewrite IH.
Qed.

Lemma readlines_writelines (lines : list string) :
  lines_wf lines → readlines (writelines lines) = lines.
Proof.
  induction 1 as [|l Hl|l ls Hl _ IH]; [done| |].
  - unfold writelines. simpl. rewrite str_app_nil_r. by apply readlines_partial.
  - unfold writelines in *. simpl. by rewrite readlines_full_app, IH.
Qed.

Lemma lines_wf_app (l1 l2 : list string) :
  Forall (λ l, full_line l = true) l1 → lines_wf l2 → lines_wf (l1 ++ l2).
Proof. induction 1; simpl; [done|]. intros. by apply lines_wf_cons; auto. Qed.

Lemma lines_wf_drop (n : nat) (lines : list string) :
  lines_wf lines → lines_wf (drop n lines).
Proof.
  intros H. revert n. induction H as [|l Hl|l ls Hl Hls IH]; intros n.
  - rewrite drop_nil. constructor.
  - destruct n; simpl; [by constructor|]. rewrite drop_nil. constructor.
  - destruct n; simpl; [by constructor|]. apply IH.
Qed.

Lemma lines_wf_take (n : nat) (lines : list string) :
  lines_wf lines → n < length lines → Forall (λ l, full_line l = true) (take n lines).
Proof.
  intros H. revert n. induction H as [|l Hl|l ls Hl Hls IH]; intros n Hn.
  - simpl in Hn. lia.
  - simpl in Hn. replace n with 0 by lia. constructor.
  - destruct n; simpl; constructor; [done|]. apply IH. simpl in Hn. lia.
Qed.

Lemma lines_wf_elem (lines : list string) (l : string) :
  lines_wf lines → l ∈ lines → full_line l = true ∨ partial_line l = true.
Proof.
  induction 1 as [|l' Hl|l' ls Hl _ IH].
  - by intros ?%elem_of_nil.
  - intros ->%list_elem_of_singleton. by right.
  - intros [->|Hin]%elem_of_cons; [by left|by apply IH].
Qed.

Lemma no_newline_endswith (l : string) :
  no_newline l = true → Str.endswith Str.NL l = false.
Proof.
  unfold no_newline. induction l as [|c s IH]; [done|]. cbn [all_chars Str.endswith].
  intros [Hc Hs]%andb_true_iff. rewrite (IH Hs), orb_false_r.
  apply String.eqb_neq. intros [= -> _]. done.
Qed.

Lemma full_line_of_endswith (lines : list string) (l : string) :
  lines_wf lines → l ∈ lines → Str.endswith Str.NL l = true → full_line l = true.
Proof.
  intros Hwf Hin He. destruct (lines_wf_elem _ _ Hwf Hin) as [?|Hp]; [done|].
  apply andb_true_iff in Hp as [_ Hn]. apply no_newline_endswith in Hn. congruence.
Qed.

Lemma no_newline_app (s t : string) :
  no_newline s = true → no_newline t = true → no_newline (s +:+ t) = true.
Proof.
  unfold no_newline. induction s as [|c s IH]; [done|]. rewrite str_app_cons. simpl.
  intros [Hc Hs]%andb_true_iff Ht. rewrite Hc. simpl. by apply IH.
Qed.

Lemma full_line_app_NL (s : string) : no_newline s = true → full_line (s +:+ Str.NL) = true.
Proof.
  unfold no_newline. induction s as [|c s IH]; [done|]. rewrite str_app_cons. simpl.
  intros [Hc Hs]%andb_true_iff. destruct (c =? Char.newline)%char; [done|]. by apply IH.
Qed.

Lemma no_newline_lstrip (s : string) : no_newline s = true → no_newline (Str.lstrip s) = true.
Proof.
  unfold no_newline. induction s as [|c s IH]; [done|]. simpl.
  intros [Hc Hs]%andb_true_iff. destruct (Char.isspace c); [by apply IH|].
  simpl. by rewrite Hc, Hs.
Qed.

Lemma no_newline_rstrip_partial (s : string) :
  no_newline s = true → no_newline (Str.rstrip s) = true.
Proof.
  unfold no_newline. induction s as [|c s IH]; [done|]. cbn [all_chars Str.rstrip].
  intros [Hc Hs]%andb_true_iff. specialize (IH Hs).
  destruct (Str.rstrip s) as [|c' r].
  - destruct (Char.isspace c); [done|]. simpl. by rewrite Hc.
  - cbn [all_chars] in *. by rewrite Hc, IH.
Qed.

Lemma no_newline_rstrip_full (s : string) :
  full_line s = true → no_newline (Str.rstrip s) = true.
Proof.
  unfold no_newline. induction s as [|c s IH]; [done|]. cbn [full_line Str.rstrip].
  destruct (Ascii.eqb_spec c Char.newline) as [->|Hc].
  - destruct s; [done|discriminate].
  - intros Hs. specialize (IH Hs).
    assert (Hc' : negb (c =? Char.newline)%char = true).
    { apply negb_true_iff. by apply Ascii.eqb_neq. }
    destruct (Str.rstrip s) as [|c' r].
    + destruct (Char.isspace c); [done|]. simpl. by rewrite Hc'.
    + cbn [all_chars] in *. by rewrite Hc', IH.
Qed.

Lemma no_newline_render (filepath l : string) :
  full_line l = true ∨ partial_line l = true → no_newline (render filepath l) = true.
Proof.
  intros Hl.
  assert (Hs : no_newline (Str.strip l) = true).
  { apply no_newline_lstrip. destruct Hl as [?|[_ ?]%andb_true_iff];
      [by apply no_newline_rstrip_full|by apply no_newline_rstrip_partial]. }
  unfold render. destruct (_ && _); [|done]. by apply no_newline_app.
Qed.

(** ** The written import block *)

Lemma import_block_elem (filepath : string) (lines : list string) (x : string) :
  x ∈ import_block filepath lines →
  x = Str.NL ∨
  ∃ l imp, l ∈ lines ∧ parse_import filepath l = Some imp ∧ x = imp.2 +:+ Str.NL.
Proof.
  unfold import_block. intros (y & -> & Hy)%list_elem_of_fmap.
  destruct (decide (y = EmptyString)) as [->|Hne]; [by left|right].
  destruct (sort_imports_elem _ y (parse_import_nonblank filepath lines) Hy Hne)
    as (imp & Himp & ->).
  apply list_elem_of_omap in Himp as (l & Hl & Hp). eauto.
Qed.

Lemma parse_import_recognised (filepath l : string) (imp : import) :
  parse_import filepath l = Some imp → is_Some (recognise l).
Proof. unfold parse_import. destruct (recognise l); [eauto|done]. Qed.

Lemma parse_import_line (filepath l : string) (imp : import) :
  parse_import filepath l = Some imp → imp.2 = render filepath l.
Proof. unfold parse_import. destruct (recognise l); [|done]. by intros [= <-]. Qed.

Lemma import_block_not_package (filepath : string) (lines : list string) :
  Forall (λ l, is_package_line l = false) (import_block filepath lines).
Proof.
  apply Forall_forall. intros x [->|(l & imp & _ & Hp & ->)]%import_block_elem; [done|].
  apply recognised_not_package.
  eapply parse_import_recognised, parse_import_rendered, Hp.
Qed.

Lemma import_block_full (filepath : string) (lines : list string) :
  lines_wf lines → Forall (λ l, full_line l = true) (import_block filepath lines).
Proof.
  intros Hwf. apply Forall_forall.
  intros x [->|(l & imp & Hl & Hp & ->)]%import_block_elem; [done|].
  apply full_line_app_NL. rewrite (parse_import_line _ _ _ Hp).
  apply no_newline_render. by eapply lines_wf_elem.
Qed.

Lemma import_block_first (filepath : string) (lines : list string) :
  omap (parse_import filepath) lines ≠ [] →
  ∃ s rest, import_block filepath lines = s :: rest ∧ is_Some (recognise s).
Proof.
  intros Hne.
  destruct (sort_imports_first _ (parse_import_nonblank filepath lines) Hne)
    as (imp & rest & E & Himp).
  unfold import_block. rewrite E. csimpl. eexists _, _. split; [done|].
  apply list_elem_of_omap in Himp as (l & _ & Hp).
  eapply parse_import_recognised, parse_import_rendered, Hp.
Qed.

Lemma import_block_last (filepath : string) (lines : list string) :
  omap (parse_import filepath) lines ≠ [] →
  ∃ rest s, import_block filepath lines = rest ++ [s] ∧ is_Some (recognise s).
Proof.
  intros Hne.
  destruct (sort_imports_last _ (parse_import_nonblank filepath lines) Hne)
    as (imp & rest & E & Himp).
  unfold import_block. rewrite E, fmap_app. csimpl. eexists _, _. split; [done|].
  apply list_elem_of_omap in Himp as (l & _ & Hp).
  eapply parse_import_recognised, parse_import_rendered, Hp.
Qed.

(** The block of a file that starts with the written block, between lines
    without imports, is that block. *)
Lemma import_block_again (filepath : string) (lines K T : list string) :
  Forall (λ l, recognise l = None) K → Forall (λ l, recognise l = None) T →
  import_block filepath (K ++ import_block filepath lines ++ T) =
  import_block filepath lines.
Proof.
  intros HK HT. unfold import_block at 1 3. f_equal.
  apply sort_imports_Permutation.
  rewrite omap_parse_import_app_nil by done. apply omap_parse_block.
Qed.

(** ** The lines kept from the top *)

Lemma last_package_take (lines : list string) (p : nat) (l : string) (found : Z) :
  lines !! p = Some l → is_package_line l = true →
  last_package 0 found (take (S p) lines) = Z.of_nat p.
Proof.
  intros Hp Hl. rewrite (take_S_r _ _ _ Hp), last_package_app. simpl.
  rewrite Hl. f_equal. rewrite length_take_le; [lia|].
  apply lookup_lt_Some in Hp. lia.
Qed.

(** ** Idempotence *)

(** The comment lines kept after the imports are lines of the rest of the
    file, and none is blank or substantive. *)
Lemma kept_comments_spec (rest : list string) :
  Forall (λ l, substantive l = false ∧ Str.nonempty (Str.strip l) = true)
         (kept_comments (leading_skippable rest)) ∧
  (∀ l, l ∈ kept_comments (leading_skippable rest) → l ∈ rest).
Proof.
  split.
  - apply Forall_forall. intros l [Hl Hin]%list_elem_of_filter. split; [|done].
    by apply (proj1 (Forall_forall _ _) (leading_skippable_Forall rest)).
  - intros l [_ Hin]%list_elem_of_filter.
    rewrite (leading_skippable_split rest). apply elem_of_app. by left.
Qed.

(** A run over the lines a first run wrote writes them again. *)
Lemma second_run_fixpoint (filepath : string) (lines out : list string) :
  lines_wf lines →
  (∀ first, head (import_indices 0 lines) = Some first →
            (last_package 0 (-1) lines < Z.of_nat first)%Z) →
  Forall (λ l, Str.endswith Str.NL l = true)
    (kept_comments
       (leading_skippable (drop (default 0 (last (import_indices 0 lines)) + 1) lines))) →
  process_file filepath lines = Some out →
  lines_wf out ∧ process_file filepath out = Some out.
Proof.
  intros Hwf Hpkg Hnl. rewrite process_file_unfold.
  case_bool_decide as Himp; [done|]. cbv zeta. intros [= <-].
  pose proof Himp as Hidx. rewrite (omap_parse_import_indices _ _ 0) in Hidx.
  destruct (head (import_indices 0 lines)) as [first|] eqn:Hfirst;
    [|by apply head_None in Hfirst].
  destruct (last (import_indices 0 lines)) as [final|] eqn:Hfinal;
    [|by apply last_None in Hfinal].
  specialize (Hpkg first eq_refl).
  apply first_import_spec in Hfirst as (j & l1 & -> & Hl1 & Hr1 & Hbefore).
  apply last_import_spec in Hfinal as (k & l2 & -> & Hl2 & Hr2 & Hafter).
  cbv [default from_option id] in *. cbn [Nat.add] in *.
  replace (k + 1) with (S k) in * by lia.
  assert (Hjk : j ≤ k).
  { destruct (decide (j ≤ k)) as [|Hn]; [done|].
    assert (Hin : l2 ∈ take j lines) by (apply elem_of_take; exists k; split; [done|lia]).
    apply (proj1 (Forall_forall _ _) Hbefore) in Hin. destruct Hr2 as [? Hr2]. congruence. }
  assert (Hj : j < length lines) by (by apply lookup_lt_Some in Hl1).
  destruct (kept_comments_spec (drop (S k) lines)) as [HC HCin].
  set (skip := leading_skippable (drop (S k) lines)) in *.
  set (C := kept_comments skip) in *.
  set (B := drop (S k + length skip) lines).
  assert (HBdrop : B = drop (length skip) (drop (S k) lines)).
  { unfold B. by rewrite drop_drop. }
  assert (HBnone : Forall (λ l, recognise l = None) B).
  { rewrite HBdrop. by apply Forall_drop. }
  assert (HBhead : ∀ l, head B = Some l → substantive l = true).
  { rewrite HBdrop. apply leading_skippable_next. }
  assert (HCfull : Forall (λ l, full_line l = true) C).
  { apply Forall_forall. intros l Hl.
    apply (full_line_of_endswith lines); [done| |].
    - apply HCin in Hl. eapply elem_of_sublist; [exact Hl|apply sublist_drop].
    - by apply (proj1 (Forall_forall _ _) Hnl). }
  assert (Htail_wf : lines_wf (C ++ [Str.NL] ++ B)).
  { apply lines_wf_app; [done|]. apply (lines_wf_app [Str.NL]); [by repeat constructor|].
    by apply lines_wf_drop. }
  assert (Hrest_pkg : ∀ p, p ≤ k →
            Forall (λ l, is_package_line l = false) (drop (S p) lines) →
            Forall (λ l, is_package_line l = false)
                   (import_block filepath lines ++ C ++ [Str.NL] ++ B)).
  { intros p Hp Hafterp.
    assert (Hk : Forall (λ l, is_package_line l = false) (drop (S k) lines)).
    { replace (S k) with (S p + (k - p)) by lia. rewrite <- drop_drop.
      by apply Forall_drop. }
    apply Forall_app. split; [apply import_block_not_package|].
    apply Forall_app. split.
    - apply Forall_forall. intros l Hl%HCin. by apply (proj1 (Forall_forall _ _) Hk).
    - apply Forall_cons. split; [done|]. rewrite HBdrop. by apply Forall_drop. }
  change (Str.NL :: B) with ([Str.NL] ++ B).
  destruct (last_package_cases 0 (-1) lines)
    as [[Hnone Hp]|(p & l & Hpl & Hl & Hlast & Hp)]; rewrite Hp in *.
  - (* no package line *)
    rewrite bool_decide_false by (by intros []).
    set (K := take j lines).
    assert (HKlen : length K = j) by (unfold K; rewrite length_take; lia).
    split.
    { apply lines_wf_app; [by apply lines_wf_take|].
      apply lines_wf_app; [by apply import_block_full|done]. }
    rewrite (second_written filepath K (import_block filepath lines) C B);
      [|done|by apply import_block_first|by apply import_block_last|done..].
    rewrite import_block_again;
      [|done|by apply tail_none].
    rewrite last_package_none.
    2:{ apply Forall_app. split; [by apply Forall_take|].
        apply (Hrest_pkg 0); [lia|]. by apply Forall_drop. }
    rewrite bool_decide_false by (by intros []).
    by rewrite take_app_length.
  - (* a package line at [p], before the first import *)
    assert (Hpj : p < j) by lia.
    rewrite bool_decide_true by lia.
    replace (Z.to_nat (Z.of_nat (0 + p) + 1)) with (S p) by lia.
    set (K := take (S p) lines ++ [Str.NL]).
    assert (Htlen : length (take (S p) lines) = S p) by (rewrite length_take; lia).
    assert (HKnone : Forall (λ l, recognise l = None) K).
    { apply Forall_app. split; [|by repeat constructor].
      replace (take (S p) lines) with (take (S p) (take j lines))
        by (rewrite take_take; f_equal; lia).
      by apply Forall_take. }
    split.
    { apply lines_wf_app.
      - apply Forall_app. split; [apply lines_wf_take; [done|lia]|by repeat constructor].
      - apply lines_wf_app; [by apply import_block_full|done]. }
    rewrite (second_written filepath K (import_block filepath lines) C B);
      [|done|by apply import_block_first|by apply import_block_last|done..].
    rewrite import_block_again; [|done|by apply tail_none].
    assert (Hpkg' : last_package 0 (-1)
              (K ++ import_block filepath lines ++ C ++ [Str.NL] ++ B) = Z.of_nat p).
    { rewrite last_package_app, (last_package_none _ _ _ (Hrest_pkg p ltac:(lia) Hlast)).
      unfold K. rewrite last_package_app. simpl.
      by apply (last_package_take lines p l). }
    rewrite Hpkg'. rewrite bool_decide_true by lia.
    replace (Z.to_nat (Z.of_nat p + 1)) with (S p) by lia.
    do 2 f_equal. unfold K. rewrite <- !app_assoc.
    by rewrite <- Htlen at 1; rewrite take_app_length.
Qed.

(** C9, as stated, fails.  The comment that ends the first file gets its
    newline only in the first run, so the second run adds the blank line the
    first one could not; in the second file every run copies the import
    once more. *)
Lemma transform_not_idempotent :
  transform "A.kt" trailing_comment_file =
    "import a.B;" +:+ Str.NL +:+ "// c" +:+ Str.NL ∧
  transform "A.kt" (transform "A.kt" trailing_comment_file) =
    "import a.B;" +:+ Str.NL +:+ "// c" +:+ Str.NL +:+ Str.NL ∧
  transform "A.kt" (transform "A.kt" trailing_comment_file) ≠
    transform "A.kt" trailing_comment_file ∧
  transform "A.kt" (transform "A.kt" late_package_file) ≠
    transform "A.kt" late_package_file.
Proof.
  split; [by vm_compute|]. split; [by vm_compute|].
  split; by vm_compute.
Qed.

(** C9, amended.  The transformation is idempotent on every file in which
    a package line, if there is one, stands before the first import line,
    and in which every comment line kept after the last import ends in a
    newline (the file does not end in such a comment without a final
    newline): transforming its output again changes nothing. *)
Theorem transform_idempotent (filepath content : string) :
  let lines := readlines content in
  let st := scan_lines filepath scan_init 0 lines in
  let final := default 0 (last (import_lines st)) in
  (∀ first, head (import_lines st) = Some first →
            (package_idx st < Z.of_nat first)%Z) →
  Forall (λ l, Str.endswith Str.NL l = true)
         (skip_trailing (drop (final + 1) lines) (final + 1) []).2 →
  transform filepath (transform filepath content) = transform filepath content.
Proof.
  intros lines st final Hpkg Hnl. unfold transform. fold lines.
  destruct (process_file filepath lines) as [out|] eqn:E.
  - destruct (second_run_fixpoint filepath lines out) as [Hwf Hfix].
    + apply readlines_wf.
    + intros first Hfirst. unfold st in Hpkg.
      rewrite scan_import_lines, scan_package_idx in Hpkg. by apply Hpkg.
    + unfold final, st in Hnl.
      rewrite scan_import_lines, skip_trailing_spec in Hnl. exact Hnl.
    + exact E.
    + by rewrite (readlines_writelines out Hwf), Hfix.
  - fold lines. by rewrite E.
Qed.

Lemma transform_idempotent_witness :
  (∀ first,
     head (import_lines (scan_lines "A.java" scan_init 0 (readlines organised_file)))
       = Some first →
     (package_idx (scan_lines "A.java" scan_init 0 (readlines organised_file))
        < Z.of_nat first)%Z) ∧
  Forall (λ l, Str.endswith Str.NL l = true)
    (skip_trailing
       (drop (default 0 (last (import_lines
                (scan_lines "A.java" scan_init 0 (readlines organised_file)))) + 1)
             (readlines organised_file))
       (default 0 (last (import_lines
                (scan_lines "A.java" scan_init 0 (readlines organised_file)))) + 1)
       []).2 ∧
  transform "A.java" (transform "A.java" organised_file) =
    transform "A.java" organised_file.
Proof.
  assert (H1 : ∀ first,
     head (import_lines (scan_lines "A.java" scan_init 0 (readlines organised_file)))
       = Some first →
     (package_idx (scan_lines "A.java" scan_init 0 (readlines organised_file))
        < Z.of_nat first)%Z).
  { intros first Hf. vm_compute in Hf. injection Hf as <-. by vm_compute. }
  assert (H2 : Forall (λ l, Str.endswith Str.NL l = true)
    (skip_trailing
       (drop (default 0 (last (import_lines
                (scan_lines "A.java" scan_init 0 (readlines organised_file)))) + 1)
             (readlines organised_file))
       (default 0 (last (import_lines
                (scan_lines "A.java" scan_init 0 (readlines organised_file)))) + 1)
       []).2).
  { repeat constructor. }
  split; [exact H1|]. split; [exact H2|].
  exact (transform_idempotent "A.java" organised_file H1 H2).
Defined.

Example organised_file_out :
  transform "A.java" organised_file =
  "package a;" +:+ Str.NL +:+ Str.NL +:+ "import android.view.View;" +:+ Str.NL
    +:+ Str.NL +:+ "import org.foo.Bar;" +:+ Str.NL +:+ "// c" +:+ Str.NL +:+ Str.NL
    +:+ "class A {}".
Proof. by vm_compute. Qed.


(** * Further properties *)

(** ** [sort_imports]: order of the input, size of the output *)

Lemma join_blocks_length (blocks : list (list string)) :
  blocks ≠ [] →
  length (join_blocks blocks) + 1 = length (mjoin blocks) + length blocks.
Proof.
  induction blocks as [|b rest IH]; [done|]. intros _.
  destruct rest as [|r rest].
  - simpl. rewrite app_nil_r. lia.
  - change (join_blocks (b :: r :: rest))
      with (b ++ EmptyString :: join_blocks (r :: rest)).
    change (mjoin (b :: r :: rest)) with (b ++ mjoin (r :: rest)).
    rewrite !length_app. cbn [length]. specialize (IH ltac:(done)).
    cbn [length] in IH. lia.
Qed.

Lemma join_blocks_filter (blocks : list (list string)) :
  Forall solid blocks →
  filter (λ s, s ≠ EmptyString) (join_blocks blocks) = mjoin blocks.
Proof.
  induction 1 as [|b rest [_ Hb] Hrest IH]; [done|].
  destruct rest as [|r rest].
  - simpl. rewrite app_nil_r. by apply filter_nonblank_id.
  - change (join_blocks (b :: r :: rest))
      with (b ++ EmptyString :: join_blocks (r :: rest)).
    rewrite filter_app, filter_cons, decide_False by naive_solver.
    rewrite IH, filter_nonblank_id by done. done.
Qed.

Lemma join_single {A} (f : string → list A) (keys : list string) (k : string) :
  NoDup keys → k ∈ keys → (∀ g, g ≠ k → f g = []) → mjoin (f <$> keys) = f k.
Proof.
  intros Hnd Hk Hf. induction Hnd as [|g keys Hg Hnd IH]; [by apply elem_of_nil in Hk|].
  csimpl. apply elem_of_cons in Hk as [->|Hk].
  - assert (mjoin (f <$> keys) = []) as ->; [|by rewrite app_nil_r].
    apply join_nil_2, Forall_fmap, Forall_forall. intros g' Hg'. apply Hf.
    intros ->. done.
  - rewrite (Hf g), IH by (done || by intros ->). done.
Qed.

(** X1. The block [sort_imports] returns does not depend on the order in
    which the imports are given: rearranging its input leaves its output
    unchanged. *)
Theorem sort_imports_order_independent (imports1 imports2 : list import) :
  imports1 ≡ₚ imports2 → sort_imports imports1 = sort_imports imports2.
Proof.
  intros Hperm. rewrite !sort_imports_unfold. f_equal. f_equal.
  apply list_fmap_ext. intros _ g _.
  apply emitted_for_Permutation. unfold members. by rewrite Hperm.
Qed.

Lemma sort_imports_order_independent_witness :
  reverse scenario1_imports ≡ₚ scenario1_imports ∧
  sort_imports (reverse scenario1_imports) = sort_imports scenario1_imports.
Proof.
  split; [apply reverse_Permutation|].
  apply (sort_imports_order_independent (reverse scenario1_imports) scenario1_imports).
  apply reverse_Permutation.
Defined.

(** X2. For a single import with a non-empty line, [sort_imports] returns
    just that line, whatever its group: no separator is left. *)
Theorem sort_imports_single (is_static : bool) (path line : string) :
  line ≠ EmptyString → sort_imports [(is_static, path, line)] = [line].
Proof.
  intros Hline. rewrite sort_imports_unfold.
  set (imp := (is_static, path, line)).
  rewrite (join_single (λ g, emitted_for (members g [imp])) group_order (bucket_key imp)).
  - unfold members. rewrite filter_cons, decide_True, filter_nil by done.
    simpl. by destruct (String.eqb_spec line EmptyString).
  - apply group_order_NoDup.
  - apply bucket_key_in_order.
  - intros g Hg. unfold members. rewrite filter_cons, decide_False, filter_nil by done.
    done.
Qed.

Lemma sort_imports_single_witness :
  "import a.B;" ≠ EmptyString ∧
  sort_imports [(false, "a.B", "import a.B;")] = ["import a.B;"].
Proof.
  split; [discriminate|].
  apply (sort_imports_single false "a.B" "import a.B;"). discriminate.
Defined.

(** X3. For imports with non-empty lines, at least one of them, the block
    has one line per import and one separator less than there are
    non-empty groups. *)
Theorem sort_imports_length (imports : list import) :
  nonblank imports → imports ≠ [] →
  length (sort_imports imports) + 1 =
  length imports + length (filter (λ g, members g imports ≠ []) group_order).
Proof.
  intros Hnb Hne.
  pose proof (sort_imports_solid_blocks imports Hnb) as Hsolid.
  pose proof (sort_imports_lines imports Hnb) as Hlines.
  rewrite sort_imports_blocks in Hlines |- * by done.
  rewrite join_blocks_filter in Hlines by done.
  apply Permutation_length in Hlines. rewrite length_fmap in Hlines.
  rewrite join_blocks_length.
  - by rewrite Hlines, length_fmap.
  - intros E. rewrite E in Hlines. simpl in Hlines. by destruct imports.
Qed.

Lemma sort_imports_length_witness :
  nonblank scenario1_imports ∧ scenario1_imports ≠ [] ∧
  length (sort_imports scenario1_imports) + 1 =
  length scenario1_imports
    + length (filter (λ g, members g scenario1_imports ≠ []) group_order).
Proof.
  split; [exact scenario1_nonblank|]. split; [discriminate|].
  apply (sort_imports_length scenario1_imports scenario1_nonblank). discriminate.
Defined.

(** X4. Imports of one group that have the same path are ordered by their
    line text: [sorted] compares the whole [(path, line)] tuple. *)
Theorem sort_imports_tie_break (imports : list import) :
  nonblank imports →
  ∃ order : list (string * (string * string)),
    (λ e, e.2.2) <$> order = filter (λ s, s ≠ EmptyString) (sort_imports imports) ∧
    order ≡ₚ (λ imp, (bucket_key imp, item_of imp)) <$> imports ∧
    ∀ i j e1 e2, i < j → order !! i = Some e1 → order !! j = Some e2 →
                 e1.1 = e2.1 → e1.2.1 = e2.2.1 →
                 String.leb e1.2.2 e2.2.2 = true.
Proof.
  intros Hnb. exists (emitted imports).
  split; [by apply emitted_lines|]. split; [apply emitted_Permutation|].
  intros i j e1 e2 Hij Hi Hj Hkey Hpath.
  pose proof (StronglySorted_lookup_lt _ _ i j _ _ (emitted_by_path imports)
                Hij Hi Hj Hkey) as Hle.
  unfold tuple_le, tuple_leb in Hle. rewrite Hpath in Hle.
  assert ((e2.2.1 ?= e2.2.1)%string = Eq) as E; [|by rewrite E in Hle].
  destruct (e2.2.1 ?= e2.2.1)%string eqn:Hc; [done|..].
  - pose proof (String.compare_antisym e2.2.1 e2.2.1) as Ha. rewrite Hc in Ha. done.
  - pose proof (String.compare_antisym e2.2.1 e2.2.1) as Ha. rewrite Hc in Ha. done.
Qed.

Lemma sort_imports_tie_break_witness :
  nonblank [(false, "a.B", "import a.B; // two"); (false, "a.B", "import a.B;")] ∧
  sort_imports [(false, "a.B", "import a.B; // two"); (false, "a.B", "import a.B;")] =
    ["import a.B;"; "import a.B; // two"] ∧
  ∃ order : list (string * (string * string)),
    (λ e, e.2.2) <$> order =
      filter (λ s, s ≠ EmptyString)
        (sort_imports [(false, "a.B", "import a.B; // two"); (false, "a.B", "import a.B;")]) ∧
    order ≡ₚ (λ imp, (bucket_key imp, item_of imp))
               <$> [(false, "a.B", "import a.B; // two"); (false, "a.B", "import a.B;")] ∧
    ∀ i j e1 e2, i < j → order !! i = Some e1 → order !! j = Some e2 →
                 e1.1 = e2.1 → e1.2.1 = e2.2.1 →
                 String.leb e1.2.2 e2.2.2 = true.
Proof.
  assert (Hnb : nonblank [(false, "a.B", "import a.B; // two");
                          (false, "a.B", "import a.B;")])
    by (repeat constructor; discriminate).
  split; [exact Hnb|]. split; [by vm_compute|].
  exact (sort_imports_tie_break _ Hnb).
Defined.

(** ** Recognised import lines *)

Lemma take_while_all (cls : ascii → bool) (s : string) :
  all_chars cls (take_while cls s) = true.
Proof.
  induction s as [|c s IH]; [done|]. simpl. destruct (cls c) eqn:E; [|done].
  simpl. by rewrite E, IH.
Qed.

Lemma take_while_nonempty (cls : ascii → bool) (s : string) :
  starts_with cls s = true → take_while cls s ≠ EmptyString.
Proof. destruct s as [|c s]; [done|]. simpl. by intros ->. Qed.

Lemma import_tail_Some (r path : string) :
  import_tail r = Some path →
  starts_with Char.isspace r = true ∧ path ≠ EmptyString ∧
  all_chars Char.isword_dot_star path = true.
Proof.
  unfold import_tail. destruct (starts_with Char.isspace r); [|done].
  destruct (starts_with Char.isword_dot_star _) eqn:E; [|done].
  intros [= <-]. split; [done|]. split; [by apply take_while_nonempty|].
  apply take_while_all.
Qed.

(** The two ways [IMPORT_RE] matches. *)
Lemma import_spec_inv (s g1 path : string) :
  import_spec s = Some (g1, path) →
  ∃ r1, s = "import" +:+ r1 ∧ starts_with Char.isspace r1 = true ∧
    ((g1 = "import" ∧ import_tail r1 = Some path) ∨
     (∃ r3, skip_while Char.isspace r1 = "static" +:+ r3 ∧
            g1 = "import" +:+ take_while Char.isspace r1 +:+ "static" ∧
            import_tail r3 = Some path)).
Proof.
  unfold import_spec.
  destruct (Str.drop_prefix "import" s) as [r1|] eqn:E1; [|done].
  apply drop_prefix_Some in E1 as ->. cbn [mbind option_bind].
  intros H. exists r1. split; [done|].
  destruct (starts_with Char.isspace r1) eqn:Es.
  - split; [done|].
    destruct (Str.drop_prefix "static" (skip_while Char.isspace r1)) as [r3|] eqn:E3.
    + apply drop_prefix_Some in E3. cbn [mbind option_bind] in H.
      destruct (import_tail r3) as [p3|] eqn:Et3; cbn [mbind option_bind] in H.
      * injection H as <- <-. right. by exists r3.
      * destruct (import_tail r1) as [p1|]; [|done]. injection H as <- <-. by left.
    + cbn [mbind option_bind] in H.
      destruct (import_tail r1) as [p1|]; [|done]. injection H as <- <-. by left.
  - destruct (import_tail r1) as [p1|] eqn:Et; [|done].
    apply import_tail_Some in Et as [Et _]. congruence.
Qed.

Lemma static_space (ws : string) :
  all_chars Char.isspace ws = true →
  "import" +:+ ws +:+ "static" = "import static" → ws = " ".
Proof.
  intros Hws [= H].
  destruct ws as [|c ws]; [done|]. rewrite str_app_cons in H. injection H as -> H.
  destruct ws as [|c' ws]; [done|]. rewrite str_app_cons in H. injection H as -> _.
  cbn [all_chars] in Hws. by vm_compute in Hws.
Qed.

Lemma import_spec_static (r path : string) :
  import_tail r = Some path →
  import_spec ("import static" +:+ r) = Some ("import static", path).
Proof.
  intros Ht. unfold import_spec.
  change ("import static" +:+ r)
    with ("import" +:+ String " " (String "s" ("tatic" +:+ r))).
  rewrite drop_prefix_app. cbn [mbind option_bind starts_with skip_while take_while].
  change (Char.isspace " ") with true. change (Char.isspace "s") with false.
  cbn iota. change (String "s" ("tatic" +:+ r)) with ("static" +:+ r).
  rewrite drop_prefix_app. cbn [mbind option_bind]. by rewrite Ht.
Qed.

(** X5. An import is recorded as static exactly when its stripped line
    starts with the text [import static], with one space, and white space
    and the path follow: with more or other white space between the two
    words, or with nothing but a path-like rest after them, it is recorded
    as an ordinary import. *)
Theorem static_import_literal (l : string) (is_static : bool) (path : string) :
  recognise l = Some (is_static, path) →
  (is_static = true ↔
   ∃ r, Str.strip l = "import static" +:+ r ∧ import_tail r = Some path).
Proof.
  intros [_ Hspec]%recognise_inv.
  destruct (import_spec (Str.strip l)) as [[g1 p]|] eqn:E; [|done].
  simpl in Hspec. injection Hspec as <- <-. split.
  - intros Hs%String.eqb_eq. subst g1.
    apply import_spec_inv in E as (r1 & Hl & _ & [[? _]|(r3 & Hr3 & Hg & Ht)]); [done|].
    symmetry in Hg. apply static_space in Hg; [|apply take_while_all].
    exists r3. split; [|done]. rewrite Hl.
    rewrite <- (take_skip_while Char.isspace r1), Hg, Hr3. done.
  - intros (r & Hl & Ht). rewrite Hl, (import_spec_static r p Ht) in E.
    by injection E as <-.
Qed.

Lemma static_import_literal_witness :
  recognise ("import  static a.B;" +:+ Str.NL) = Some (false, "a.B") ∧
  (false = true ↔
   ∃ r, Str.strip ("import  static a.B;" +:+ Str.NL) = "import static" +:+ r ∧
        import_tail r = Some "a.B").
Proof.
  assert (H : recognise ("import  static a.B;" +:+ Str.NL) = Some (false, "a.B"))
    by (by vm_compute).
  split; [exact H|].
  exact (static_import_literal _ false "a.B" H).
Defined.

(** X6. The stripped text of a recognised import line starts with [import]
    and a white-space character, and the recorded path is not empty and
    consists of word characters, dots and stars only. *)
Theorem recognised_line_shape (l : string) (is_static : bool) (path : string) :
  recognise l = Some (is_static, path) →
  (∃ c r, Str.strip l = "import" +:+ String c r ∧ Char.isspace c = true) ∧
  path ≠ EmptyString ∧ all_chars Char.isword_dot_star path = true.
Proof.
  intros [_ Hspec]%recognise_inv.
  destruct (import_spec (Str.strip l)) as [[g1 p]|] eqn:E; [|done].
  simpl in Hspec. injection Hspec as _ <-.
  apply import_spec_inv in E as (r1 & Hl & Hs & Hcase). split.
  - destruct r1 as [|c r]; [done|]. by exists c, r.
  - destruct Hcase as [[_ Ht]|(r3 & _ & _ & Ht)];
      by apply import_tail_Some in Ht as (_ & ? & ?).
Qed.

Lemma recognised_line_shape_witness :
  recognise ("  import foo.bar.*; // all" +:+ Str.NL) = Some (false, "foo.bar.*") ∧
  (∃ c r, Str.strip ("  import foo.bar.*; // all" +:+ Str.NL) = "import" +:+ String c r ∧
          Char.isspace c = true) ∧
  "foo.bar.*" ≠ EmptyString ∧ all_chars Char.isword_dot_star "foo.bar.*" = true.
Proof.
  assert (H : recognise ("  import foo.bar.*; // all" +:+ Str.NL)
              = Some (false, "foo.bar.*")) by (by vm_compute).
  split; [exact H|].
  exact (recognised_line_shape _ false "foo.bar.*" H).
Defined.

(** X7. The line recorded for an import, written out and scanned again, is
    recorded as the same import with the same text; in a [.java] file it
    ends in [;], so that no second terminator is ever added. *)
Theorem recorded_line_read_again (filepath l : string) (imp : import) :
  parse_import filepath l = Some imp →
  parse_import filepath (imp.2 +:+ Str.NL) = Some imp ∧
  (if Str.endswith ".java" filepath then Str.endswith ";" imp.2 = true
   else imp.2 = Str.strip l).
Proof.
  intros Hp. split; [by apply (parse_import_rendered filepath l)|].
  rewrite (parse_import_line _ _ _ Hp). unfold render.
  destruct (Str.endswith ".java" filepath); [|done]. simpl.
  destruct (Str.endswith ";" (Str.strip l)) eqn:E; simpl; [done|].
  apply endswith_app.
Qed.

Lemma recorded_line_read_again_witness :
  parse_import "A.java" ("  import com.b.X" +:+ Str.NL)
    = Some (false, "com.b.X", "import com.b.X;") ∧
  parse_import "A.java" ("import com.b.X;" +:+ Str.NL)
    = Some (false, "com.b.X", "import com.b.X;") ∧
  (if Str.endswith ".java" "A.java" then Str.endswith ";" "import com.b.X;" = true
   else "import com.b.X;" = Str.strip ("  import com.b.X" +:+ Str.NL)).
Proof.
  assert (H : parse_import "A.java" ("  import com.b.X" +:+ Str.NL)
              = Some (false, "com.b.X", "import com.b.X;")) by (by vm_compute).
  split; [exact H|].
  exact (recorded_line_read_again "A.java" _ _ H).
Defined.

(** ** Wildcard imports of a file *)

Lemma scan_step_star_imports filepath st idx line :
  star_imports (scan_step filepath st idx line) =
  star_imports st ++
  match recognise line with
  | Some sp => if Str.contains "*" sp.2 then [(Str.strip line, idx + 1)] else []
  | None => []
  end.
Proof.
  unfold scan_step, recognise, skipped.
  destruct (negb _ || _); [by rewrite app_nil_r|].
  case_bool_decide; [by rewrite app_nil_r|].
  destruct (re_match IMPORT_RE _); simpl; [|by rewrite app_nil_r].
  destruct (Str.contains _ _); [done|by rewrite app_nil_r].
Qed.

Lemma scan_star_imports filepath st idx lines :
  star_imports (scan_lines filepath st idx lines) =
  star_imports st ++ star_lines idx lines.
Proof.
  revert st idx. induction lines as [|line lines IH]; intros st idx; simpl.
  - by rewrite app_nil_r.
  - by rewrite IH, scan_step_star_imports, <- app_assoc.
Qed.

Lemma elem_of_star_lines (idx : nat) (lines : list string) (line : string) (n : nat) :
  (line, n) ∈ star_lines idx lines ↔
  ∃ i l sp, n = idx + i + 1 ∧ lines !! i = Some l ∧ line = Str.strip l ∧
            recognise l = Some sp ∧ Str.contains "*" sp.2 = true.
Proof.
  revert idx. induction lines as [|l0 lines IH]; intros idx.
  - simpl. split; [by intros ?%elem_of_nil|]. by intros (i & l & sp & _ & ? & _).
  - cbn [star_lines]. rewrite elem_of_app, IH. split.
    + intros [Hhere|(i & l & sp & -> & Hi & Hrest)].
      * destruct (recognise l0) as [sp|] eqn:E; [|by apply elem_of_nil in Hhere].
        destruct (Str.contains "*" sp.2) eqn:Ec; [|by apply elem_of_nil in Hhere].
        apply list_elem_of_singleton in Hhere. injection Hhere as -> ->.
        exists 0, l0, sp. split; [lia|done].
      * exists (S i), l, sp. split; [lia|done].
    + intros (i & l & sp & -> & Hi & Hl & Hr & Hc). destruct i as [|i].
      * left. simpl in Hi. injection Hi as ->. rewrite Hr, Hc, Hl.
        replace (idx + 0 + 1) with (idx + 1) by lia. apply list_elem_of_here.
      * right. exists i, l, sp. split; [lia|done].
Qed.

(** X8. The wildcard imports that [process_file] collects for a file are
    exactly its recognised import lines whose path contains a star, each
    with its stripped text and its line number counted from 1. *)
Theorem star_imports_exact (filepath : string) (lines : list string)
    (line : string) (n : nat) :
  (line, n) ∈ star_imports (scan_lines filepath scan_init 0 lines) ↔
  ∃ l is_static path,
    0 < n ∧ lines !! (n - 1) = Some l ∧ line = Str.strip l ∧
    recognise l = Some (is_static, path) ∧ Str.contains "*" path = true.
Proof.
  rewrite scan_star_imports. cbn [star_imports scan_init app].
  rewrite elem_of_star_lines. split.
  - intros (i & l & [is_static path] & -> & Hi & Hl & Hr & Hc).
    exists l, is_static, path. replace (0 + i + 1 - 1) with i by lia.
    split; [lia|done].
  - intros (l & is_static & path & Hn & Hi & Hl & Hr & Hc).
    exists (n - 1), l, (is_static, path). split; [lia|done].
Qed.

(** ** The walk over the files *)

Lemma process_file_fs_frame (filepath : string) (fs fs' : gmap string string) :
  process_file_fs filepath fs = Some fs' →
  is_Some (fs !! filepath) ∧
  (∀ p, is_Some (fs' !! p) ↔ is_Some (fs !! p)) ∧
  (∀ p, p ≠ filepath → fs' !! p = fs !! p).
Proof.
  unfold process_file_fs. destruct (fs !! filepath) as [content|] eqn:E; [|done].
  simpl. intros [= <-]. split; [done|].
  destruct (process_file filepath (readlines content)) as [new_lines|]; [|done].
  split; intros p.
  - destruct (decide (p = filepath)) as [->|Hp].
    + by rewrite lookup_insert_eq, E.
    + by rewrite lookup_insert_ne.
  - intros Hp. by rewrite lookup_insert_ne.
Qed.

Lemma process_file_fs_None (filepath : string) (fs : gmap string string) :
  process_file_fs filepath fs = None ↔ fs !! filepath = None.
Proof.
  unfold process_file_fs. destruct (fs !! filepath); simpl; [|done].
  split; intros; discriminate.
Qed.

(** What one file of the walk does, in terms of the path it opens. *)
Lemma visit_file_spec (root : string) (fs : gmap string string) (sm : summary)
    (file : string) :
  if supported file then
    match visit_file root (fs, sm) file with
    | Some (fs', sm') =>
        is_Some (fs !! path_join root file) ∧
        (∀ p, is_Some (fs' !! p) ↔ is_Some (fs !! p)) ∧
        (∀ p, p ≠ path_join root file → fs' !! p = fs !! p) ∧
        (summary_ok sm → summary_ok sm') ∧
        (∀ p, p ∈ star_import_files sm' →
              p ∈ star_import_files sm ∨ p = path_join root file)
    | None => fs !! path_join root file = None
    end
  else visit_file root (fs, sm) file = Some (fs, sm).
Proof.
  unfold visit_file, supported. destruct (existsb _ _); [|done].
  destruct (fs !! path_join root file) as [content|] eqn:E; [|done].
  cbn [mbind option_bind].
  destruct (process_file_fs (path_join root file) fs) as [fs'|] eqn:Ep.
  - cbn [mbind option_bind].
    apply process_file_fs_frame in Ep as (_ & Hdom & Hframe).
    split; [done|]. split; [done|]. split; [done|].
    destruct (0 <? Str.count "import " content) eqn:Ec; [|by split; [|left]].
    apply Nat.ltb_lt in Ec. split.
    + intros (Hf & Hle & Hs). unfold summary_ok. cbn.
      split; [split; [lia|done]|]. split; [lia|].
      destruct (Str.contains "*" content); rewrite ?length_app; cbn; lia.
    + intros p. cbn. destruct (Str.contains "*" content); [|by left].
      intros [?| ->%list_elem_of_singleton]%elem_of_app; [by left|by right].
  - apply process_file_fs_None in Ep. congruence.
Qed.

Lemma visit_files_spec (root : string) (files : list string)
    (fs : gmap string string) (sm : summary) :
  let paths := path_join root <$> filter (λ f, supported f = true) files in
  match visit_files root (fs, sm) files with
  | Some (fs', sm') =>
      Forall (λ p, is_Some (fs !! p)) paths ∧
      (∀ p, is_Some (fs' !! p) ↔ is_Some (fs !! p)) ∧
      (∀ p, p ∉ paths → fs' !! p = fs !! p) ∧
      (summary_ok sm → summary_ok sm') ∧
      (∀ p, p ∈ star_import_files sm' → p ∈ star_import_files sm ∨ p ∈ paths)
  | None => ¬ Forall (λ p, is_Some (fs !! p)) paths
  end.
Proof.
  revert fs sm. induction files as [|file files IH]; intros fs sm paths.
  - simpl. split; [constructor|]. split; [done|]. split; [done|]. split; [done|]. by left.
  - cbn [visit_files]. subst paths. rewrite filter_cons.
    pose proof (visit_file_spec root fs sm file) as Hv.
    destruct (supported file) eqn:Es.
    + rewrite decide_True by done. rewrite fmap_cons.
      destruct (visit_file root (fs, sm) file) as [[fs1 sm1]|]; cbn [mbind option_bind].
      * destruct Hv as (Hex & Hdom & Hframe & Hok & Hstar).
        specialize (IH fs1 sm1). cbv zeta in IH.
        destruct (visit_files root (fs1, sm1) files) as [[fs2 sm2]|].
        -- destruct IH as (Hexs & Hdom2 & Hframe2 & Hok2 & Hstar2).
           split; [|split; [|split; [|split]]].
           ++ constructor; [done|]. eapply Forall_impl; [exact Hexs|].
              intros p. simpl. by rewrite Hdom.
           ++ intros p. by rewrite Hdom2.
           ++ intros p Hp. apply not_elem_of_cons in Hp as [Hp1 Hp2].
              by rewrite Hframe2, Hframe.
           ++ auto.
           ++ intros p [Hp|Hp]%Hstar2; [|right; by apply list_elem_of_further].
              apply Hstar in Hp as [Hp| ->]; [by left|right; apply list_elem_of_here].
        -- intros Hall. apply IH. apply Forall_cons in Hall as [_ Hall].
           eapply Forall_impl; [exact Hall|]. intros p. simpl. by rewrite Hdom.
      * intros Hall. apply Forall_cons in Hall as [[? Hc] _]. congruence.
    + rewrite decide_False by (by intros ?). rewrite Hv. cbn [mbind option_bind].
      apply IH.
Qed.

Lemma visited_cons (root : string) (files : list string)
    (rest : list (string * list string)) :
  visited ((root, files) :: rest) =
  (path_join root <$> filter (λ f, supported f = true) files) ++ visited rest.
Proof. done. Qed.

Lemma scan_and_process_spec (walk : list (string * list string))
    (fs : gmap string string) (sm : summary) :
  match scan_and_process walk (fs, sm) with
  | Some (fs', sm') =>
      Forall (λ p, is_Some (fs !! p)) (visited walk) ∧
      (∀ p, is_Some (fs' !! p) ↔ is_Some (fs !! p)) ∧
      (∀ p, p ∉ visited walk → fs' !! p = fs !! p) ∧
      (summary_ok sm → summary_ok sm') ∧
      (∀ p, p ∈ star_import_files sm' → p ∈ star_import_files sm ∨ p ∈ visited walk)
  | None => ¬ Forall (λ p, is_Some (fs !! p)) (visited walk)
  end.
Proof.
  revert fs sm. induction walk as [|[root files] walk IH]; intros fs sm.
  - simpl. split; [constructor|]. split; [done|]. split; [done|]. split; [done|]. by left.
  - cbn [scan_and_process]. rewrite visited_cons.
    pose proof (visit_files_spec root files fs sm) as Hv. cbv zeta in Hv.
    destruct (visit_files root (fs, sm) files) as [[fs1 sm1]|]; cbn [mbind option_bind].
    + destruct Hv as (Hexs & Hdom & Hframe & Hok & Hstar).
      specialize (IH fs1 sm1).
      destruct (scan_and_process walk (fs1, sm1)) as [[fs2 sm2]|].
      * destruct IH as (Hexs2 & Hdom2 & Hframe2 & Hok2 & Hstar2).
        split; [|split; [|split; [|split]]].
        -- apply Forall_app. split; [done|]. eapply Forall_impl; [exact Hexs2|].
           intros p. simpl. by rewrite Hdom.
        -- intros p. by rewrite Hdom2.
        -- intros p Hp. apply not_elem_of_app in Hp as [Hp1 Hp2].
           by rewrite Hframe2, Hframe.
        -- auto.
        -- intros p [Hp|Hp]%Hstar2; [|right; apply elem_of_app; by right].
           apply Hstar in Hp as [Hp|Hp]; [by left|right; apply elem_of_app; by left].
      * intros Hall. apply IH. apply Forall_app in Hall as [_ Hall].
        eapply Forall_impl; [exact Hall|]. intros p. simpl. by rewrite Hdom.
    + intros Hall. apply Hv. by apply Forall_app in Hall as [? _].
Qed.

Lemma summary_init_ok : summary_ok summary_init.
Proof. unfold summary_ok. cbn. split; [split; [done|lia]|lia]. Qed.

(** X10. After a walk that starts from the initial counters, [found_imports]
    is set exactly when some file was counted, each counted file has
    contributed at least one occurrence to [processed_imports], the
    wildcard warning lists at most one entry per counted file, and every
    file it lists is a supported file that the walk opened. *)
Theorem scan_and_process_counters (walk : list (string * list string))
    (fs fs' : gmap string string) (sm : summary) :
  scan_and_process walk (fs, summary_init) = Some (fs', sm) →
  (found_imports sm = true ↔ 0 < processed_files sm) ∧
  processed_files sm ≤ processed_imports sm ∧
  length (star_import_files sm) ≤ processed_files sm ∧
  (∀ p, p ∈ star_import_files sm → p ∈ visited walk).
Proof.
  intros Hrun. pose proof (scan_and_process_spec walk fs summary_init) as H.
  rewrite Hrun in H. destruct H as (_ & _ & _ & Hok & Hstar).
  destruct (Hok summary_init_ok) as (Hf & Hle & Hlen).
  split; [done|]. split; [done|]. split; [done|].
  intros p [Hp|Hp]%Hstar; [by apply elem_of_nil in Hp|done].
Qed.

Lemma scan_and_process_counters_witness :
  scan_and_process [("app", ["A.java"; "notes.txt"])]
    ({[ "app/A.java" := commented_file; "app/notes.txt" := "import x.*" ]}, summary_init)
  = Some ({[ "app/A.java" := transform "app/A.java" commented_file;
             "app/notes.txt" := "import x.*" ]},
          {| found_imports := true; star_import_files := ["app/A.java"];
             processed_files := 1; processed_imports := 1 |}) ∧
  (true = true ↔ 0 < 1) ∧ 1 ≤ 1 ∧ length ["app/A.java"] ≤ 1 ∧
  (∀ p, p ∈ ["app/A.java"] → p ∈ visited [("app", ["A.java"; "notes.txt"])]).
Proof.
  assert (H : scan_and_process [("app", ["A.java"; "notes.txt"])]
    ({[ "app/A.java" := commented_file; "app/notes.txt" := "import x.*" ]}, summary_init)
  = Some ({[ "app/A.java" := transform "app/A.java" commented_file;
             "app/notes.txt" := "import x.*" ]},
          {| found_imports := true; star_import_files := ["app/A.java"];
             processed_files := 1; processed_imports := 1 |})) by (by vm_compute).
  split; [exact H|].
  exact (scan_and_process_counters _ _ _ _ H).
Defined.

(** ** The directory that is walked *)

(** X13. The directory handed to [scan_and_process] is never the empty
    path; a non-empty [--src] is taken whatever [--app] is, and an empty
    [--src] counts as none. *)
Theorem main_app_dir_choice (a : args) :
  main_app_dir a ≠ EmptyString ∧
  (∀ dir, arg_src a = Some dir → dir ≠ EmptyString → main_app_dir a = dir) ∧
  main_app_dir {| arg_app := arg_app a; arg_src := Some EmptyString |} =
    main_app_dir {| arg_app := arg_app a; arg_src := None |}.
Proof.
  unfold main_app_dir. split; [|split].
  - destruct (arg_src a) as [[|c dir]|], (arg_app a); done.
  - intros dir -> Hdir. by destruct dir.
  - done.
Qed.

(** ** [get_import_group] *)

(** X14. The group label of an import that is not static is either one of
    the names in [IMPORT_ORDER], or the catch-all label made from the whole
    path, which is greater than every name in [IMPORT_ORDER] in the order
    of strings and differs for different paths. *)
Theorem get_import_group_catch_all (path : string) :
  get_import_group path false ∈ IMPORT_ORDER ∨
  (get_import_group path false = "zzz_other." +:+ path ∧
   (∀ k, k ∈ IMPORT_ORDER → String.ltb k (get_import_group path false) = true) ∧
   (∀ path', get_import_group path' false = get_import_group path false →
             path' = path)).
Proof.
  unfold get_import_group. case_bool_decide as Hin; [by left|right].
  split; [done|]. split.
  - intros k Hk. unfold IMPORT_ORDER in Hk.
    repeat (apply elem_of_cons in Hk as [->|Hk]; [done|]). by apply elem_of_nil in Hk.
  - intros path'. case_bool_decide as Hin'.
    + intros Heq. exfalso. rewrite Heq in Hin'. unfold IMPORT_ORDER in Hin'.
      repeat (apply elem_of_cons in Hin' as [Hk|Hin']; [discriminate Hk|]).
      by apply elem_of_nil in Hin'.
    + intros Heq. by injection Heq.
Qed.

(** ** Matching [PACKAGE_RE] *)

Lemma space_not_word_dot (c : ascii) :
  Char.isspace c = true → Char.isword_dot c = false.
Proof. destruct c as [[] [] [] [] [] [] [] []]; vm_compute; congruence. Qed.

Lemma word_dot_not_semicolon (c : ascii) :
  Char.isword_dot c = true → (";" =? c)%char = false.
Proof. destruct c as [[] [] [] [] [] [] [] []]; vm_compute; congruence. Qed.

(** [\s*$] at the end of a pattern accepts exactly white space. *)
Lemma star_eol {T} (t : string) (m : T) :
  is_Some (star Char.isspace t
             (λ s', if String.eqb s' EmptyString || String.eqb s' Str.NL
                    then Some m else None)) ↔
  all_chars Char.isspace t = true.
Proof.
  induction t as [|c t IH]; [by split; eauto|]. cbn [star all_chars].
  destruct (Char.isspace c) eqn:Ec.
  - rewrite andb_true_l.
    destruct (star Char.isspace t _) as [m'|] eqn:E.
    + split; [intros _; apply IH; eauto|eauto].
    + split.
      * intros Hk. destruct (_ || _) eqn:Ek; [|by destruct Hk as [? ?]].
        apply orb_true_iff in Ek as [Ek|Ek]; apply String.eqb_eq in Ek; [done|].
        unfold Str.NL in Ek. by injection Ek as _ ->.
      * intros Ha. apply IH in Ha. by destruct Ha.
  - rewrite andb_false_l. split; [|done]. intros Hk.
    destruct (_ || _) eqn:Ek; [|by destruct Hk as [? ?]].
    apply orb_true_iff in Ek as [Ek|Ek]; apply String.eqb_eq in Ek; [done|].
    unfold Str.NL in Ek. injection Ek as -> _. by vm_compute in Ec.
Qed.

Lemma package_re_spec (s : string) :
  bool_decide (is_Some (re_match PACKAGE_RE s)) = package_spec s.
Proof.
  unfold re_match, PACKAGE_RE, package_spec. cbn [run].
  destruct (Str.drop_prefix "package" s) as [r1|]; [|by apply bool_decide_eq_false; intros [? ?]].
  rewrite plus_cut.
  2:{ intros c t Hc. cbn [plus]. by rewrite (space_not_word_dot c Hc). }
  destruct (starts_with Char.isspace r1); [|by apply bool_decide_eq_false; intros [? ?]].
  set (r2 := skip_while Char.isspace r1). rewrite plus_cut.
  2:{ intros c t Hc. cbn [Str.drop_prefix]. rewrite (word_dot_not_semicolon c Hc).
      cbn [star]. destruct (Char.isspace c) eqn:Es.
      - by rewrite (space_not_word_dot c Es) in Hc.
      - destruct (_ || _) eqn:Ek; [|done].
        apply orb_true_iff in Ek as [Ek|Ek]; apply String.eqb_eq in Ek; [done|].
        unfold Str.NL in Ek. injection Ek as -> _. by vm_compute in Hc. }
  destruct (starts_with Char.isword_dot r2); [|by apply bool_decide_eq_false; intros [? ?]].
  set (r3 := skip_while Char.isword_dot r2). cbv zeta. rewrite !andb_true_l.
  assert (Hb : ∀ t, bool_decide (is_Some (star Char.isspace t
                      (λ s', if String.eqb s' EmptyString || String.eqb s' Str.NL
                             then Some (∅ : captures) else None)))
                    = all_chars Char.isspace t).
  { intros t. destruct (all_chars Char.isspace t) eqn:E.
    - apply bool_decide_eq_true. by apply star_eol.
    - apply bool_decide_eq_false. rewrite star_eol. congruence. }
  rewrite <- (Hb r3). destruct (Str.drop_prefix ";" r3) as [r4|]; [|done].
  rewrite <- (Hb r4). destruct (star Char.isspace r4 _) as [m|].
  - by rewrite (bool_decide_eq_true_2 (is_Some (Some m))) by eauto.
  - by rewrite (bool_decide_eq_false_2 (is_Some None)) by (by intros [? ?]).
Qed.

Lemma all_chars_last (P : ascii → bool) (s : string) (c : ascii) :
  all_chars P s = true → last_char s = Some c → P c = true.
Proof.
  induction s as [|a s IH]; [done|]. cbn [all_chars last_char].
  intros [Ha Hs]%andb_true_iff. destruct s; [by intros [= <-]|]. by apply IH.
Qed.

(** A text that does not end in white space has no white-space suffix. *)
Lemma tight_suffix (x r : string) :
  last_tight (x +:+ r) → all_chars Char.isspace r = true → r = EmptyString.
Proof.
  intros Ht Hr. destruct r as [|c r]; [done|]. exfalso.
  unfold last_tight in Ht. rewrite last_char_app in Ht by done.
  destruct (last_char (String c r)) as [c'|] eqn:E.
  2:{ clear -E. revert c E. induction r as [|c' r IH]; intros c E; [done|].
      by apply (IH c'). }
  by rewrite (all_chars_last _ _ _ Hr E) in Ht.
Qed.

Lemma skip_while_app (cls : ascii → bool) (a b : string) :
  all_chars cls a = true → starts_with cls b = false → skip_while cls (a +:+ b) = b.
Proof.
  intros Ha Hb. induction a as [|c a IH].
  - rewrite str_app_nil_l. destruct b as [|c b]; [done|]. simpl in *. by rewrite Hb.
  - rewrite str_app_cons. simpl in *. apply andb_true_iff in Ha as [-> Ha]. by apply IH.
Qed.

Lemma starts_with_app (cls : ascii → bool) (a b : string) :
  a ≠ EmptyString → starts_with cls (a +:+ b) = starts_with cls a.
Proof. by destruct a. Qed.

Lemma all_chars_starts_with (cls : ascii → bool) (a : string) :
  a ≠ EmptyString → all_chars cls a = true → starts_with cls a = true.
Proof. destruct a as [|c a]; [done|]. simpl. by intros _ [? _]%andb_true_iff. Qed.

Lemma package_prefix_not_skipped (r : string) : skipped ("package" +:+ r) = false.
Proof. reflexivity. Qed.

(** X15. A line sets [package_idx] exactly when its stripped text is the
    word [package], white space, a non-empty name of word characters and
    dots, and at most one [;]: nothing may follow, not even a comment. *)
Theorem package_line_shape (l : string) :
  is_package_line l = true ↔
  ∃ ws name semi,
    Str.strip l = "package" +:+ ws +:+ name +:+ semi ∧
    ws ≠ EmptyString ∧ all_chars Char.isspace ws = true ∧
    name ≠ EmptyString ∧ all_chars Char.isword_dot name = true ∧
    (semi = EmptyString ∨ semi = ";").
Proof.
  unfold is_package_line. rewrite package_re_spec. split.
  - intros [_ Hspec]%andb_true_iff. unfold package_spec in Hspec.
    destruct (Str.drop_prefix "package" (Str.strip l)) as [r1|] eqn:E1; [|done].
    apply drop_prefix_Some in E1.
    apply andb_true_iff in Hspec as [Hs1 Hspec]. cbv zeta in Hspec.
    apply andb_true_iff in Hspec as [Hs2 Hspec].
    set (r2 := skip_while Char.isspace r1) in *.
    set (r3 := skip_while Char.isword_dot r2) in *.
    assert (Hl : Str.strip l =
                 "package" +:+ take_while Char.isspace r1
                   +:+ take_while Char.isword_dot r2 +:+ r3).
    { rewrite E1. f_equal. unfold r3. rewrite take_skip_while. unfold r2.
      by rewrite take_skip_while. }
    assert (Hsemi : r3 = EmptyString ∨ r3 = ";").
    { destruct (strip_tight l) as [_ Htight]. rewrite Hl in Htight.
      rewrite <- !str_app_assoc in Htight.
      apply orb_true_iff in Hspec as [Hspec|Hspec].
      - destruct (Str.drop_prefix ";" r3) as [r4|] eqn:E4; [|done].
        apply drop_prefix_Some in E4. right. rewrite E4 in Htight |- *.
        rewrite <- str_app_assoc in Htight.
        by rewrite (tight_suffix _ r4 Htight Hspec).
      - left. by apply (tight_suffix _ r3 Htight). }
    exists (take_while Char.isspace r1), (take_while Char.isword_dot r2), r3.
    split; [done|]. split; [by apply take_while_nonempty|].
    split; [apply take_while_all|]. split; [by apply take_while_nonempty|].
    split; [apply take_while_all|done].
  - intros (ws & name & semi & Hl & Hws & Haws & Hname & Haname & Hsemi).
    rewrite Hl, package_prefix_not_skipped. cbn [negb andb].
    unfold package_spec. rewrite drop_prefix_app.
    assert (Hn : starts_with Char.isspace (name +:+ semi) = false).
    { rewrite starts_with_app by done.
      pose proof (all_chars_starts_with _ _ Hname Haname) as Hw.
      destruct name as [|c name]; [done|]. simpl in *.
      destruct (Char.isspace c) eqn:Ec; [|done].
      by rewrite (space_not_word_dot c Ec) in Hw. }
    rewrite starts_with_app, (all_chars_starts_with _ _ Hws Haws) by done.
    rewrite (skip_while_app _ ws _ Haws Hn). cbv zeta.
    rewrite starts_with_app, (all_chars_starts_with _ _ Hname Haname) by done.
    rewrite (skip_while_app _ name semi Haname) by (by destruct Hsemi as [-> | ->]).
    by destruct Hsemi as [-> | ->].
Qed.

(** ** The imports of the written file *)

(** X16. When the package line, if there is one, comes before the first
    import, the lines [process_file] writes contain the imports of the file
    it read, each as often as before and with the text recorded for it:
    scanning the written lines records the same imports, up to their
    order. *)
Theorem written_imports (filepath : string) (lines out : list string) :
  (∀ first,
     head (import_lines (scan_lines filepath scan_init 0 lines)) = Some first →
     (package_idx (scan_lines filepath scan_init 0 lines) < Z.of_nat first)%Z) →
  process_file filepath lines = Some out →
  imports (scan_lines filepath scan_init 0 out) ≡ₚ
  imports (scan_lines filepath scan_init 0 lines).
Proof.
  rewrite !scan_imports, scan_import_lines, scan_package_idx.
  cbn [imports import_lines package_idx scan_init app].
  intros Hpkg. rewrite process_file_unfold.
  case_bool_decide as Himp; [done|]. cbv zeta. intros [= <-].
  pose proof Himp as Hidx. rewrite (omap_parse_import_indices _ _ 0) in Hidx.
  destruct (head (import_indices 0 lines)) as [first|] eqn:Hfirst;
    [|by apply head_None in Hfirst].
  destruct (last (import_indices 0 lines)) as [final|] eqn:Hfinal;
    [|by apply last_None in Hfinal].
  specialize (Hpkg first eq_refl).
  apply first_import_spec in Hfirst as (j & l1 & -> & Hl1 & Hr1 & Hbefore).
  apply last_import_spec in Hfinal as (k & l2 & -> & Hl2 & Hr2 & Hafter).
  cbv [default from_option id] in *. cbn [Nat.add] in *.
  replace (k + 1) with (S k) in * by lia.
  destruct (kept_comments_spec (drop (S k) lines)) as [HC _].
  set (skip := leading_skippable (drop (S k) lines)) in *.
  assert (HBnone : Forall (λ l, recognise l = None) (drop (S k + length skip) lines)).
  { rewrite <- drop_drop. by apply Forall_drop. }
  change (Str.NL :: drop (S k + length skip) lines)
    with ([Str.NL] ++ drop (S k + length skip) lines).
  pose proof (tail_none _ _ HC HBnone) as Htail.
  assert (Hkept : Forall (λ l, recognise l = None)
            (if bool_decide (last_package 0 (-1) lines ≠ (-1)%Z)
             then take (Z.to_nat (last_package 0 (-1) lines + 1)) lines ++ [Str.NL]
             else take j lines)).
  { case_bool_decide as Hp; [|done].
    apply Forall_app. split; [|by repeat constructor].
    replace (take (Z.to_nat (last_package 0 (-1) lines + 1)) lines)
      with (take (Z.to_nat (last_package 0 (-1) lines + 1)) (take j lines))
      by (rewrite take_take; f_equal; lia).
    by apply Forall_take. }
  rewrite omap_parse_import_app_nil by done. apply omap_parse_block.
Qed.

Lemma written_imports_witness :
  (∀ first,
     head (import_lines (scan_lines "A.kt" scan_init 0 package_comment_file)) = Some first →
     (package_idx (scan_lines "A.kt" scan_init 0 package_comment_file) < Z.of_nat first)%Z) ∧
  process_file "A.kt" package_comment_file =
    Some ["package a;" +:+ Str.NL; Str.NL; "import x.Y;" +:+ Str.NL; Str.NL;
          "class A" +:+ Str.NL] ∧
  imports (scan_lines "A.kt" scan_init 0
             ["package a;" +:+ Str.NL; Str.NL; "import x.Y;" +:+ Str.NL; Str.NL;
              "class A" +:+ Str.NL]) ≡ₚ
  imports (scan_lines "A.kt" scan_init 0 package_comment_file).
Proof.
  assert (H1 : ∀ first,
     head (import_lines (scan_lines "A.kt" scan_init 0 package_comment_file)) = Some first →
     (package_idx (scan_lines "A.kt" scan_init 0 package_comment_file) < Z.of_nat first)%Z).
  { intros first Hf. vm_compute in Hf. injection Hf as <-. by vm_compute. }
  assert (H2 : process_file "A.kt" package_comment_file =
    Some ["package a;" +:+ Str.NL; Str.NL; "import x.Y;" +:+ Str.NL; Str.NL;
          "class A" +:+ Str.NL]) by (by vm_compute).
  split; [exact H1|]. split; [exact H2|].
  exact (written_imports "A.kt" package_comment_file _ H1 H2).
Defined.

(** ** Paths and extensions *)

Lemma all_chars_app (P : ascii → bool) (a b : string) :
  all_chars P (a +:+ b) = all_chars P a && all_chars P b.
Proof.
  induction a as [|c a IH]; [done|]. rewrite str_app_cons. simpl.
  by rewrite IH, andb_assoc.
Qed.

(** A suffix without [/] of a path lies in what follows its last [/]. *)
Lemma endswith_behind_slash (ext r file : string) :
  all_chars (λ c, negb (c =? "/")%char) ext = true →
  r = EmptyString ∨ Str.endswith "/" r = true →
  Str.endswith ext (r +:+ file) = Str.endswith ext file.
Proof.
  intros Hext. induction r as [|c r IH]; intros Hr; [by rewrite str_app_nil_l|].
  destruct Hr as [|Hr]; [done|].
  rewrite str_app_cons. cbn [Str.endswith].
  destruct (String.eqb_spec (String c (r +:+ file)) ext) as [Heq|_].
  - exfalso. apply endswith_inv in Hr as [b Hb].
    rewrite <- str_app_cons, Hb in Heq. rewrite <- Heq in Hext.
    rewrite !all_chars_app in Hext. simpl in Hext.
    by rewrite andb_false_r in Hext.
  - rewrite orb_false_l. apply IH.
    cbn [Str.endswith] in Hr. apply orb_true_iff in Hr as [Hr|Hr]; [|by right].
    apply String.eqb_eq in Hr. injection Hr as _ ->. by left.
Qed.

Lemma endswith_path_join (ext root file : string) :
  all_chars (λ c, negb (c =? "/")%char) ext = true →
  Str.endswith ext (path_join root file) = Str.endswith ext file.
Proof.
  intros Hext. unfold path_join.
  destruct (Str.nonempty root) eqn:En; cbn [negb orb].
  - destruct (Str.endswith "/" root) eqn:Es.
    + apply endswith_behind_slash; [done|by right].
    + rewrite <- str_app_assoc. apply endswith_behind_slash; [done|].
      right. apply endswith_app.
  - destruct root; [|done]. by rewrite str_app_nil_l.
Qed.

(** X17. The extension tests see the file name through the path: the path
    that [scan_and_process] hands to [process_file] has a supported
    extension exactly when the file name has one, and it ends in [.java],
    which makes [process_file] add terminators, exactly when the file name
    does. *)
Theorem path_join_extension (root file : string) :
  supported (path_join root file) = supported file ∧
  Str.endswith ".java" (path_join root file) = Str.endswith ".java" file.
Proof.
  unfold supported, SUPPORTED_EXTENSIONS. cbn [existsb].
  by rewrite !endswith_path_join.
Qed.

(** ** [get_import_group] and the grouping loop *)

(** X18. [get_import_group], which no code calls, agrees with the grouping
    loop of [sort_imports]: an import lands in the bucket named by its
    label when the label is a name in [IMPORT_ORDER], and in the catch-all
    bucket otherwise. *)
Theorem get_import_group_bucket (groups : gmap string (list (string * string)))
    (is_static : bool) (path line : string) :
  group_step groups (is_static, path, line) =
  groups_append
    (if bool_decide (get_import_group path is_static ∈ IMPORT_ORDER)
     then get_import_group path is_static else "zzz_other")
    (path, line) groups.
Proof.
  cbn [group_step]. unfold get_import_group.
  destruct is_static.
  - by rewrite bool_decide_true by apply list_elem_of_here.
  - f_equal. destruct (decide (Str.split_dot_head path ∈ IMPORT_ORDER)) as [Hin|Hin].
    + rewrite (bool_decide_true _ Hin), bool_decide_true by done.
      by apply find_order_group_hit.
    + rewrite (bool_decide_false _ Hin), bool_decide_false;
        [by apply find_order_group_miss|].
      unfold IMPORT_ORDER.
      intros Hk. repeat (apply elem_of_cons in Hk as [Hk|Hk]; [discriminate Hk|]).
      by apply elem_of_nil in Hk.
Qed.

(** ** Line endings of what is written *)

Lemma all_chars_lstrip (P : ascii → bool) (s : string) :
  all_chars P s = true → all_chars P (Str.lstrip s) = true.
Proof.
  induction s as [|c s IH]; [done|]. simpl.
  intros [Hc Hs]%andb_true_iff. destruct (Char.isspace c); [by apply IH|].
  simpl. by rewrite Hc, Hs.
Qed.

Lemma all_chars_rstrip (P : ascii → bool) (s : string) :
  all_chars P s = true → all_chars P (Str.rstrip s) = true.
Proof.
  induction s as [|c s IH]; [done|]. cbn [all_chars Str.rstrip].
  intros [Hc Hs]%andb_true_iff. specialize (IH Hs).
  destruct (Str.rstrip s) as [|c' r].
  - destruct (Char.isspace c); [done|]. simpl. by rewrite Hc.
  - cbn [all_chars] in *. by rewrite Hc, IH.
Qed.

Lemma no_cr_render (filepath l : string) : no_cr l = true → no_cr (render filepath l) = true.
Proof.
  unfold no_cr. intros Hl.
  assert (Hs : all_chars (λ c, negb (c =? Char.cr)%char) (Str.strip l) = true)
    by (by apply all_chars_lstrip, all_chars_rstrip).
  unfold render. destruct (_ && _); [|done]. by rewrite all_chars_app, Hs.
Qed.

Lemma readlines_no_cr (text : string) :
  no_cr text = true → Forall (λ l, no_cr l = true) (readlines text).
Proof.
  unfold no_cr. induction text as [|c rest IH]; [constructor|].
  cbn [all_chars readlines]. intros [Hc Hrest]%andb_true_iff. specialize (IH Hrest).
  destruct (c =? Char.newline)%char; [by constructor|].
  destruct (readlines rest) as [|line lines].
  - constructor; [|done]. simpl. by rewrite Hc.
  - apply Forall_cons in IH as [Hline Hlines]. constructor; [|done].
    simpl. by rewrite Hc, Hline.
Qed.

Lemma writelines_no_cr (lines : list string) :
  Forall (λ l, no_cr l = true) lines → no_cr (writelines lines) = true.
Proof.
  unfold no_cr, writelines. induction 1 as [|l ls Hl _ IH]; [done|].
  cbn [foldr]. by rewrite all_chars_app, Hl, IH.
Qed.

Lemma process_file_no_cr (filepath : string) (lines out : list string) :
  Forall (λ l, no_cr l = true) lines →
  process_file filepath lines = Some out →
  Forall (λ l, no_cr l = true) out.
Proof.
  intros Hlines. rewrite process_file_unfold.
  case_bool_decide as Himp; [done|]. cbv zeta. intros [= <-].
  assert (Hin : ∀ ls : list string, (∀ l, l ∈ ls → l ∈ lines) → Forall (λ l, no_cr l = true) ls).
  { intros ls Hls. apply Forall_forall. intros l Hl.
    by apply (proj1 (Forall_forall _ _) Hlines), Hls. }
  repeat apply Forall_app_2.
  - case_bool_decide.
    + apply Forall_app_2; [by apply Forall_take|by repeat constructor].
    + by apply Forall_take.
  - apply Forall_forall. intros x [->|(l & imp & Hl & Hp & ->)]%import_block_elem; [done|].
    unfold no_cr. rewrite all_chars_app, andb_true_r.
    rewrite (parse_import_line _ _ _ Hp). apply no_cr_render.
    by apply (proj1 (Forall_forall _ _) Hlines).
  - apply Hin. intros l Hl%(proj2 (kept_comments_spec _)).
    eapply elem_of_sublist; [exact Hl|apply sublist_drop].
  - apply Forall_cons. split; [done|by apply Forall_drop].
Qed.

(** X9. What [process_file] writes holds no carriage return: a file with
    CR LF or CR line endings that has an import is written back with LF
    line endings on every line, in the body as well as in the import block
    ([os.linesep] being LF). *)
Theorem written_text_lf (filepath raw : string) (new_lines : list string) :
  process_file filepath (readlines (universal_newlines raw)) = Some new_lines →
  no_cr (writelines new_lines) = true.
Proof.
  intros Hp. apply writelines_no_cr.
  apply (process_file_no_cr filepath (readlines (universal_newlines raw))); [|done].
  apply readlines_no_cr, universal_newlines_no_cr.
Qed.

Lemma written_text_lf_witness :
  process_file "A.kt" (readlines (universal_newlines crlf_file)) =
    Some ["import a.B;" +:+ Str.NL; Str.NL; "class A {}" +:+ Str.NL] ∧
  no_cr (writelines ["import a.B;" +:+ Str.NL; Str.NL; "class A {}" +:+ Str.NL]) = true.
Proof.
  assert (H : process_file "A.kt" (readlines (universal_newlines crlf_file)) =
    Some ["import a.B;" +:+ Str.NL; Str.NL; "class A {}" +:+ Str.NL]) by (by vm_compute).
  split; [exact H|].
  exact (written_text_lf "A.kt" crlf_file _ H).
Defined.

(** ** The walk on a disk *)

Lemma disk_read_Some (d : Disk.disk) (p text : string) :
  Disk.read d p = Some text ↔
  ∃ n raw w, Disk.names d !! p = Some n ∧ Disk.files d !! n = Some (Disk.Text raw w) ∧
             text = universal_newlines raw.
Proof.
  unfold Disk.read. split.
  - destruct (Disk.names d !! p) as [n|]; [|done]. cbn [mbind option_bind].
    destruct (Disk.files d !! n) as [[raw w|]|] eqn:E; [|done..].
    cbn [mbind option_bind]. intros [= <-]. by exists n, raw, w.
  - intros (n & raw & w & -> & Hf & ->). cbn [mbind option_bind]. by rewrite Hf.
Qed.

Lemma disk_process_file_spec (p : string) (d d' : Disk.disk) :
  Disk.process_file_fs p d = Some d' →
  ∃ n raw w, Disk.names d !! p = Some n ∧ Disk.files d !! n = Some (Disk.Text raw w) ∧
             Disk.names d' = Disk.names d ∧
             Disk.files d' = <[n := Disk.Text (Disk.transform p raw) w]> (Disk.files d).
Proof.
  unfold Disk.process_file_fs.
  destruct (Disk.read d p) as [text|] eqn:Er; [|done]. cbn [mbind option_bind].
  apply disk_read_Some in Er as (n & raw & w & Hn & Hf & ->).
  destruct (process_file p (readlines (universal_newlines raw))) as [out|] eqn:E.
  - unfold Disk.write. rewrite Hn. cbn [mbind option_bind]. rewrite Hf.
    cbn [mbind option_bind]. destruct w; [|done]. intros [= <-].
    exists n, raw, true. unfold Disk.transform. by rewrite E.
  - intros [= <-]. exists n, raw, w. unfold Disk.transform. by rewrite E, insert_id.
Qed.

Lemma walked_nil (d : Disk.disk) : walked [] d d.
Proof.
  split; [done|]. split; [done|]. split; [done|]. split; [constructor|].
  split; [done|]. intros _ p n raw w Hp. by apply elem_of_nil in Hp.
Qed.

Lemma walked_step (p : string) (d d' : Disk.disk) :
  Disk.process_file_fs p d = Some d' → walked [p] d d'.
Proof.
  intros (n & raw & w & Hn & Hf & Hnames & Hfiles)%disk_process_file_spec.
  assert (Hfile : ∀ m, is_Some (Disk.files d' !! m) ↔ is_Some (Disk.files d !! m)).
  { intros m. rewrite Hfiles. destruct (decide (m = n)) as [->|Hm].
    - rewrite lookup_insert_eq, Hf. split; eauto.
    - by rewrite lookup_insert_ne. }
  split; [done|]. split; [done|]. split; [|split; [|split]].
  - intros q. unfold Disk.read. rewrite Hnames, Hfiles.
    destruct (Disk.names d !! q) as [m|]; [|done]. cbn [mbind option_bind].
    destruct (decide (m = n)) as [->|Hm].
    + rewrite lookup_insert_eq, Hf. cbn [mbind option_bind]. split; eauto.
    + by rewrite lookup_insert_ne.
  - constructor; [|constructor]. unfold Disk.read. rewrite Hn. cbn [mbind option_bind].
    rewrite Hf. cbn [mbind option_bind]. eauto.
  - intros m Hm. rewrite Hfiles, lookup_insert_ne; [done|].
    intros <-. by apply (Hm p); [apply list_elem_of_here|].
  - intros _ q m raw' w' ->%list_elem_of_singleton Hm Hfm.
    rewrite Hn in Hm. injection Hm as <-. rewrite Hf in Hfm. injection Hfm as <- <-.
    by rewrite Hfiles, lookup_insert_eq.
Qed.

Lemma walked_app (ps1 ps2 : list string) (d d1 d2 : Disk.disk) :
  walked ps1 d d1 → walked ps2 d1 d2 → walked (ps1 ++ ps2) d d2.
Proof.
  intros (Hn1 & Hf1 & Hr1 & Ha1 & Hfr1 & Hc1) (Hn2 & Hf2 & Hr2 & Ha2 & Hfr2 & Hc2).
  split; [by rewrite Hn2|]. split; [intros n; by rewrite Hf2|].
  split; [intros p; by rewrite Hr2|]. split; [|split].
  - apply Forall_app. split; [done|]. eapply Forall_impl; [exact Ha2|].
    intros p. simpl. by rewrite Hr1.
  - intros n Hn. rewrite Hfr2, Hfr1; [done|..].
    + intros p Hp. apply Hn, elem_of_app. by left.
    + intros p Hp. rewrite Hn1. apply Hn, elem_of_app. by right.
  - rewrite fmap_app. intros (Hnd1 & Hdisj & Hnd2)%NoDup_app p n raw w Hp Hpn Hfn.
    apply elem_of_app in Hp as [Hp|Hp].
    + rewrite Hfr2; [by apply (Hc1 Hnd1 p)|].
      intros q Hq Hqn. rewrite Hn1 in Hqn.
      apply (Hdisj (Some n)); apply list_elem_of_fmap;
        [exists p; by rewrite Hpn|exists q; by rewrite Hqn].
    + assert (Hfr : Disk.files d1 !! n = Disk.files d !! n).
      { apply Hfr1. intros q Hq Hqn.
        apply (Hdisj (Some n)); apply list_elem_of_fmap;
          [exists q; by rewrite Hqn|exists p; by rewrite Hpn]. }
      apply (Hc2 ltac:(by rewrite Hn1) p); [done|by rewrite Hn1|by rewrite Hfr].
Qed.

Lemma disk_visit_file_walked (root file : string) (d d' : Disk.disk) (sm sm' : summary) :
  Disk.visit_file root (d, sm) file = Some (d', sm') →
  walked (if supported file then [path_join root file] else []) d d'.
Proof.
  unfold Disk.visit_file, supported. destruct (existsb _ _).
  - destruct (Disk.read d (path_join root file)); [|done]. cbn [mbind option_bind].
    destruct (Disk.process_file_fs (path_join root file) d) as [d1|] eqn:E; [|done].
    cbn [mbind option_bind]. intros [= <- _]. by apply walked_step.
  - intros [= <- _]. apply walked_nil.
Qed.

Lemma disk_visit_files_walked (root : string) (files : list string)
    (d d' : Disk.disk) (sm sm' : summary) :
  Disk.visit_files root (d, sm) files = Some (d', sm') →
  walked (path_join root <$> filter (λ f, supported f = true) files) d d'.
Proof.
  revert d sm. induction files as [|file files IH]; intros d sm.
  - intros [= <- _]. apply walked_nil.
  - cbn [Disk.visit_files].
    destruct (Disk.visit_file root (d, sm) file) as [[d1 sm1]|] eqn:E; [|done].
    cbn [mbind option_bind]. intros Hrest.
    apply disk_visit_file_walked in E. apply IH in Hrest.
    rewrite filter_cons. destruct (supported file).
    + rewrite decide_True by done. rewrite fmap_cons.
      by apply (walked_app [_] _ d d1 d').
    + rewrite decide_False by (by intros ?).
      by apply (walked_app [] _ d d1 d').
Qed.

Lemma disk_scan_and_process_walked (walk : list (string * list string))
    (d d' : Disk.disk) (sm sm' : summary) :
  Disk.scan_and_process walk (d, sm) = Some (d', sm') → walked (visited walk) d d'.
Proof.
  revert d sm. induction walk as [|[root files] walk IH]; intros d sm.
  - intros [= <- _]. apply walked_nil.
  - cbn [Disk.scan_and_process].
    destruct (Disk.visit_files root (d, sm) files) as [[d1 sm1]|] eqn:E; [|done].
    cbn [mbind option_bind]. intros Hrest. rewrite visited_cons.
    apply disk_visit_files_walked in E. apply IH in Hrest.
    by apply (walked_app _ _ d d1 d').
Qed.

(** X11. A completed walk leaves every path leading where it led, creates
    no file and deletes none, and leaves untouched every file that no
    listed path with a supported extension leads to; a file that such a
    path leads to through a link is not protected by its own name. *)
Theorem disk_frame (walk : list (string * list string))
    (d d' : Disk.disk) (sm sm' : summary) :
  Disk.scan_and_process walk (d, sm) = Some (d', sm') →
  Disk.names d' = Disk.names d ∧
  (∀ n, is_Some (Disk.files d' !! n) ↔ is_Some (Disk.files d !! n)) ∧
  (∀ n, (∀ p, p ∈ visited walk → Disk.names d !! p ≠ Some n) →
        Disk.files d' !! n = Disk.files d !! n).
Proof. by intros (? & ? & _ & _ & ? & _)%disk_scan_and_process_walked. Qed.

Lemma disk_frame_witness :
  Disk.scan_and_process [("app", ["A.kt"; "notes.txt"; "todo.txt"])]
    (linked_disk, summary_init)
  = Some ({| Disk.names := Disk.names linked_disk;
             Disk.files :=
               {[ 0 := Disk.Text ("import a.A" +:+ Str.NL +:+ "import b.B" +:+ Str.NL
                                    +:+ Str.NL) true;
                  1 := Disk.Text ("import b.B" +:+ Str.NL +:+ "import a.A" +:+ Str.NL)
                         true ]} |},
          {| found_imports := true; star_import_files := [];
             processed_files := 1; processed_imports := 2 |}) ∧
  Disk.names linked_disk = Disk.names linked_disk ∧
  (∀ n, is_Some (({[ 0 := Disk.Text ("import a.A" +:+ Str.NL +:+ "import b.B" +:+ Str.NL
                                       +:+ Str.NL) true;
                     1 := Disk.Text ("import b.B" +:+ Str.NL +:+ "import a.A" +:+ Str.NL)
                            true ]} : gmap nat Disk.file) !! n) ↔
        is_Some (Disk.files linked_disk !! n)) ∧
  (∀ n, (∀ p, p ∈ visited [("app", ["A.kt"; "notes.txt"; "todo.txt"])] →
              Disk.names linked_disk !! p ≠ Some n) →
        ({[ 0 := Disk.Text ("import a.A" +:+ Str.NL +:+ "import b.B" +:+ Str.NL
                              +:+ Str.NL) true;
            1 := Disk.Text ("import b.B" +:+ Str.NL +:+ "import a.A" +:+ Str.NL)
                   true ]} : gmap nat Disk.file) !! n =
        Disk.files linked_disk !! n).
Proof.
  assert (H : Disk.scan_and_process [("app", ["A.kt"; "notes.txt"; "todo.txt"])]
    (linked_disk, summary_init)
  = Some ({| Disk.names := Disk.names linked_disk;
             Disk.files :=
               {[ 0 := Disk.Text ("import a.A" +:+ Str.NL +:+ "import b.B" +:+ Str.NL
                                    +:+ Str.NL) true;
                  1 := Disk.Text ("import b.B" +:+ Str.NL +:+ "import a.A" +:+ Str.NL)
                         true ]} |},
          {| found_imports := true; star_import_files := [];
             processed_files := 1; processed_imports := 2 |})) by (by vm_compute).
  split; [exact H|].
  exact (disk_frame _ _ _ _ _ H).
Defined.

(** X12. One listed file with a supported extension that cannot be opened
    and read (a dangling link, a file without read permission, a file
    that is not valid UTF-8) makes the walk raise, wherever it stands in
    the walk and whatever the other files hold. *)
Theorem disk_unreadable_aborts (walk : list (string * list string))
    (d : Disk.disk) (sm : summary) (p : string) :
  p ∈ visited walk → Disk.read d p = None →
  Disk.scan_and_process walk (d, sm) = None.
Proof.
  intros Hp Hr.
  destruct (Disk.scan_and_process walk (d, sm)) as [[d' sm']|] eqn:E; [|done].
  apply disk_scan_and_process_walked in E as (_ & _ & _ & Hall & _).
  apply (proj1 (Forall_forall _ _) Hall) in Hp. rewrite Hr in Hp. by destruct Hp.
Qed.

Lemma disk_unreadable_aborts_witness :
  "app/A.java" ∈ visited [("app", ["A.java"; "B.java"])] ∧
  Disk.read undecodable_disk "app/A.java" = None ∧
  Disk.scan_and_process [("app", ["A.java"; "B.java"])] (undecodable_disk, summary_init)
    = None.
Proof.
  assert (H1 : "app/A.java" ∈ visited [("app", ["A.java"; "B.java"])])
    by apply list_elem_of_here.
  assert (H2 : Disk.read undecodable_disk "app/A.java" = None) by (by vm_compute).
  split; [exact H1|]. split; [exact H2|].
  exact (disk_unreadable_aborts _ undecodable_disk summary_init _ H1 H2).
Defined.

(** X19. When the listed paths lead to different files, a completed walk
    leaves in each of these files what [process_file] makes of the
    characters it held before the walk, and leaves its permission as it
    was: processing one file neither depends on nor disturbs another. *)
Theorem disk_contents (walk : list (string * list string))
    (d d' : Disk.disk) (sm sm' : summary) :
  NoDup ((λ p, Disk.names d !! p) <$> visited walk) →
  Disk.scan_and_process walk (d, sm) = Some (d', sm') →
  ∀ p n raw w, p ∈ visited walk → Disk.names d !! p = Some n →
               Disk.files d !! n = Some (Disk.Text raw w) →
               Disk.files d' !! n = Some (Disk.Text (Disk.transform p raw) w).
Proof.
  intros Hnd (_ & _ & _ & _ & _ & Hc)%disk_scan_and_process_walked. by apply Hc.
Qed.

Lemma disk_contents_witness :
  NoDup ((λ p, Disk.names crlf_disk !! p)
           <$> visited [("app", ["A.kt"]); ("app/b", ["B.java"; "notes.txt"])]) ∧
  Disk.scan_and_process [("app", ["A.kt"]); ("app/b", ["B.java"; "notes.txt"])]
    (crlf_disk, summary_init)
  = Some ({| Disk.names := Disk.names crlf_disk;
             Disk.files :=
               {[ 0 := Disk.Text ("import a.B;" +:+ Str.NL +:+ Str.NL
                                    +:+ "class A {}" +:+ Str.NL) true;
                  1 := Disk.Text ("class B {}" +:+ String Char.cr Str.NL) false ]} |},
          {| found_imports := true; star_import_files := [];
             processed_files := 1; processed_imports := 1 |}) ∧
  ∀ p n raw w,
    p ∈ visited [("app", ["A.kt"]); ("app/b", ["B.java"; "notes.txt"])] →
    Disk.names crlf_disk !! p = Some n →
    Disk.files crlf_disk !! n = Some (Disk.Text raw w) →
    ({[ 0 := Disk.Text ("import a.B;" +:+ Str.NL +:+ Str.NL
                          +:+ "class A {}" +:+ Str.NL) true;
        1 := Disk.Text ("class B {}" +:+ String Char.cr Str.NL) false ]}
       : gmap nat Disk.file) !! n
    = Some (Disk.Text (Disk.transform p raw) w).
Proof.
  assert (H1 : NoDup ((λ p, Disk.names crlf_disk !! p)
           <$> visited [("app", ["A.kt"]); ("app/b", ["B.java"; "notes.txt"])])).
  { change (NoDup [Some 0; Some 1]).
    apply NoDup_cons. split; [|apply NoDup_singleton].
    by intros ?%list_elem_of_singleton. }
  assert (H2 : Disk.scan_and_process [("app", ["A.kt"]); ("app/b", ["B.java"; "notes.txt"])]
    (crlf_disk, summary_init)
  = Some ({| Disk.names := Disk.names crlf_disk;
             Disk.files :=
               {[ 0 := Disk.Text ("import a.B;" +:+ Str.NL +:+ Str.NL
                                    +:+ "class A {}" +:+ Str.NL) true;
                  1 := Disk.Text ("class B {}" +:+ String Char.cr Str.NL) false ]} |},
          {| found_imports := true; star_import_files := [];
             processed_files := 1; processed_imports := 1 |})) by (by vm_compute).
  split; [exact H1|]. split; [exact H2|].
  exact (disk_contents _ _ _ _ _ H1 H2).
Defined.
